(** * ladders.py: multimode bosonic ladder-operator calculator

    A shallow embedding of [ladders.py] (class [Expression] and the module
    functions [add], [power], [scalar_multiply]) together with the properties
    of its parser, mode registry, normal-ordering reducer and term algebra.

    Conventions of the embedding:
    - a Python [str] is a list of 8-bit code points ([list ascii]);
    - a Python [dict] is an insertion-ordered association list with unique
      keys; [d[k] = v] overwrites in place or appends at the end;
    - coefficients are Python numbers, kept abstract (class [Number]);
      Python's [int] is the instance on [Z];
    - a raised exception is a value [Raise e] of the [result] type;
    - the recursion of [normal_ordering] is bounded by an explicit depth
      (Python's recursion limit); exhausting it raises [RecursionError]. *)

From Stdlib Require Import List Ascii ZArith Lia Arith Bool.
From Stdlib Require String.
Import String.StringSyntax.

Delimit Scope string_scope with string.
From Stdlib Require Import Permutation Sorted.
Import ListNotations.

Open Scope list_scope.

(** ** Python built-ins used by the program *)

Module Py.

Definition str := list ascii.

(** String literals. *)
Definition lit (s : String.string) : str := String.list_ascii_of_string s.

Arguments lit s%_string.

Fixpoint str_eqb (a b : str) : bool :=
  match a, b with
  | [], [] => true
  | x :: a', y :: b' => Ascii.eqb x y && str_eqb a' b'
  | _, _ => false
  end.

(** [c in s] for a single character [c]. *)
Fixpoint char_in (c : ascii) (s : list ascii) : bool :=
  match s with
  | [] => false
  | x :: s' => Ascii.eqb x c || char_in c s'
  end.

(** [s.startswith(prefix)] *)
Fixpoint startswith (s prefix : str) {struct prefix} : bool :=
  match prefix, s with
  | [], _ => true
  | p :: prefix', c :: s' => Ascii.eqb c p && startswith s' prefix'
  | _ :: _, [] => false
  end.

(** [s.endswith(suffix)] *)
Definition endswith (s suffix : str) : bool :=
  startswith (rev s) (rev suffix).

(** [s.find(sub)]: lowest index at which [sub] occurs; [None] stands for
    Python's [-1]. *)
Fixpoint find_from (s sub : str) (i : nat) {struct s} : option nat :=
  if startswith s sub then Some i
  else match s with
       | [] => None
       | _ :: s' => find_from s' sub (S i)
       end.

Definition find (s sub : str) : option nat := find_from s sub 0.

(** [s.split(sep)] for a non-empty separator: left to right, occurrences
    do not overlap.  [skip] counts the characters of a matched separator
    that are still to be consumed, [cur] is the current piece, reversed. *)
Fixpoint split_go (sep : str) (skip : nat) (cur : str) (s : str) : list str :=
  match s with
  | [] => [rev cur]
  | c :: s' =>
      match skip with
      | S k => split_go sep k cur s'
      | O =>
          if startswith s sep
          then rev cur :: split_go sep (length sep - 1) [] s'
          else split_go sep 0 (c :: cur) s'
      end
  end.

Definition split (s sep : str) : list str := split_go sep 0 [] s.

(** [s.replace(old, new)] for a non-empty [old]: a single left-to-right
    pass over non-overlapping occurrences. *)
Fixpoint replace_go (old new : str) (skip : nat) (s : str) : str :=
  match s with
  | [] => []
  | c :: s' =>
      match skip with
      | S k => replace_go old new k s'
      | O =>
          if startswith s old
          then new ++ replace_go old new (length old - 1) s'
          else c :: replace_go old new 0 s'
      end
  end.

Definition replace (s old new : str) : str := replace_go old new 0 s.

(** [s.strip(chars)] *)
Fixpoint lstrip (chars : list ascii) (s : str) : str :=
  match s with
  | [] => []
  | c :: s' => if char_in c chars then lstrip chars s' else s
  end.

Definition rstrip (chars : list ascii) (s : str) : str :=
  rev (lstrip chars (rev s)).

Definition strip (chars : list ascii) (s : str) : str :=
  rstrip chars (lstrip chars s).

(** [c.isalpha()] on the code points U+0000..U+00FF: the ASCII letters and
    the Latin-1 letters (general category L). *)
Definition isalpha (c : ascii) : bool :=
  let n := nat_of_ascii c in
  ((65 <=? n) && (n <=? 90)) || ((97 <=? n) && (n <=? 122))
  || (n =? 170) || (n =? 181) || (n =? 186)
  || ((192 <=? n) && (n <=? 214)) || ((216 <=? n) && (n <=? 246))
  || ((248 <=? n) && (n <=? 255)).

(** [sorted(l)] on characters: a stable insertion sort by code point. *)
Definition char_ltb (a b : ascii) : bool := nat_of_ascii a <? nat_of_ascii b.

Fixpoint insert_sorted (c : ascii) (l : list ascii) : list ascii :=
  match l with
  | [] => [c]
  | x :: l' => if char_ltb c x then c :: l else x :: insert_sorted c l'
  end.

Definition sorted (l : list ascii) : list ascii :=
  fold_left (fun acc c => insert_sorted c acc) l [].

(** [set(l)]: the elements without repetition.  The iteration order of a
    Python set is unspecified; the program only ever sorts it. *)
Definition set_of (l : list ascii) : list ascii := nodup ascii_dec l.

(** [l.remove(x)]: drops the first occurrence; [None] when there is none
    (Python raises [ValueError]). *)
Fixpoint list_remove (x : str) (l : list str) : option (list str) :=
  match l with
  | [] => None
  | y :: l' =>
      if str_eqb y x then Some l'
      else option_map (cons y) (list_remove x l')
  end.

End Py.

Import Py.

(** ** Exceptions *)

Inductive exn : Type :=
| ValueError
| AssertionError
| IndexError
| RecursionError.

Inductive result (A : Type) : Type :=
| Ok (a : A)
| Raise (e : exn).

Arguments Ok {A} a.
Arguments Raise {A} e.

Definition bind {A B : Type} (m : result A) (k : A -> result B) : result B :=
  match m with
  | Ok a => k a
  | Raise e => Raise e
  end.

Notation "x <- m ;; k" := (bind m (fun x => k))
  (at level 61, m at next level, right associativity).

(** A [for] loop whose body may raise. *)
Fixpoint for_each {A S : Type} (body : S -> A -> result S) (l : list A) (s : S)
  : result S :=
  match l with
  | [] => Ok s
  | a :: l' => s' <- body s a ;; for_each body l' s'
  end.

(** ** Coefficients *)

Class Number (C : Type) : Type := {
  num_one : C;                 (* the literal [1] *)
  num_add : C -> C -> C;       (* [+] *)
  num_mul : C -> C -> C        (* [*] *)
}.

#[export] Instance Z_Number : Number Z :=
  {| num_one := 1%Z; num_add := Z.add; num_mul := Z.mul |}.

(** ** Dictionaries *)

Section Dict.

Context {C : Type}.

Definition dict : Type := list (str * C).

Definition keys (d : dict) : list str := map fst d.

Fixpoint dict_get (d : dict) (k : str) : option C :=
  match d with
  | [] => None
  | (k', v) :: d' => if str_eqb k' k then Some v else dict_get d' k
  end.

(** [k in d] *)
Definition dict_in (k : str) (d : dict) : bool :=
  match dict_get d k with Some _ => true | None => false end.

(** [d[k] = v] *)
Fixpoint dict_set (d : dict) (k : str) (v : C) : dict :=
  match d with
  | [] => [(k, v)]
  | (k', v') :: d' =>
      if str_eqb k' k then (k', v) :: d' else (k', v') :: dict_set d' k v
  end.

(** Python's [==] on dictionaries with the same value type: same keys,
    same values, whatever the insertion order. *)
Definition dict_equal (d1 d2 : dict) : Prop :=
  forall k, dict_get d1 k = dict_get d2 k.

End Dict.

Arguments dict C : clear implicits.

(** ** The class [Expression] *)

Record Expression (C : Type) : Type := mkExpression {
  expr_dict : dict C;
  modes : list ascii
}.

Arguments mkExpression {C} _ _.
Arguments expr_dict {C} _.
Arguments modes {C} _.

Section Ladders.

Context {C : Type} `{Number C}.

(** The built-in [complex(s)] on strings; [None] when it raises
    [ValueError]. *)
Variable complex : str -> option C.

(** [Expression.find_first_alphabet_index] *)
Fixpoint find_first_alphabet_index_loop (term_string : str) (idx : nat) : nat :=
  match term_string with
  | [] => 0
  | char :: rest =>
      if isalpha char && negb (Ascii.eqb char "j"%char) then idx
      else find_first_alphabet_index_loop rest (S idx)
  end.

Definition find_first_alphabet_index (term_string : str) : nat :=
  find_first_alphabet_index_loop term_string 0.

(** The body of the loop of [Expression.parse_expr_string]. *)
Definition parse_term (expr_dict : dict C) (term : str) : result (dict C) :=
  let first_alphabet_idx := find_first_alphabet_index term in
  let operators := skipn first_alphabet_idx term in
  if first_alphabet_idx =? 0 then Ok (dict_set expr_dict operators num_one)
  else
    let coeff_string := firstn first_alphabet_idx term in
    match complex coeff_string with
    | Some c => Ok (dict_set expr_dict operators c)
    | None => Raise ValueError
    end.

(** [Expression.parse_expr_string] *)
Definition parse_expr_string (expr_string : str) : result (dict C) :=
  let terms := split expr_string (lit "(+)") in
  if str_eqb expr_string [] then Ok []
  else for_each parse_term terms [].

(** [Expression.find_modes] *)
Definition find_modes_term (modes : list ascii) (term : str) : list ascii :=
  let operators := strip (lit "_+") term in
  fold_left
    (fun modes char =>
       if isalpha char && negb (char_in char modes) then modes ++ [char]
       else modes)
    operators modes.

Definition find_modes (expr_dict : dict C) : list ascii :=
  sorted (fold_left find_modes_term (keys expr_dict) []).

(** [Expression.__init__] *)
Definition Expression_init (expr_string : str) : result (Expression C) :=
  d <- parse_expr_string expr_string ;;
  Ok (mkExpression d (find_modes d)).

(** The value of [Expression("")] (and of [Expression()]). *)
Definition Expression_empty : Expression C := mkExpression [] (find_modes []).

(** [Expression.clean_string] *)
Definition clean_string (term_string : str) : str :=
  let term_string :=
    if endswith term_string (lit "_") then removelast term_string
    else term_string in
  let term_string :=
    if startswith term_string (lit "_") then tl term_string
    else term_string in
  replace term_string (lit "__") (lit "_").

(** [Expression.add_expr_dicts]: [dict1] is updated and returned. *)
Definition add_expr_dicts (dict1 dict2 : dict C) : dict C :=
  fold_left
    (fun dict1 '(key, value) =>
       match dict_get dict1 key with
       | Some old => dict_set dict1 key (num_add old value)
       | None => dict_set dict1 key value
       end)
    dict2 dict1.

(** [Expression.hspace_organize] *)
Definition hspace_organize (term_string : str) : str :=
  let organized_term :=
    fold_left
      (fun organized_term mode =>
         let operators := split term_string (lit "_") in
         fold_left
           (fun organized_term operator =>
              if char_in mode operator
              then organized_term ++ operator ++ lit "_"
              else organized_term)
           operators organized_term)
      (find_modes [(term_string, num_one)]) [] in
  removelast organized_term.

(** [Expression.normal_ordering]; [depth] bounds the nesting of the
    recursive calls.  [n_op] and [n_dag] are the local variables [n] and
    [n_dag]; [term_with_n] and [term_with_1] are the two rewritten terms of
    the [else] branch, [idx] being the position found. *)
Definition n_op (mode : ascii) : str := mode :: lit "+_" ++ [mode].

Definition n_dag (mode : ascii) : str := mode :: lit "_" ++ mode :: lit "+".

Definition term_with_n (mode : ascii) (single_mode_term : str) (idx : nat) : str :=
  let left := clean_string (firstn idx single_mode_term) in
  let right :=
    clean_string (skipn (idx + length (n_dag mode)) single_mode_term) in
  clean_string (left ++ lit "_" ++ n_op mode ++ lit "_" ++ right).

Definition term_with_1 (mode : ascii) (single_mode_term : str) (idx : nat) : str :=
  let left := clean_string (firstn idx single_mode_term) in
  let right :=
    clean_string (skipn (idx + length (n_dag mode)) single_mode_term) in
  clean_string (left ++ lit "_" ++ right).

Fixpoint normal_ordering (depth : nat) (mode : ascii) (single_mode_term : str)
    (coeff : C) : result (dict C) :=
  match depth with
  | O => Raise RecursionError
  | S depth' =>
      match find single_mode_term (n_dag mode) with
      | None => Ok [(single_mode_term, coeff)]
      | Some idx =>
          d1 <- normal_ordering depth' mode
                  (term_with_n mode single_mode_term idx) coeff ;;
          d2 <- normal_ordering depth' mode
                  (term_with_1 mode single_mode_term idx) coeff ;;
          Ok (add_expr_dicts d1 d2)
      end
  end.

(** [Expression.split_modes] *)
Definition split_modes_step (st : str * list str) (mode : ascii)
  : result (str * list str) :=
  let '(multi_mode_string, splitted_expressions) := st in
  match find multi_mode_string [mode] with
  | None => Raise AssertionError
  | Some idx =>
      let single_mode_string := clean_string (firstn idx multi_mode_string) in
      Ok (clean_string (skipn idx multi_mode_string),
          splitted_expressions ++ [single_mode_string])
  end.

Definition split_modes (multi_mode_string : str) : result (list str) :=
  let modes := find_modes [(multi_mode_string, num_one)] in
  st <- for_each split_modes_step modes (multi_mode_string, []) ;;
  let '(multi_mode_string, splitted_expressions) := st in
  let splitted_expressions :=
    splitted_expressions ++ [clean_string multi_mode_string] in
  match list_remove [] splitted_expressions with
  | Some l => Ok l
  | None => Raise ValueError
  end.

(** [Expression._multiply_normal_ordered_single_mode_dicts] *)
Definition multiply_normal_ordered_single_mode_dicts (dict1 dict2 : dict C)
  : dict C :=
  fold_left
    (fun result '(key1, value1) =>
       fold_left
         (fun result '(key2, value2) =>
            let new_key := clean_string (key1 ++ lit "_" ++ key2) in
            match dict_get result new_key with
            | Some old => dict_set result new_key (num_add old (num_mul value1 value2))
            | None => dict_set result new_key (num_mul value1 value2)
            end)
         dict2 result)
    dict1 [].

(** The body of the inner loop of [Expression.multiply]: one pair of terms,
    accumulated into the dictionary of the result. *)
Definition multiply_terms (depth : nat) (result_dict : dict C)
    (t1 t2 : str * C) : result (dict C) :=
  let '(term1, coeff1) := t1 in
  let '(term2, coeff2) := t2 in
  let hspace_organized_term := hspace_organize (term1 ++ lit "_" ++ term2) in
  if str_eqb term1 [] && str_eqb term2 [] then
    Ok (add_expr_dicts result_dict [([], num_mul coeff1 coeff2)])
  else
    single_mode_terms <- split_modes hspace_organized_term ;;
    temp <-
      for_each
        (fun temp single_mode_term =>
           match single_mode_term with
           | [] => Raise IndexError
           | mode :: _ =>
               normal_ordered_single_mode_dict <-
                 normal_ordering depth mode single_mode_term num_one ;;
               match temp with
               | [] => Ok normal_ordered_single_mode_dict
               | _ :: _ =>
                   Ok (multiply_normal_ordered_single_mode_dicts
                         temp normal_ordered_single_mode_dict)
               end
           end)
        single_mode_terms [] ;;
    let overall_coeff := num_mul coeff1 coeff2 in
    let temp :=
      fold_left
        (fun temp' '(key, value) => dict_set temp' key (num_mul value overall_coeff))
        temp temp in
    Ok (add_expr_dicts result_dict temp).

(** [Expression.multiply] *)
Definition multiply (depth : nat) (self other_expr : Expression C)
  : result (Expression C) :=
  let result_modes := sorted (set_of (modes self ++ modes other_expr)) in
  d <- for_each
         (fun result_dict t1 =>
            for_each (fun result_dict t2 => multiply_terms depth result_dict t1 t2)
              (expr_dict other_expr) result_dict)
         (expr_dict self) (expr_dict Expression_empty) ;;
  Ok (mkExpression d result_modes).

(** The module function [add] (the method [Expression.add] has the same
    body). *)
Definition add (expr1 expr2 : Expression C) : Expression C :=
  let d :=
    fold_left (fun d '(term, coeff) => dict_set d term coeff)
      (expr_dict expr1) (expr_dict Expression_empty) in
  let d :=
    fold_left
      (fun d '(term, coeff) =>
         if dict_in term d
         then match dict_get d term with
              | Some old => dict_set d term (num_add old coeff)
              | None => d
              end
         else dict_set d term coeff)
      (expr_dict expr2) d in
  mkExpression d (find_modes d).

(** The module function [power]; [range(exponent - 1)] is empty when
    [exponent <= 1]. *)
Fixpoint power_loop (depth : nat) (res expr : Expression C) (count : nat)
  : result (Expression C) :=
  match count with
  | O => Ok res
  | S count' =>
      res' <- multiply depth res expr ;;
      power_loop depth res' expr count'
  end.

Definition power (depth : nat) (expr : Expression C) (exponent : Z)
  : result (Expression C) :=
  power_loop depth expr expr (Z.to_nat (exponent - 1)).

(** The module function [scalar_multiply] *)
Definition scalar_multiply (expr : Expression C) (scalar : C) : Expression C :=
  let d :=
    fold_left (fun d '(term, coeff) => dict_set d term (num_mul coeff scalar))
      (expr_dict expr) (expr_dict Expression_empty) in
  mkExpression d (modes Expression_empty).

End Ladders.

(** ** The term model

    The program keeps terms as strings.  The notions below give the reading
    of those strings as token sequences; they are used to state which inputs
    the properties are about. *)

(** An operator token: a mode letter and the "is creation" flag. *)
Definition token : Type := (ascii * bool)%type.

Definition token_str (t : token) : str :=
  fst t :: (if snd t then lit "+" else []).

(** The key of a token sequence: the tokens joined by ["_"]; the empty
    sequence is the constant term [""]. *)
Fixpoint term_key (ts : list token) : str :=
  match ts with
  | [] => []
  | [t] => token_str t
  | t :: ts' => token_str t ++ lit "_" ++ term_key ts'
  end.

(** A token sequence of the single mode [m], given by its flags. *)
Definition single_mode (m : ascii) (bs : list bool) : list token :=
  map (fun b => (m, b)) bs.

(** Mode letters are letters. *)
Definition wf_tokens (ts : list token) : Prop :=
  Forall (fun t => isalpha (fst t) = true) ts.

Definition wf_key (k : str) : Prop :=
  exists ts, wf_tokens ts /\ k = term_key ts.

(** A well-formed expression: every key is the key of a token sequence. *)
Definition wf_dict {C : Type} (d : dict C) : Prop := Forall wf_key (keys d).

Definition wf_expr {C : Type} (e : Expression C) : Prop := wf_dict (expr_dict e).

(** The first out-of-order adjacent pair (annihilation, creation) of a flag
    sequence: the flags before it and the flags after it. *)
Fixpoint split_D (bs : list bool) : option (list bool * list bool) :=
  match bs with
  | [] => None
  | b :: r =>
      match b, r with
      | false, true :: r' => Some ([], r')
      | _, _ =>
          match split_D r with
          | Some (l, r') => Some (b :: l, r')
          | None => None
          end
      end
  end.

(** Number of creation flags in a sequence. *)
Definition creations (bs : list bool) : nat := count_occ bool_dec bs true.

(** Number of annihilation flags in a sequence. *)
Definition annihilations (bs : list bool) : nat := count_occ bool_dec bs false.

(** Inversions: pairs of positions with an annihilation token before a
    creation token. *)
Fixpoint inversions (bs : list bool) : nat :=
  match bs with
  | [] => 0
  | b :: r => (if b then 0 else creations r) + inversions r
  end.

(** Fully normal-ordered: all creation tokens, then all annihilation
    tokens. *)
Definition normal_ordered (bs : list bool) : Prop :=
  exists p q, bs = repeat true p ++ repeat false q.

(** Joining keys: [sep_key ts] is the key of [ts] preceded by its delimiter,
    [key_sep ts] the key followed by it; both are empty for the empty
    sequence. *)
Definition sep_key (ts : list token) : str :=
  match ts with
  | [] => []
  | _ :: _ => lit "_" ++ term_key ts
  end.

Definition key_sep (ts : list token) : str :=
  match ts with
  | [] => []
  | _ :: _ => term_key ts ++ lit "_"
  end.

(** The pieces that [split("_")] cuts the key of a token sequence into: one
    per token, and the empty string for the empty sequence. *)
Definition operators_of (ts : list token) : list str :=
  match ts with
  | [] => [[]]
  | _ :: _ => map token_str ts
  end.

(** The tokens of mode [m] in a sequence, in their order, and the sequence
    regrouped by the modes [ms] (the Hilbert-space organisation of a
    term). *)
Definition mode_group (m : ascii) (ts : list token) : list token :=
  filter (fun t => Ascii.eqb (fst t) m) ts.

Definition organize (ms : list ascii) (ts : list token) : list token :=
  flat_map (fun m => mode_group m ts) ms.

(** A non-empty run of tokens of the single mode [m]. *)
Definition is_group (m : ascii) (g : list token) : Prop :=
  g <> [] /\ Forall (fun t => fst t = m) g.

(** A computation bounded by a recursion depth returns the value [a],
    satisfying [P], at every depth from some depth on. *)
Definition returns_eventually {A : Type} (f : nat -> result A) (P : A -> Prop)
  : Prop :=
  exists a N, P a /\ forall depth, N <= depth -> f depth = Ok a.

(** Order of characters by code point. *)
Definition char_le (a b : ascii) : Prop := nat_of_ascii a <= nat_of_ascii b.

Definition char_lt (a b : ascii) : Prop := nat_of_ascii a < nat_of_ascii b.

(** An instance of the parameter [complex] on [Z], used to run the parser on
    concrete inputs: it accepts the unsigned decimal integer literals and
    rejects every other string. *)
Definition digit_value (c : ascii) : option Z :=
  let n := nat_of_ascii c in
  if (48 <=? n) && (n <=? 57) then Some (Z.of_nat (n - 48)) else None.

Fixpoint decimal_literal_go (acc : Z) (s : str) : option Z :=
  match s with
  | [] => Some acc
  | c :: s' =>
      match digit_value c with
      | Some v => decimal_literal_go (10 * acc + v) s'
      | None => None
      end
  end.

Definition decimal_literal (s : str) : option Z :=
  match s with
  | [] => None
  | _ :: _ => decimal_literal_go 0 s
  end.

(** ** Further functions of the program *)

(** [s.count(sub)] for a non-empty [sub]: the number of non-overlapping
    occurrences, left to right. *)
Fixpoint count_go (sub : str) (skip : nat) (s : str) : nat :=
  match s with
  | [] => 0
  | _ :: s' =>
      match skip with
      | S k => count_go sub k s'
      | O =>
          if startswith s sub then S (count_go sub (length sub - 1) s')
          else count_go sub 0 s'
      end
  end.

Definition count (s sub : str) : nat := count_go sub 0 s.

(** [Expression.count_order] *)
Definition count_order (mode : ascii) (multi_mode_string : str) : nat :=
  count multi_mode_string [mode].

(** The module function [compare_expr], without its printing.  [isclose] is
    [np.isclose(value1, value2, atol=tolerance)].  The keys are taken as
    sets; the order in which a set is traversed does not change the flag. *)
Section CompareExpr.

Context {C Tol : Type}.

Variable isclose : C -> C -> Tol -> bool.

Definition set_difference (keys1 keys2 : list str) : list str :=
  filter (fun key => negb (existsb (str_eqb key) keys2)) keys1.

Definition set_intersection (keys1 keys2 : list str) : list str :=
  filter (fun key => existsb (str_eqb key) keys2) keys1.

Definition compare_expr (expr1 expr2 : Expression C) (tolerance : Tol) : bool :=
  let IS_EQUAL := true in
  let dict1 := expr_dict expr1 in
  let dict2 := expr_dict expr2 in
  let keys1 := keys dict1 in
  let keys2 := keys dict2 in
  let IS_EQUAL :=
    fold_left (fun _ _ => false) (set_difference keys1 keys2) IS_EQUAL in
  let IS_EQUAL :=
    fold_left (fun _ _ => false) (set_difference keys2 keys1) IS_EQUAL in
  fold_left
    (fun IS_EQUAL key =>
       match dict_get dict1 key, dict_get dict2 key with
       | Some value1, Some value2 =>
           if negb (isclose value1 value2 tolerance) then false else IS_EQUAL
       | _, _ => IS_EQUAL
       end)
    (set_intersection keys1 keys2) IS_EQUAL.

End CompareExpr.

(** The two parts a term is cut into by the parser: the operators, which
    become the key, and the coefficient ([None] when [complex] raises). *)
Definition term_operators (term : str) : str :=
  skipn (find_first_alphabet_index term) term.

Definition term_coefficient {C : Type} `{Number C} (complex : str -> option C)
    (term : str) : option C :=
  if find_first_alphabet_index term =? 0 then Some num_one
  else complex (firstn (find_first_alphabet_index term) term).

(** The sum of two optional coefficients, an absent one counting as no
    entry. *)
Definition merge_coefficients {C : Type} `{Number C} (a b : option C) : option C :=
  match a, b with
  | Some x, Some y => Some (num_add x y)
  | Some x, None => Some x
  | None, Some y => Some y
  | None, None => None
  end.

(** The fully ordered single-mode key with [p] creation tokens followed by
    [q] annihilation tokens. *)
Definition shape_key (mode : ascii) (p q : nat) : str :=
  term_key (single_mode mode (repeat true p ++ repeat false q)).

(** A key in canonical form: blocks of single-mode tokens, the modes strictly
    ascending, each block with its creation tokens before its annihilation
    tokens (a block may be empty). *)
Definition block_tokens (blocks : list (ascii * list bool)) : list token :=
  flat_map (fun b => single_mode (fst b) (snd b)) blocks.

Definition canonical_blocks (blocks : list (ascii * list bool)) : Prop :=
  StronglySorted char_lt (map fst blocks)
  /\ Forall (fun b => isalpha (fst b) = true /\ normal_ordered (snd b)) blocks.

Definition canonical_key (k : str) : Prop :=
  exists blocks, canonical_blocks blocks /\ k = term_key (block_tokens blocks).

(** A canonical key all of whose modes come before every mode of [ms]. *)
Definition canonical_key_below (ms : list ascii) (k : str) : Prop :=
  exists blocks,
    canonical_blocks blocks
    /\ k = term_key (block_tokens blocks)
    /\ Forall (fun b => Forall (char_lt (fst b)) ms) blocks.

(** ** Basic facts about the built-ins and dictionaries *)

Lemma ascii_eqb_true (a b : ascii) : Ascii.eqb a b = true <-> a = b.
Proof. apply Ascii.eqb_eq. Qed.

Lemma str_eqb_eq (a b : str) : str_eqb a b = true <-> a = b.
Proof.
  revert b; induction a as [|x a IH]; intros [|y b]; simpl;
    try (split; [discriminate | discriminate]); try tauto.
  rewrite andb_true_iff, Ascii.eqb_eq, IH.
  split; [intros [-> ->]; reflexivity | intros E; inversion E; auto].
Qed.

Lemma str_eqb_refl (a : str) : str_eqb a a = true.
Proof. apply str_eqb_eq; reflexivity. Qed.

Lemma str_eqb_neq (a b : str) : str_eqb a b = false <-> a <> b.
Proof.
  rewrite <- str_eqb_eq. destruct (str_eqb a b); split; congruence.
Qed.

Lemma char_in_In (c : ascii) (s : list ascii) : char_in c s = true <-> In c s.
Proof.
  induction s as [|x s IH]; simpl.
  - split; [discriminate | tauto].
  - rewrite orb_true_iff, Ascii.eqb_eq, IH. tauto.
Qed.

Section DictFacts.

Context {C : Type}.

Lemma dict_get_set (d : dict C) (k k' : str) (v : C) :
  dict_get (dict_set d k v) k' = if str_eqb k k' then Some v else dict_get d k'.
Proof.
  induction d as [|[k0 v0] d IH]; simpl.
  - reflexivity.
  - destruct (str_eqb k0 k) eqn:E0; simpl.
    + apply str_eqb_eq in E0; subst k0.
      destruct (str_eqb k k'); reflexivity.
    + rewrite IH. destruct (str_eqb k0 k') eqn:E1; [|reflexivity].
      apply str_eqb_eq in E1; subst k0.
      destruct (str_eqb k k') eqn:E2; [|reflexivity].
      apply str_eqb_eq in E2; subst k'. rewrite str_eqb_refl in E0. discriminate.
Qed.

Lemma dict_get_set_same (d : dict C) (k : str) (v : C) :
  dict_get (dict_set d k v) k = Some v.
Proof. rewrite dict_get_set, str_eqb_refl. reflexivity. Qed.

Lemma dict_get_set_other (d : dict C) (k k' : str) (v : C) :
  k <> k' -> dict_get (dict_set d k v) k' = dict_get d k'.
Proof.
  intros N. rewrite dict_get_set.
  apply str_eqb_neq in N. rewrite N. reflexivity.
Qed.

Lemma keys_dict_set (d : dict C) (k : str) (v : C) (x : str) :
  In x (keys (dict_set d k v)) <-> x = k \/ In x (keys d).
Proof.
  unfold keys. induction d as [|[k0 v0] d IH]; simpl.
  - intuition.
  - destruct (str_eqb k0 k) eqn:E; simpl.
    + apply str_eqb_eq in E; subst. intuition.
    + rewrite IH. intuition.
Qed.

Lemma dict_get_In_keys (d : dict C) (k : str) :
  dict_get d k <> None <-> In k (keys d).
Proof.
  unfold keys. induction d as [|[k0 v0] d IH]; simpl.
  - tauto.
  - destruct (str_eqb k0 k) eqn:E.
    + apply str_eqb_eq in E. split; [auto | discriminate].
    + apply str_eqb_neq in E. rewrite IH. intuition.
Qed.

End DictFacts.

(** ** Evaluations on the documented examples *)

(** [Expression("")] is the empty Expression used by the algebra. *)
Lemma Expression_init_empty {C : Type} `{Number C} (complex : str -> option C) :
  Expression_init complex (lit "") = Ok Expression_empty.
Proof. reflexivity. Qed.

Lemma Expression_a (complex : str -> option Z) :
  Expression_init complex (lit "a") = Ok (mkExpression [(lit "a", 1%Z)] (lit "a")).
Proof. reflexivity. Qed.

Lemma Expression_a_dag (complex : str -> option Z) :
  Expression_init complex (lit "a+")
  = Ok (mkExpression [(lit "a+", 1%Z)] (lit "a")).
Proof. reflexivity. Qed.

(** C1.  The commutation check of the documentation, evaluated on the code:
    [Expression("a").multiply(Expression("a+"))] is [{"a+_a": 1, "": 1}],
    whereas [add(Expression("a+").multiply(Expression("a")), Expression("1"))]
    is [{"a+_a": 1, "1": 1}], because [Expression("1")] keeps the constant
    under the key ["1"]; the two dictionaries differ. *)
Theorem commutation_check_evaluated (complex : str -> option Z) (depth : nat) :
  (a <- Expression_init complex (lit "a") ;;
   a_dag <- Expression_init complex (lit "a+") ;;
   multiply (S (S depth)) a a_dag)
  = Ok (mkExpression [(lit "a+_a", 1%Z); (lit "", 1%Z)] (lit "a"))
  /\ (a <- Expression_init complex (lit "a") ;;
      a_dag <- Expression_init complex (lit "a+") ;;
      one <- Expression_init complex (lit "1") ;;
      p <- multiply (S (S depth)) a_dag a ;;
      Ok (add p one))
     = Ok (mkExpression [(lit "a+_a", 1%Z); (lit "1", 1%Z)] (lit "a"))
  /\ ~ dict_equal [(lit "a+_a", 1%Z); (lit "", 1%Z)]
                  [(lit "a+_a", 1%Z); (lit "1", 1%Z)].
Proof.
  split; [reflexivity | split; [reflexivity |]].
  intros E. specialize (E (lit "")). discriminate E.
Qed.

(** C2.  [power(Expression("a+_a"), 2)] is exactly
    [{"a+_a+_a_a": 1, "a+_a": 1}]. *)
Theorem power_number_operator_squared (complex : str -> option Z) (depth : nat) :
  (n <- Expression_init complex (lit "a+_a") ;; power (S (S depth)) n 2)
  = Ok (mkExpression [(lit "a+_a+_a_a", 1%Z); (lit "a+_a", 1%Z)] (lit "a")).
Proof. reflexivity. Qed.

(** C5.  Parsing ["2a+_a(+)1"]: the coefficient of ["a+_a"] is
    [complex("2")], the mode set is [["a"]], and the trailing constant is
    stored under the key ["1"] (not under the empty key) with the integer
    coefficient [1]. *)
Theorem parse_round_trip_evaluated {C : Type} `{Number C}
    (complex : str -> option C) :
  Expression_init complex (lit "2a+_a(+)1")
  = match complex (lit "2") with
    | Some two =>
        Ok (mkExpression [(lit "a+_a", two); (lit "1", num_one)] (lit "a"))
    | None => Raise ValueError
    end.
Proof.
  unfold Expression_init, parse_expr_string. simpl.
  unfold parse_term. simpl.
  destruct (complex _); reflexivity.
Qed.

(** What [scalar_multiply] does to the dictionary of a valid Expression
    (distinct keys): same keys in the same order, each coefficient
    multiplied by the scalar. *)
Lemma dict_set_fresh {C : Type} (d : dict C) (k : str) (v : C) :
  ~ In k (keys d) -> dict_set d k v = d ++ [(k, v)].
Proof.
  induction d as [|[k0 v0] d IH]; intros Hn; [reflexivity|].
  simpl. destruct (str_eqb k0 k) eqn:E.
  - apply str_eqb_eq in E. subst k0. exfalso. apply Hn. left; reflexivity.
  - rewrite IH; [reflexivity|]. intros Hin. apply Hn. right; exact Hin.
Qed.

Lemma scalar_multiply_dict {C : Type} `{Number C} (e : Expression C) (scalar : C) :
  NoDup (keys (expr_dict e)) ->
  expr_dict (scalar_multiply e scalar)
  = map (fun kv => (fst kv, num_mul (snd kv) scalar)) (expr_dict e).
Proof.
  unfold scalar_multiply. cbn [expr_dict Expression_empty].
  assert (G : forall (l acc : dict C),
    NoDup (keys acc ++ keys l) ->
    fold_left (fun d '(term, coeff) => dict_set d term (num_mul coeff scalar)) l acc
    = acc ++ map (fun kv => (fst kv, num_mul (snd kv) scalar)) l).
  { induction l as [|[k v] l IH]; intros acc Hnd.
    - simpl. rewrite app_nil_r. reflexivity.
    - cbn [fold_left map fst snd].
      assert (Hk : ~ In k (keys acc)).
      { intros Hin. cbn [keys map fst] in Hnd.
        apply NoDup_remove_2 in Hnd. apply Hnd, in_or_app. left; exact Hin. }
      rewrite dict_set_fresh by exact Hk. rewrite IH.
      + rewrite <- app_assoc. reflexivity.
      + unfold keys in *. rewrite map_app, <- app_assoc. exact Hnd. }
  intros Hnd. apply (G (expr_dict e) []). exact Hnd.
Qed.

(** C6.  [scalar_multiply] builds its result from [Expression("")] and never
    sets [modes]: the result has the keys of the argument with scaled
    coefficients, but its mode set is empty; on [Expression("a")] and the
    scalar [2] it is [{"a": 2}] with modes [[]], while the argument has
    modes [["a"]]. *)
Theorem scalar_multiply_modes_evaluated (complex : str -> option Z) :
  (forall (e : Expression Z) (s : Z), modes (scalar_multiply e s) = [])
  /\ Expression_init complex (lit "a")
     = Ok (mkExpression [(lit "a", 1%Z)] (lit "a"))
  /\ scalar_multiply (mkExpression [(lit "a", 1%Z)] (lit "a")) 2%Z
     = mkExpression [(lit "a", 2%Z)] [].
Proof. repeat split. Qed.

(** ** The parser *)

Section Parser.

Context {C : Type} `{Number C}.

Variable complex : str -> option C.

Lemma find_first_alphabet_index_loop_none (t : str) (i : nat) :
  (forall c, In c t -> isalpha c = true -> c = "j"%char) ->
  find_first_alphabet_index_loop t i = 0.
Proof.
  revert i; induction t as [|c t IH]; intros i Hno; simpl.
  - reflexivity.
  - destruct (isalpha c) eqn:Ea; simpl.
    + rewrite (Hno c (or_introl eq_refl) Ea). simpl.
      apply IH. intros c' Hin. apply Hno. right; exact Hin.
    + apply IH. intros c' Hin. apply Hno. right; exact Hin.
Qed.

Lemma find_first_alphabet_index_loop_found (t : str) (i k : nat) :
  find_first_alphabet_index_loop t i = S k ->
  i <= S k /\
  exists c rest, skipn (S k - i) t = c :: rest /\
                 isalpha c = true /\ c <> "j"%char.
Proof.
  revert i; induction t as [|c t IH]; intros i;
    cbn [find_first_alphabet_index_loop].
  - discriminate.
  - destruct (isalpha c && negb (Ascii.eqb c "j")) eqn:E.
    + intros ->. split; [lia|]. rewrite Nat.sub_diag. simpl.
      apply andb_true_iff in E. destruct E as [Ea Ej].
      exists c, t. split; [reflexivity|]. split; [exact Ea|].
      intros ->. discriminate Ej.
    + intros Hk. destruct (IH _ Hk) as [Hle (c' & rest & Hs & Ha & Hj)].
      split; [lia|]. exists c', rest.
      replace (S k - i) with (S (S k - S i)) by lia.
      split; [exact Hs | split; assumption].
Qed.

Lemma parse_term_raises (d : dict C) (t : str) (e : exn) :
  parse_term complex d t = Raise e -> e = ValueError.
Proof.
  unfold parse_term.
  destruct (find_first_alphabet_index t =? 0); [discriminate|].
  destruct (complex _); [discriminate|]. congruence.
Qed.

Lemma for_each_parse_term_raises (terms : list str) (d : dict C) (e : exn) :
  for_each (parse_term complex) terms d = Raise e -> e = ValueError.
Proof.
  revert d; induction terms as [|t terms IH]; intros d; simpl.
  - discriminate.
  - destruct (parse_term complex d t) eqn:E; simpl.
    + apply IH.
    + intros E'. inversion E'; subst. eapply parse_term_raises; eauto.
Qed.

Lemma for_each_parse_term_bad_prefix (terms : list str) (t : str) (d : dict C) :
  In t terms ->
  find_first_alphabet_index t <> 0 ->
  complex (firstn (find_first_alphabet_index t) t) = None ->
  for_each (parse_term complex) terms d = Raise ValueError.
Proof.
  intros Hin Hidx Hbad. revert d.
  induction terms as [|t' terms IH]; intros d; [destruct Hin|].
  simpl. destruct Hin as [-> | Hin].
  - unfold parse_term at 1.
    apply Nat.eqb_neq in Hidx. rewrite Hidx, Hbad. reflexivity.
  - destruct (parse_term complex d t') eqn:E; simpl.
    + apply IH; exact Hin.
    + f_equal. eapply parse_term_raises; eauto.
Qed.

Lemma for_each_parse_term_constant (terms : list str) (t : str) (d0 d : dict C) :
  (forall c, In c t -> isalpha c = true -> c = "j"%char) ->
  In t terms \/ dict_get d0 t = Some num_one ->
  for_each (parse_term complex) terms d0 = Ok d ->
  dict_get d t = Some num_one.
Proof.
  intros Hno. revert d0.
  induction terms as [|t' terms IH]; intros d0 Hor; simpl.
  - intros E; inversion E; subst. destruct Hor as [[] | Hg]; exact Hg.
  - destruct (parse_term complex d0 t') as [d1|] eqn:E; simpl; [|discriminate].
    apply IH.
    destruct Hor as [[-> | Hin] | Hg].
    + right. unfold parse_term in E.
      unfold find_first_alphabet_index in E.
      rewrite (find_first_alphabet_index_loop_none t 0 Hno) in E. simpl in E.
      inversion E; subst. apply dict_get_set_same.
    + left; exact Hin.
    + right. unfold parse_term in E.
      destruct (find_first_alphabet_index t') as [|k] eqn:Ei; simpl in E.
      * inversion E; subst. rewrite dict_get_set.
        destruct (str_eqb t' t); [reflexivity | exact Hg].
      * destruct (find_first_alphabet_index_loop_found t' 0 k Ei)
          as [_ (c & rest & Hs & Ha & Hj)].
        rewrite Nat.sub_0_r in Hs.
        destruct (complex _) as [v|]; [|discriminate].
        inversion E; subst. rewrite dict_get_set_other; [exact Hg|].
        change (skipn (S k) t' <> t). rewrite Hs. intros <-.
        apply Hj. apply Hno; [left; reflexivity | exact Ha].
Qed.

End Parser.

(** C9.  A term whose first non-['j'] letter is at a positive index and whose
    text before that letter is rejected by [complex] makes the parser, and
    with it the constructor of [Expression], raise [ValueError] (the parse
    error): no Expression is constructed. *)
Theorem invalid_coefficient_rejected {C : Type} `{Number C}
    (complex : str -> option C) (expr_string term : str) :
  In term (split expr_string (lit "(+)")) ->
  find_first_alphabet_index term <> 0 ->
  complex (firstn (find_first_alphabet_index term) term) = None ->
  parse_expr_string complex expr_string = Raise ValueError
  /\ Expression_init complex expr_string = Raise ValueError.
Proof.
  intros Hin Hidx Hbad.
  assert (Hp : parse_expr_string complex expr_string = Raise ValueError).
  { unfold parse_expr_string.
    destruct (str_eqb expr_string []) eqn:E.
    - apply str_eqb_eq in E; subst expr_string.
      simpl in Hin. destruct Hin as [<- | []]. exfalso; apply Hidx; reflexivity.
    - eapply for_each_parse_term_bad_prefix; eauto. }
  split; [exact Hp|].
  unfold Expression_init. rewrite Hp. reflexivity.
Qed.

Lemma invalid_coefficient_rejected_witness :
  In (lit "--b") (split (lit "2a(+)--b") (lit "(+)"))
  /\ find_first_alphabet_index (lit "--b") <> 0
  /\ decimal_literal (firstn (find_first_alphabet_index (lit "--b")) (lit "--b")) = None
  /\ Expression_init decimal_literal (lit "2a(+)--b") = Raise ValueError.
Proof.
  assert (H1 : In (lit "--b") (split (lit "2a(+)--b") (lit "(+)")))
    by (simpl; right; left; reflexivity).
  assert (H2 : find_first_alphabet_index (lit "--b") <> 0)
    by (vm_compute; discriminate).
  assert (H3 : decimal_literal
                 (firstn (find_first_alphabet_index (lit "--b")) (lit "--b")) = None)
    by reflexivity.
  split; [exact H1 | split; [exact H2 | split; [exact H3 |]]].
  exact (proj2 (invalid_coefficient_rejected decimal_literal _ _ H1 H2 H3)).
Defined.

(** C10.  A term without any letter other than ['j'] is stored whole as a key
    with coefficient [1]: whenever the loop of the parser completes, each
    such term is a key of the dictionary and its coefficient is [1]; so it is
    for every non-empty input that parses; in particular
    [Expression("1").expr_dict] is [{"1": 1}], not [{"": 1}]. *)
Theorem bare_constant_stored_under_its_text {C : Type} `{Number C}
    (complex : str -> option C) :
  (forall (terms : list str) (term : str) (d0 d : dict C),
     In term terms ->
     (forall c, In c term -> isalpha c = true -> c = "j"%char) ->
     for_each (parse_term complex) terms d0 = Ok d ->
     dict_get d term = Some num_one)
  /\ (forall (expr_string term : str) (d : dict C),
       expr_string <> [] ->
       In term (split expr_string (lit "(+)")) ->
       (forall c, In c term -> isalpha c = true -> c = "j"%char) ->
       parse_expr_string complex expr_string = Ok d ->
       dict_get d term = Some num_one)
  /\ Expression_init complex (lit "1")
     = Ok (mkExpression [(lit "1", num_one)] []).
Proof.
  split; [|split; [|reflexivity]].
  - intros terms term d0 d Hin Hno. apply for_each_parse_term_constant; auto.
  - intros expr_string term d Hne Hin Hno. unfold parse_expr_string.
    apply str_eqb_neq in Hne. rewrite Hne.
    apply for_each_parse_term_constant; auto.
Qed.

Lemma bare_constant_stored_under_its_text_witness :
  lit "a(+)3.5" <> []
  /\ In (lit "3.5") (split (lit "a(+)3.5") (lit "(+)"))
  /\ parse_expr_string decimal_literal (lit "a(+)3.5")
     = Ok [(lit "a", 1%Z); (lit "3.5", 1%Z)]
  /\ dict_get [(lit "a", 1%Z); (lit "3.5", 1%Z)] (lit "3.5") = Some 1%Z.
Proof.
  assert (H1 : lit "a(+)3.5" <> []) by discriminate.
  assert (H2 : In (lit "3.5") (split (lit "a(+)3.5") (lit "(+)")))
    by (simpl; right; left; reflexivity).
  assert (H3 : parse_expr_string decimal_literal (lit "a(+)3.5")
               = Ok [(lit "a", 1%Z); (lit "3.5", 1%Z)]) by reflexivity.
  split; [exact H1 | split; [exact H2 | split; [exact H3 |]]].
  refine (proj1 (proj2 (bare_constant_stored_under_its_text decimal_literal))
            _ _ _ H1 H2 _ H3).
  intros c Hc Ha. simpl in Hc.
  destruct Hc as [<- | [<- | [<- | []]]]; discriminate Ha.
Defined.

(** ** The mode registry *)

Lemma nat_of_ascii_inj (a b : ascii) : nat_of_ascii a = nat_of_ascii b -> a = b.
Proof.
  intros E. rewrite <- (ascii_nat_embedding a), <- (ascii_nat_embedding b), E.
  reflexivity.
Qed.

Lemma insert_sorted_perm (c : ascii) (l : list ascii) :
  Permutation (insert_sorted c l) (c :: l).
Proof.
  induction l as [|x l IH]; simpl; [reflexivity|].
  destruct (char_ltb c x); [reflexivity|].
  rewrite IH. apply perm_swap.
Qed.

Lemma sorted_perm (l : list ascii) : Permutation (sorted l) l.
Proof.
  unfold sorted.
  assert (G : forall acc, Permutation
                (fold_left (fun acc c => insert_sorted c acc) l acc) (acc ++ l)).
  { induction l as [|c l IH]; intros acc; simpl.
    - rewrite app_nil_r. reflexivity.
    - rewrite IH, insert_sorted_perm.
      change (c :: acc) with ([c] ++ acc).
      change (c :: l) with ([c] ++ l).
      rewrite !app_assoc. apply Permutation_app_tail, Permutation_app_comm. }
  apply (G []).
Qed.

Lemma insert_sorted_StronglySorted (c : ascii) (l : list ascii) :
  StronglySorted char_le l -> StronglySorted char_le (insert_sorted c l).
Proof.
  induction 1 as [|x l Hs IH Hx]; simpl.
  - constructor; constructor.
  - unfold char_ltb. destruct (nat_of_ascii c <? nat_of_ascii x) eqn:E.
    + apply Nat.ltb_lt in E. constructor.
      * constructor; assumption.
      * constructor; [unfold char_le; lia|].
        eapply Forall_impl; [|exact Hx]. unfold char_le. intros; lia.
    + apply Nat.ltb_ge in E. constructor; [exact IH|].
      eapply Permutation_Forall; [symmetry; apply insert_sorted_perm|].
      constructor; assumption.
Qed.

Lemma sorted_StronglySorted (l : list ascii) : StronglySorted char_le (sorted l).
Proof.
  unfold sorted.
  assert (G : forall acc, StronglySorted char_le acc ->
                StronglySorted char_le
                  (fold_left (fun acc c => insert_sorted c acc) l acc)).
  { induction l as [|c l IH]; intros acc Hacc; simpl; [exact Hacc|].
    apply IH, insert_sorted_StronglySorted, Hacc. }
  apply G. constructor.
Qed.

Lemma StronglySorted_le_NoDup_lt (l : list ascii) :
  StronglySorted char_le l -> NoDup l -> StronglySorted char_lt l.
Proof.
  induction 1 as [|x l Hs IH Hx]; intros Hnd; [constructor|].
  inversion Hnd as [|? ? Hnin Hnd']; subst.
  constructor; [apply IH; exact Hnd'|].
  rewrite Forall_forall in *. intros y Hy.
  specialize (Hx y Hy). unfold char_le, char_lt in *.
  assert (nat_of_ascii x <> nat_of_ascii y).
  { intros E. apply nat_of_ascii_inj in E. subst. contradiction. }
  lia.
Qed.

Lemma StronglySorted_lt_NoDup (l : list ascii) :
  StronglySorted char_lt l -> NoDup l.
Proof.
  induction 1 as [|x l Hs IH Hx]; constructor; [|exact IH].
  intros Hin. rewrite Forall_forall in Hx. specialize (Hx x Hin).
  unfold char_lt in Hx. lia.
Qed.

(** Two strictly ascending lists with the same elements are equal. *)
Lemma StronglySorted_lt_unique (l1 l2 : list ascii) :
  StronglySorted char_lt l1 -> StronglySorted char_lt l2 ->
  (forall c, In c l1 <-> In c l2) -> l1 = l2.
Proof.
  intros H1; revert l2. induction H1 as [|x l1 Hs1 IH Hx]; intros l2 H2 Heq.
  - destruct l2 as [|y l2]; [reflexivity|].
    exfalso. apply (proj2 (Heq y)). left; reflexivity.
  - destruct H2 as [|y l2 Hs2 Hy].
    + exfalso. apply (proj1 (Heq x)). left; reflexivity.
    + rewrite Forall_forall in Hx, Hy.
      assert (x = y).
      { destruct (proj1 (Heq x) (or_introl eq_refl)) as [E | Hin]; [auto|].
        destruct (proj2 (Heq y) (or_introl eq_refl)) as [E | Hin']; [auto|].
        specialize (Hx _ Hin'). specialize (Hy _ Hin).
        unfold char_lt in *. lia. }
      subst y. f_equal. apply IH; [exact Hs2|].
      intros c. split; intros Hc.
      * destruct (proj1 (Heq c) (or_intror Hc)) as [E | Hin]; [|exact Hin].
        subst c. specialize (Hx _ Hc). unfold char_lt in Hx. lia.
      * destruct (proj2 (Heq c) (or_intror Hc)) as [E | Hin]; [|exact Hin].
        subst c. specialize (Hy _ Hc). unfold char_lt in Hy. lia.
Qed.

Lemma lstrip_In (chars : list ascii) (s : str) (c : ascii) :
  In c (lstrip chars s) -> In c s.
Proof.
  induction s as [|x s IH]; simpl; [tauto|].
  destruct (char_in x chars); [right; auto | auto].
Qed.

Lemma lstrip_keeps (chars : list ascii) (s : str) (c : ascii) :
  ~ In c chars -> In c s -> In c (lstrip chars s).
Proof.
  intros Hn. induction s as [|x s IH]; simpl; [tauto|].
  destruct (char_in x chars) eqn:E; [|auto].
  intros [-> | Hin]; [|auto].
  apply char_in_In in E. contradiction.
Qed.

Lemma strip_In (chars : list ascii) (s : str) (c : ascii) :
  ~ In c chars -> (In c (strip chars s) <-> In c s).
Proof.
  intros Hn. unfold strip, rstrip. split.
  - intros Hin. rewrite <- in_rev in Hin. apply lstrip_In in Hin.
    rewrite <- in_rev in Hin. apply lstrip_In in Hin. exact Hin.
  - intros Hin. rewrite <- in_rev. apply lstrip_keeps; [exact Hn|].
    rewrite <- in_rev. apply lstrip_keeps; assumption.
Qed.

Lemma isalpha_not_delimiter (c : ascii) :
  isalpha c = true -> ~ In c (lit "_+").
Proof.
  intros Ha [<- | [<- | []]]; discriminate Ha.
Qed.

Lemma find_modes_term_spec (term : str) (modes : list ascii) :
  NoDup modes ->
  NoDup (find_modes_term modes term)
  /\ forall c, In c (find_modes_term modes term) <->
               In c modes \/ (isalpha c = true /\ In c term).
Proof.
  unfold find_modes_term.
  assert (G : forall ops modes, NoDup modes ->
    let r := fold_left
      (fun modes char =>
         if isalpha char && negb (char_in char modes) then modes ++ [char]
         else modes) ops modes in
    NoDup r /\ forall c, In c r <-> In c modes \/ (isalpha c = true /\ In c ops)).
  { induction ops as [|x ops IH]; intros ms Hnd; simpl.
    - split; [exact Hnd|]. intros c. tauto.
    - destruct (isalpha x) eqn:Ea; simpl.
      + destruct (char_in x ms) eqn:Ei; simpl.
        * destruct (IH ms Hnd) as [Hn Hin]. split; [exact Hn|].
          intros c. rewrite Hin. apply char_in_In in Ei.
          intuition (subst; auto).
        * assert (Hnd' : NoDup (ms ++ [x])).
          { apply NoDup_app; [exact Hnd | repeat constructor; simpl; tauto|].
            intros y Hy [<- | []].
            apply char_in_In in Hy. congruence. }
          destruct (IH _ Hnd') as [Hn Hin]. split; [exact Hn|].
          intros c. rewrite Hin, in_app_iff. simpl.
          intuition (subst; auto).
      + destruct (IH ms Hnd) as [Hn Hin]. split; [exact Hn|].
        intros c. rewrite Hin. intuition (subst; auto; congruence). }
  intros Hnd. destruct (G (strip (lit "_+") term) modes Hnd) as [Hn Hin].
  split; [exact Hn|]. intros c. rewrite Hin.
  split; intros [Hc | [Ha Hc]]; auto; right; split; auto;
    apply (strip_In _ _ _ (isalpha_not_delimiter _ Ha)); exact Hc.
Qed.

Lemma find_modes_fold_spec (ks : list str) (modes : list ascii) :
  NoDup modes ->
  NoDup (fold_left find_modes_term ks modes)
  /\ forall c, In c (fold_left find_modes_term ks modes) <->
               In c modes \/ (isalpha c = true /\ exists k, In k ks /\ In c k).
Proof.
  revert modes; induction ks as [|k ks IH]; intros ms Hnd; simpl.
  - split; [exact Hnd|]. intros c. split; [auto|].
    intros [Hc | [_ (k & [] & _)]]; exact Hc.
  - destruct (find_modes_term_spec k ms Hnd) as [Hn1 Hin1].
    destruct (IH _ Hn1) as [Hn Hin]. split; [exact Hn|].
    intros c. rewrite Hin, Hin1. split.
    + intros [[Hc | [Ha Hc]] | [Ha (k' & Hk' & Hc)]]; eauto 7.
    + intros [Hc | [Ha (k' & [<- | Hk'] & Hc)]]; eauto 7.
Qed.

Lemma find_modes_spec {C : Type} (d : dict C) :
  StronglySorted char_lt (find_modes d)
  /\ forall c, In c (find_modes d) <->
               isalpha c = true /\ exists k, In k (keys d) /\ In c k.
Proof.
  unfold find_modes.
  destruct (find_modes_fold_spec (keys d) [] (NoDup_nil _)) as [Hn Hin].
  split.
  - apply StronglySorted_le_NoDup_lt; [apply sorted_StronglySorted|].
    eapply Permutation_NoDup; [symmetry; apply sorted_perm | exact Hn].
  - intros c. split.
    + intros Hc. apply (Permutation_in _ (sorted_perm _)) in Hc.
      apply Hin in Hc. destruct Hc as [[] | Hc]. exact Hc.
    + intros Hc. apply (Permutation_in _ (Permutation_sym (sorted_perm _))).
      apply Hin. right; exact Hc.
Qed.

(** C7 (as amended).  The mode set of a constructed Expression is the
    strictly ascending list of the distinct alphabetic characters of its
    keys; the reserved letter ['j'] is not filtered: it belongs to the mode
    set exactly when it occurs in some key. *)
Theorem modes_are_sorted_letters_of_keys {C : Type} `{Number C}
    (complex : str -> option C) (expr_string : str) (e : Expression C) :
  Expression_init complex expr_string = Ok e ->
  modes e = find_modes (expr_dict e)
  /\ StronglySorted char_lt (modes e)
  /\ (forall c, In c (modes e) <->
                isalpha c = true /\ exists k, In k (keys (expr_dict e)) /\ In c k)
  /\ (In "j"%char (modes e) <->
      exists k, In k (keys (expr_dict e)) /\ In "j"%char k).
Proof.
  unfold Expression_init. intros E.
  destruct (parse_expr_string complex expr_string) as [d|]; [|discriminate].
  simpl in E. inversion E; subst; clear E. simpl.
  destruct (find_modes_spec d) as [Hs Hin].
  split; [reflexivity | split; [exact Hs | split; [exact Hin|]]].
  rewrite Hin. split; [intros [_ Hk]; exact Hk | intros Hk; split; [reflexivity | exact Hk]].
Qed.

Lemma modes_are_sorted_letters_of_keys_witness :
  Expression_init decimal_literal (lit "2b+_a(+)a_j")
  = Ok (mkExpression [(lit "b+_a", 2%Z); (lit "a_j", 1%Z)] (lit "abj"))
  /\ StronglySorted char_lt (lit "abj")
  /\ (In "j"%char (lit "abj") <->
      exists k, In k [lit "b+_a"; lit "a_j"] /\ In "j"%char k).
Proof.
  assert (E : Expression_init decimal_literal (lit "2b+_a(+)a_j")
              = Ok (mkExpression [(lit "b+_a", 2%Z); (lit "a_j", 1%Z)] (lit "abj")))
    by reflexivity.
  destruct (modes_are_sorted_letters_of_keys decimal_literal _ _ E)
    as (_ & Hs & _ & Hj).
  split; [exact E | split; [exact Hs | exact Hj]].
Defined.

(** C7 (as stated) fails: [Expression("a_j")] is constructed and its mode
    set is [['a', 'j']]. *)
Lemma modes_may_contain_j :
  ~ (forall (complex : str -> option Z) (expr_string : str) (e : Expression Z),
       Expression_init complex expr_string = Ok e ->
       ~ In "j"%char (modes e)).
Proof.
  intros Hclaim.
  apply (Hclaim decimal_literal (lit "a_j")
           (mkExpression [(lit "a_j", 1%Z)] (lit "aj")) eq_refl).
  simpl. right; left; reflexivity.
Qed.

(** ** Strings that are keys of token sequences *)

Lemma startswith_app (p s : str) : startswith (p ++ s) p = true.
Proof.
  induction p as [|c p IH]; simpl; [reflexivity|].
  rewrite IH, (proj2 (Ascii.eqb_eq c c) eq_refl). reflexivity.
Qed.

Lemma startswith_head_neq (c x : ascii) (s p : str) :
  c <> x -> startswith (c :: s) (x :: p) = false.
Proof.
  intros N. simpl. destruct (Ascii.eqb c x) eqn:E; [|reflexivity].
  apply Ascii.eqb_eq in E. contradiction.
Qed.

Lemma endswith_last (s : str) (c x : ascii) :
  endswith (s ++ [c]) [x] = Ascii.eqb c x.
Proof.
  unfold endswith. rewrite rev_app_distr. simpl.
  apply andb_true_r.
Qed.

Lemma isalpha_neq_underscore (c : ascii) : isalpha c = true -> c <> "_"%char.
Proof. intros Ha ->. discriminate Ha. Qed.

Lemma isalpha_neq_plus (c : ascii) : isalpha c = true -> c <> "+"%char.
Proof. intros Ha ->. discriminate Ha. Qed.

Lemma term_key_cons (t : token) (ts : list token) :
  term_key (t :: ts) = token_str t ++ sep_key ts.
Proof.
  destruct ts as [|t' ts]; simpl; [rewrite app_nil_r|]; reflexivity.
Qed.

Lemma term_key_head (t : token) (ts : list token) :
  exists rest, term_key (t :: ts) = fst t :: rest.
Proof. rewrite term_key_cons. unfold token_str. simpl. eauto. Qed.

Lemma term_key_app (a b : list token) :
  a <> [] -> term_key (a ++ b) = term_key a ++ sep_key b.
Proof.
  induction a as [|t a IH]; intros Hne; [contradiction|].
  destruct a as [|t' a].
  - simpl app. rewrite term_key_cons. reflexivity.
  - change ((t :: t' :: a) ++ b) with (t :: (t' :: a) ++ b).
    rewrite !term_key_cons.
    change (sep_key ((t' :: a) ++ b)) with (lit "_" ++ term_key ((t' :: a) ++ b)).
    rewrite IH by discriminate.
    change (sep_key (t' :: a)) with (lit "_" ++ term_key (t' :: a)).
    rewrite <- !app_assoc. reflexivity.
Qed.

Lemma term_key_app_r (a b : list token) :
  b <> [] -> term_key (a ++ b) = key_sep a ++ term_key b.
Proof.
  intros Hb. destruct a as [|t a]; [reflexivity|].
  rewrite term_key_app by discriminate.
  destruct b as [|t' b]; [contradiction|].
  unfold key_sep, sep_key. rewrite <- app_assoc. reflexivity.
Qed.

Lemma length_sep_key (ts : list token) :
  length (sep_key ts) = length (key_sep ts).
Proof.
  destruct ts; simpl; [reflexivity|].
  rewrite length_app. simpl. lia.
Qed.

Lemma term_key_last (ts : list token) :
  wf_tokens ts -> ts <> [] ->
  exists body c, term_key ts = body ++ [c] /\ c <> "_"%char.
Proof.
  induction 1 as [|t ts Ht Hts IH]; intros Hne; [contradiction|].
  destruct ts as [|t' ts].
  - destruct t as [m [|]]; simpl.
    + exists [m], "+"%char. split; [reflexivity | discriminate].
    + exists [], m. split; [reflexivity|]. apply isalpha_neq_underscore, Ht.
  - destruct IH as (body & c & E & Hc); [discriminate|].
    rewrite term_key_cons.
    change (sep_key (t' :: ts)) with (lit "_" ++ term_key (t' :: ts)).
    rewrite E. exists (token_str t ++ lit "_" ++ body), c.
    split; [|exact Hc]. rewrite <- !app_assoc. reflexivity.
Qed.

Lemma term_key_not_endswith (ts : list token) :
  wf_tokens ts -> endswith (term_key ts) (lit "_") = false.
Proof.
  intros Hwf. destruct ts as [|t ts]; [reflexivity|].
  destruct (term_key_last (t :: ts) Hwf) as (body & c & E & Hc); [discriminate|].
  rewrite E. change (lit "_") with ["_"%char]. rewrite endswith_last.
  destruct (Ascii.eqb c "_") eqn:Ec; [|reflexivity].
  apply Ascii.eqb_eq in Ec. contradiction.
Qed.

Lemma term_key_not_startswith (ts : list token) :
  wf_tokens ts -> startswith (term_key ts) (lit "_") = false.
Proof.
  intros Hwf. destruct ts as [|t ts]; [reflexivity|].
  destruct (term_key_head t ts) as [rest E]. rewrite E.
  apply startswith_head_neq, isalpha_neq_underscore.
  inversion Hwf; assumption.
Qed.

Lemma replace_go_other (c : ascii) (s : str) :
  c <> "_"%char ->
  replace_go (lit "__") (lit "_") 0 (c :: s)
  = c :: replace_go (lit "__") (lit "_") 0 s.
Proof.
  intros N. cbn [replace_go].
  change (lit "__") with ["_"%char; "_"%char].
  rewrite startswith_head_neq by exact N. reflexivity.
Qed.

Lemma replace_go_single (c : ascii) (s : str) :
  c <> "_"%char ->
  replace_go (lit "__") (lit "_") 0 ("_"%char :: c :: s)
  = "_"%char :: replace_go (lit "__") (lit "_") 0 (c :: s).
Proof.
  intros N. cbn [replace_go].
  replace (startswith ("_"%char :: c :: s) (lit "__")) with false; [reflexivity|].
  simpl. destruct (Ascii.eqb c "_") eqn:Ec; [|reflexivity].
  apply Ascii.eqb_eq in Ec. contradiction.
Qed.

Lemma replace_term_key (ts : list token) :
  wf_tokens ts -> replace (term_key ts) (lit "__") (lit "_") = term_key ts.
Proof.
  unfold replace. induction 1 as [|t ts Ht Hts IH]; [reflexivity|].
  rewrite term_key_cons.
  assert (Hsep : replace_go (lit "__") (lit "_") 0 (sep_key ts) = sep_key ts).
  { destruct ts as [|t' ts]; [reflexivity|].
    change (sep_key (t' :: ts)) with ("_"%char :: term_key (t' :: ts)).
    destruct (term_key_head t' ts) as [rest E].
    assert (Hn : fst t' <> "_"%char)
      by (apply isalpha_neq_underscore; inversion Hts; assumption).
    rewrite E at 1. rewrite replace_go_single by exact Hn.
    rewrite <- E. f_equal. exact IH. }
  assert (Hm : fst t <> "_"%char) by (apply isalpha_neq_underscore, Ht).
  destruct t as [m [|]]; unfold token_str; cbn [fst snd] in Hm |- *.
  - change (lit "+") with ["+"%char]. cbn [app].
    rewrite replace_go_other by exact Hm.
    rewrite replace_go_other by discriminate.
    rewrite Hsep. reflexivity.
  - cbn [app]. rewrite replace_go_other by exact Hm.
    rewrite Hsep. reflexivity.
Qed.

(** [clean_string] on a key with at most one stray delimiter at each
    end. *)
Lemma clean_string_term_key (ts : list token) :
  wf_tokens ts -> clean_string (term_key ts) = term_key ts.
Proof.
  intros Hwf. unfold clean_string.
  rewrite term_key_not_endswith, term_key_not_startswith by assumption.
  apply replace_term_key, Hwf.
Qed.

Lemma clean_string_key_sep (ts : list token) :
  wf_tokens ts -> clean_string (term_key ts ++ lit "_") = term_key ts.
Proof.
  intros Hwf. unfold clean_string.
  change (lit "_") with ["_"%char].
  rewrite endswith_last. simpl Ascii.eqb. cbv iota.
  rewrite removelast_last.
  rewrite term_key_not_startswith by assumption.
  apply replace_term_key, Hwf.
Qed.

Lemma clean_string_sep_key (ts : list token) :
  wf_tokens ts -> clean_string (lit "_" ++ term_key ts) = term_key ts.
Proof.
  intros Hwf. destruct ts as [|t ts]; [reflexivity|].
  unfold clean_string.
  destruct (term_key_last (t :: ts) Hwf) as (body & c & E & Hc); [discriminate|].
  replace (endswith (lit "_" ++ term_key (t :: ts)) (lit "_")) with false.
  - rewrite startswith_app. change (tl (lit "_" ++ ?x)) with x.
    apply replace_term_key, Hwf.
  - rewrite E. change (lit "_") with ["_"%char].
    rewrite app_assoc, endswith_last.
    destruct (Ascii.eqb c "_") eqn:Ec; [|reflexivity].
    apply Ascii.eqb_eq in Ec. contradiction.
Qed.

Lemma clean_string_sep_key_sep (ts : list token) :
  wf_tokens ts ->
  clean_string (lit "_" ++ term_key ts ++ lit "_") = term_key ts.
Proof.
  intros Hwf. unfold clean_string.
  change (lit "_") with ["_"%char].
  rewrite app_assoc, endswith_last. simpl Ascii.eqb. cbv iota.
  rewrite removelast_last.
  change ["_"%char] with (lit "_").
  rewrite startswith_app. change (tl (lit "_" ++ ?x)) with x.
  apply replace_term_key, Hwf.
Qed.

Lemma wf_tokens_app (a b : list token) :
  wf_tokens (a ++ b) <-> wf_tokens a /\ wf_tokens b.
Proof. apply Forall_app. Qed.

(** Joining two keys with a delimiter and cleaning gives the key of the
    concatenated token sequences, also when one of them is empty. *)
Lemma clean_string_join (a b : list token) :
  wf_tokens a -> wf_tokens b ->
  clean_string (term_key a ++ lit "_" ++ term_key b) = term_key (a ++ b).
Proof.
  intros Ha Hb. destruct a as [|t a].
  - simpl app. apply clean_string_sep_key, Hb.
  - destruct b as [|t' b].
    + rewrite !app_nil_r. apply clean_string_key_sep, Ha.
    + assert (E : term_key (t :: a) ++ lit "_" ++ term_key (t' :: b)
                  = term_key ((t :: a) ++ t' :: b))
        by (rewrite term_key_app by discriminate; reflexivity).
      rewrite E.
      apply clean_string_term_key, wf_tokens_app. split; assumption.
Qed.

Lemma clean_string_join3 (a b c : list token) :
  wf_tokens a -> wf_tokens b -> wf_tokens c -> b <> [] ->
  clean_string (term_key a ++ lit "_" ++ term_key b ++ lit "_" ++ term_key c)
  = term_key (a ++ b ++ c).
Proof.
  intros Ha Hb Hc Hne.
  assert (Hbc : wf_tokens (b ++ c)) by (apply wf_tokens_app; split; assumption).
  destruct c as [|t' c].
  - rewrite !app_nil_r. destruct a as [|t a].
    + simpl app. apply clean_string_sep_key_sep, Hb.
    + assert (E : term_key (t :: a) ++ lit "_" ++ term_key b ++ lit "_"
                  = term_key ((t :: a) ++ b) ++ lit "_").
      { rewrite term_key_app by discriminate.
        destruct b; [contradiction|]. unfold sep_key.
        rewrite <- !app_assoc. reflexivity. }
      rewrite E.
      apply clean_string_key_sep, wf_tokens_app. split; assumption.
  - replace (term_key b ++ lit "_" ++ term_key (t' :: c))
      with (term_key (b ++ t' :: c)).
    + apply clean_string_join; assumption.
    + rewrite term_key_app by assumption. reflexivity.
Qed.

(** ** Single-mode terms and the commutation step *)

Lemma firstn_length_app {A : Type} (a b : list A) :
  firstn (length a) (a ++ b) = a.
Proof.
  induction a as [|x a IH]; simpl; [reflexivity | rewrite IH; reflexivity].
Qed.

Lemma skipn_length_app {A : Type} (a b : list A) (n : nat) :
  skipn (length a + n) (a ++ b) = skipn n b.
Proof.
  induction a as [|x a IH]; simpl; [reflexivity | exact IH].
Qed.

Lemma find_from_cons (c : ascii) (s sub : str) (i : nat) :
  find_from (c :: s) sub i
  = if startswith (c :: s) sub then Some i else find_from s sub (S i).
Proof. reflexivity. Qed.

Lemma find_from_skip (c x : ascii) (s sub : str) (i : nat) :
  c <> x -> find_from (c :: s) (x :: sub) i = find_from s (x :: sub) (S i).
Proof.
  intros N. rewrite find_from_cons, startswith_head_neq by exact N. reflexivity.
Qed.

Lemma split_D_true (r : list bool) :
  split_D (true :: r)
  = match split_D r with
    | Some (l, r') => Some (true :: l, r')
    | None => None
    end.
Proof. reflexivity. Qed.

Lemma split_D_false_false (r : list bool) :
  split_D (false :: false :: r)
  = match split_D (false :: r) with
    | Some (l, r') => Some (false :: l, r')
    | None => None
    end.
Proof. reflexivity. Qed.

Lemma split_D_app (bs l r : list bool) :
  split_D bs = Some (l, r) -> bs = l ++ false :: true :: r.
Proof.
  revert l r; induction bs as [|b bs IH]; intros l r; simpl; [discriminate|].
  destruct b.
  - destruct (split_D bs) as [[l' r']|]; [|discriminate].
    intros E; inversion E; subst. simpl. f_equal. apply IH. reflexivity.
  - destruct bs as [|[|] bs'].
    + simpl. discriminate.
    + intros E; inversion E; subst. reflexivity.
    + destruct (split_D (false :: bs')) as [[l' r']|]; [|discriminate].
      intros E; inversion E; subst. simpl. f_equal. apply IH. reflexivity.
Qed.

Lemma split_D_none (bs : list bool) :
  split_D bs = None -> normal_ordered bs.
Proof.
  induction bs as [|b bs IH]; simpl.
  - intros _. exists 0, 0. reflexivity.
  - destruct b.
    + destruct (split_D bs) as [[l' r']|]; [discriminate|].
      intros _. destruct (IH eq_refl) as (p & q & ->).
      exists (S p), q. reflexivity.
    + destruct bs as [|[|] bs'].
      * intros _. exists 0, 1. reflexivity.
      * discriminate.
      * destruct (split_D (false :: bs')) as [[l' r']|]; [discriminate|].
        intros _. destruct (IH eq_refl) as (p & q & E).
        destruct p as [|p]; [|discriminate E].
        exists 0, (S q). simpl in *. rewrite E. reflexivity.
Qed.

Lemma normal_ordered_split_D (bs : list bool) :
  normal_ordered bs -> split_D bs = None.
Proof.
  intros (p & q & ->). induction p as [|p IH]; simpl.
  - induction q as [|q IHq]; [reflexivity|].
    simpl. destruct q as [|q]; [reflexivity|].
    simpl in *. rewrite IHq. reflexivity.
  - rewrite IH. reflexivity.
Qed.

Lemma creations_app (a b : list bool) :
  creations (a ++ b) = creations a + creations b.
Proof. apply count_occ_app. Qed.

Lemma inversions_app (a b : list bool) :
  inversions (a ++ b)
  = inversions a + inversions b + annihilations a * creations b.
Proof.
  induction a as [|x a IH]; simpl; [lia|].
  rewrite IH, creations_app. unfold annihilations.
  destruct x; simpl; lia.
Qed.

Lemma creations_true (r : list bool) : creations (true :: r) = S (creations r).
Proof. reflexivity. Qed.

Lemma creations_false (r : list bool) : creations (false :: r) = creations r.
Proof. reflexivity. Qed.

Lemma inversions_step_n (l r : list bool) :
  inversions (l ++ true :: false :: r) < inversions (l ++ false :: true :: r).
Proof.
  rewrite !inversions_app. cbn [inversions].
  rewrite !creations_true, !creations_false, !creations_true. nia.
Qed.

Lemma inversions_step_1 (l r : list bool) :
  inversions (l ++ r) < inversions (l ++ false :: true :: r).
Proof.
  rewrite !inversions_app. cbn [inversions].
  rewrite !creations_false, !creations_true. nia.
Qed.

Section SingleMode.

Variable m : ascii.
Hypothesis Hm : isalpha m = true.

Lemma wf_single_mode (bs : list bool) : wf_tokens (single_mode m bs).
Proof.
  unfold wf_tokens, single_mode. apply Forall_map, Forall_forall.
  intros b _. exact Hm.
Qed.

Lemma n_op_key : n_op m = term_key (single_mode m [true; false]).
Proof. reflexivity. Qed.

Lemma startswith_n_dag_self (s : str) : startswith (n_dag m ++ s) (n_dag m) = true.
Proof. apply startswith_app. Qed.

Lemma term_key_single_cons (b : bool) (bs : list bool) :
  term_key (single_mode m (b :: bs))
  = m :: (if b then lit "+" else []) ++ sep_key (single_mode m bs).
Proof. change (single_mode m (b :: bs)) with ((m, b) :: single_mode m bs).
  rewrite term_key_cons. reflexivity.
Qed.

Lemma sep_key_single_cons (b : bool) (bs : list bool) :
  sep_key (single_mode m (b :: bs))
  = "_"%char :: term_key (single_mode m (b :: bs)).
Proof. reflexivity. Qed.

Lemma find_from_single_mode (bs : list bool) (i : nat) :
  find_from (term_key (single_mode m bs)) (n_dag m) i
  = match split_D bs with
    | Some (l, _) => Some (i + length (key_sep (single_mode m l)))
    | None => None
    end.
Proof.
  assert (Hu : "_"%char <> m)
    by (intros E; apply (isalpha_neq_underscore m Hm); auto).
  assert (Hp : "+"%char <> m)
    by (intros E; apply (isalpha_neq_plus m Hm); auto).
  revert i; induction bs as [|b r IH]; intros i; [reflexivity|].
  destruct b.
  - (* a creation token is never the start of the pattern *)
    rewrite term_key_single_cons.
    change (m :: lit "+" ++ sep_key (single_mode m r))
      with (m :: "+"%char :: sep_key (single_mode m r)).
    rewrite find_from_cons.
    replace (startswith (m :: "+"%char :: sep_key (single_mode m r)) (n_dag m))
      with false
      by (unfold n_dag; simpl; destruct (Ascii.eqb m m); reflexivity).
    unfold n_dag at 1. rewrite find_from_skip by exact Hp.
    destruct r as [|b' r'].
    + reflexivity.
    + rewrite sep_key_single_cons, find_from_skip by exact Hu.
      fold (n_dag m). rewrite IH, split_D_true.
      destruct (split_D (b' :: r')) as [[l r'']|]; [|reflexivity].
      f_equal. unfold key_sep at 2.
      change (single_mode m (true :: l)) with ((m, true) :: single_mode m l).
      rewrite term_key_cons, !length_app, length_sep_key. simpl. lia.
  - destruct r as [|[|] r'].
    + (* a single annihilation token *)
      cbn. destruct (Ascii.eqb m m); reflexivity.
    + (* the pattern is here *)
      rewrite term_key_single_cons, sep_key_single_cons, term_key_single_cons.
      change (m :: [] ++ "_"%char :: m :: lit "+" ++ sep_key (single_mode m r'))
        with (n_dag m ++ sep_key (single_mode m r')).
      destruct (n_dag m ++ sep_key (single_mode m r')) eqn:E; [discriminate E|].
      rewrite find_from_cons, <- E, startswith_n_dag_self.
      cbn [split_D key_sep single_mode map length]. f_equal. lia.
    + (* two annihilation tokens: the pattern does not start here *)
      rewrite term_key_single_cons, sep_key_single_cons.
      cbn [app]. rewrite find_from_cons.
      replace (startswith (m :: "_"%char :: term_key (single_mode m (false :: r')))
                 (n_dag m)) with false.
      * unfold n_dag at 1. rewrite find_from_skip by exact Hu.
        fold (n_dag m). rewrite IH, split_D_false_false.
        destruct (split_D (false :: r')) as [[l r'']|]; [|reflexivity].
        f_equal. unfold key_sep at 2.
        change (single_mode m (false :: l)) with ((m, false) :: single_mode m l).
        rewrite term_key_cons, !length_app, length_sep_key. simpl. lia.
      * rewrite term_key_single_cons. cbn [app]. unfold n_dag. simpl.
        destruct (Ascii.eqb m m); [|reflexivity]. simpl.
        destruct r'; reflexivity.
Qed.

Lemma term_key_split_D (bs l r : list bool) :
  split_D bs = Some (l, r) ->
  term_key (single_mode m bs)
  = key_sep (single_mode m l) ++ n_dag m ++ sep_key (single_mode m r).
Proof.
  intros E. apply split_D_app in E. subst bs.
  unfold single_mode at 1. rewrite map_app. fold (single_mode m l).
  rewrite term_key_app_r by discriminate. f_equal.
  change (map (fun b => (m, b)) (false :: true :: r))
    with (single_mode m (false :: true :: r)).
  rewrite term_key_single_cons, sep_key_single_cons, term_key_single_cons.
  reflexivity.
Qed.

Lemma clean_string_key_sep' (ts : list token) :
  wf_tokens ts -> clean_string (key_sep ts) = term_key ts.
Proof.
  intros Hwf. destruct ts as [|t ts]; [reflexivity|].
  apply clean_string_key_sep, Hwf.
Qed.

Lemma clean_string_sep_key' (ts : list token) :
  wf_tokens ts -> clean_string (sep_key ts) = term_key ts.
Proof.
  intros Hwf. destruct ts as [|t ts]; [reflexivity|].
  apply clean_string_sep_key, Hwf.
Qed.

(** The strings computed by the [else] branch of [normal_ordering], read
    as token sequences. *)
Lemma commutation_step (bs l r : list bool) :
  split_D bs = Some (l, r) ->
  exists idx,
    find (term_key (single_mode m bs)) (n_dag m) = Some idx
    /\ term_with_n m (term_key (single_mode m bs)) idx
       = term_key (single_mode m (l ++ true :: false :: r))
    /\ term_with_1 m (term_key (single_mode m bs)) idx
       = term_key (single_mode m (l ++ r)).
Proof.
  intros E. exists (length (key_sep (single_mode m l))).
  assert (Hl : clean_string
                 (firstn (length (key_sep (single_mode m l)))
                    (term_key (single_mode m bs)))
               = term_key (single_mode m l)).
  { rewrite (term_key_split_D _ _ _ E), firstn_length_app.
    apply clean_string_key_sep', wf_single_mode. }
  assert (Hr : clean_string
                 (skipn (length (key_sep (single_mode m l)) + length (n_dag m))
                    (term_key (single_mode m bs)))
               = term_key (single_mode m r)).
  { rewrite (term_key_split_D _ _ _ E), skipn_length_app.
    replace (length (n_dag m)) with (length (n_dag m) + 0) by lia.
    rewrite skipn_length_app. simpl skipn.
    apply clean_string_sep_key', wf_single_mode. }
  split; [|split].
  - unfold find. rewrite find_from_single_mode, E. reflexivity.
  - unfold term_with_n. rewrite Hl, Hr, n_op_key.
    rewrite clean_string_join3; try apply wf_single_mode; [|discriminate].
    unfold single_mode. rewrite !map_app. reflexivity.
  - unfold term_with_1. rewrite Hl, Hr.
    rewrite clean_string_join; try apply wf_single_mode.
    unfold single_mode. rewrite map_app. reflexivity.
Qed.

Lemma find_normal_ordered (bs : list bool) :
  split_D bs = None -> find (term_key (single_mode m bs)) (n_dag m) = None.
Proof.
  intros E. unfold find. rewrite find_from_single_mode, E. reflexivity.
Qed.

End SingleMode.

(** ** The normal-ordering reducer *)

Lemma creations_le_length (bs : list bool) : creations bs <= length bs.
Proof. apply count_occ_bound. Qed.

Lemma inversions_le_square (bs : list bool) :
  inversions bs <= length bs * length bs.
Proof.
  induction bs as [|b r IH]; simpl; [lia|].
  pose proof (creations_le_length r). destruct b; nia.
Qed.

Section Reducer.

Context {C : Type} `{Number C}.

Lemma keys_add_expr_dicts (d2 d1 : dict C) (k : str) :
  In k (keys (add_expr_dicts d1 d2)) <-> In k (keys d1) \/ In k (keys d2).
Proof.
  unfold add_expr_dicts. revert d1.
  induction d2 as [|[k2 v2] d2 IH]; intros d1; simpl.
  - tauto.
  - rewrite IH. destruct (dict_get d1 k2); rewrite keys_dict_set; intuition.
Qed.

(** More depth never changes a result. *)
Lemma normal_ordering_deeper (depth : nat) (mode : ascii) (s : str) (c : C)
    (d : dict C) :
  normal_ordering depth mode s c = Ok d ->
  normal_ordering (S depth) mode s c = Ok d.
Proof.
  revert s d; induction depth as [|depth IH]; intros s d; [discriminate|].
  cbn [normal_ordering].
  destruct (find s (n_dag mode)) as [idx|]; [|auto].
  destruct (normal_ordering depth mode (term_with_n mode s idx) c) as [d1|] eqn:E1;
    [|discriminate].
  destruct (normal_ordering depth mode (term_with_1 mode s idx) c) as [d2|] eqn:E2;
    [|discriminate].
  apply IH in E1. apply IH in E2. cbn [normal_ordering] in E1, E2.
  rewrite E1, E2. auto.
Qed.

Lemma normal_ordering_deeper_le (depth depth' : nat) (mode : ascii) (s : str)
    (c : C) (d : dict C) :
  depth <= depth' ->
  normal_ordering depth mode s c = Ok d ->
  normal_ordering depth' mode s c = Ok d.
Proof.
  induction 1 as [|depth' Hle IH]; [auto|].
  intros E. apply normal_ordering_deeper, IH, E.
Qed.

Lemma normal_ordering_single_mode (mode : ascii) (c : C) :
  isalpha mode = true ->
  forall (n : nat) (bs : list bool),
    inversions bs < n ->
    exists d,
      (forall depth, n <= depth ->
         normal_ordering depth mode (term_key (single_mode mode bs)) c = Ok d)
      /\ d <> []
      /\ forall k, In k (keys d) ->
           exists bs', k = term_key (single_mode mode bs')
                       /\ normal_ordered bs' /\ length bs' <= length bs.
Proof.
  intros Hm. induction n as [|n IH]; intros bs Hlt; [lia|].
  destruct (split_D bs) as [[l r]|] eqn:E.
  - destruct (commutation_step mode Hm bs l r E) as (idx & Hf & Hn & H1).
    pose proof (split_D_app _ _ _ E) as Hbs.
    pose proof (inversions_step_n l r) as Hin.
    pose proof (inversions_step_1 l r) as Hi1.
    rewrite <- Hbs in Hin, Hi1.
    destruct (IH (l ++ true :: false :: r)) as (d1 & Hd1 & Hne1 & Hk1); [lia|].
    destruct (IH (l ++ r)) as (d2 & Hd2 & Hne2 & Hk2); [lia|].
    exists (add_expr_dicts d1 d2). split; [|split].
    + intros [|depth] Hle; [lia|]. cbn [normal_ordering].
      rewrite Hf, Hn, H1, Hd1, Hd2 by lia. reflexivity.
    + destruct d1 as [|[k1 v1] d1]; [congruence|].
      intros E0.
      assert (Hin1 : In k1 (keys (add_expr_dicts ((k1, v1) :: d1) d2)))
        by (apply keys_add_expr_dicts; left; left; reflexivity).
      rewrite E0 in Hin1. destruct Hin1.
    + intros k Hk. apply keys_add_expr_dicts in Hk.
      assert (Hlen1 : length (l ++ true :: false :: r) = length bs)
        by (rewrite Hbs, !length_app; reflexivity).
      assert (Hlen2 : length (l ++ r) <= length bs)
        by (rewrite Hbs, !length_app; simpl; lia).
      destruct Hk as [Hk | Hk].
      * destruct (Hk1 k Hk) as (bs' & -> & Hno & Hlen).
        exists bs'. repeat split; auto; lia.
      * destruct (Hk2 k Hk) as (bs' & -> & Hno & Hlen).
        exists bs'. repeat split; auto; lia.
  - exists [(term_key (single_mode mode bs), c)]. split; [|split].
    + intros [|depth] Hle; [lia|]. cbn [normal_ordering].
      rewrite (find_normal_ordered mode Hm bs E). reflexivity.
    + discriminate.
    + intros k [<- | []]. exists bs.
      split; [reflexivity | split; [apply split_D_none, E | lia]].
Qed.

End Reducer.

(** C3.  On a single-mode token sequence [normal_ordering] returns (for
    every depth above the number of inversions), and whenever it returns,
    every key of the result is free of the pattern annihilation-creation of
    the mode: it is the key of a sequence with all creation tokens before
    all annihilation tokens. *)
Theorem normal_ordering_keys_normal_ordered {C : Type} `{Number C}
    (mode : ascii) (bs : list bool) (coeff : C) :
  isalpha mode = true ->
  (exists d, forall depth, inversions bs < depth ->
     normal_ordering depth mode (term_key (single_mode mode bs)) coeff = Ok d)
  /\ forall depth d key,
       normal_ordering depth mode (term_key (single_mode mode bs)) coeff = Ok d ->
       In key (keys d) ->
       find key (n_dag mode) = None
       /\ exists bs', key = term_key (single_mode mode bs') /\ normal_ordered bs'.
Proof.
  intros Hm.
  destruct (normal_ordering_single_mode mode coeff Hm (S (inversions bs)) bs)
    as (d0 & Hd0 & _ & Hk0); [lia|].
  split; [exists d0; intros depth Hlt; apply Hd0; lia|].
  intros depth d key Hd Hkey.
  assert (d = d0).
  { pose proof (normal_ordering_deeper_le depth (depth + S (inversions bs))
                  mode _ coeff d ltac:(lia) Hd) as E1.
    rewrite Hd0 in E1 by lia. congruence. }
  subst d. destruct (Hk0 key Hkey) as (bs' & -> & Hno & _).
  split; [|exists bs'; auto].
  apply find_normal_ordered; [exact Hm|].
  apply normal_ordered_split_D, Hno.
Qed.

Lemma normal_ordering_keys_normal_ordered_witness :
  isalpha "a" = true
  /\ normal_ordering 4 "a"%char (lit "a_a_a+") 1%Z
     = Ok [(lit "a+_a_a", 1%Z); (lit "a", 2%Z)]
  /\ find (lit "a+_a_a") (n_dag "a") = None
  /\ exists bs', lit "a+_a_a" = term_key (single_mode "a" bs')
                 /\ normal_ordered bs'.
Proof.
  assert (Hm : isalpha "a" = true) by reflexivity.
  assert (E : normal_ordering 4 "a"%char
                (term_key (single_mode "a" [false; false; true])) 1%Z
              = Ok [(lit "a+_a_a", 1%Z); (lit "a", 2%Z)]) by reflexivity.
  destruct (proj2 (normal_ordering_keys_normal_ordered "a" [false; false; true]
                     1%Z Hm) 4 _ (lit "a+_a_a") E (or_introl eq_refl))
    as [Hf Hex].
  split; [exact Hm | split; [exact E | split; [exact Hf | exact Hex]]].
Defined.

(** C4 (as amended).  [normal_ordering] terminates on every single-mode
    token sequence: it returns as soon as the depth exceeds the number of
    inversions of the sequence, which is at most the square of the number of
    tokens.  At the leftmost out-of-order pair, the "1" branch recurses on
    the sequence without the pair (two tokens shorter) and the "n" branch on
    the sequence with the pair swapped (same length); both have strictly
    fewer inversions.  (The "n" branch may create a new out-of-order pair
    one token further left.) *)
Theorem normal_ordering_terminates {C : Type} `{Number C}
    (mode : ascii) (bs : list bool) (coeff : C) :
  isalpha mode = true ->
  (exists d, forall depth, inversions bs < depth ->
     normal_ordering depth mode (term_key (single_mode mode bs)) coeff = Ok d)
  /\ inversions bs <= length bs * length bs
  /\ (split_D bs = None ->
      find (term_key (single_mode mode bs)) (n_dag mode) = None)
  /\ (forall l r, split_D bs = Some (l, r) ->
      bs = l ++ false :: true :: r
      /\ exists idx,
           find (term_key (single_mode mode bs)) (n_dag mode) = Some idx
           /\ term_with_1 mode (term_key (single_mode mode bs)) idx
              = term_key (single_mode mode (l ++ r))
           /\ length (l ++ r) + 2 = length bs
           /\ inversions (l ++ r) < inversions bs
           /\ term_with_n mode (term_key (single_mode mode bs)) idx
              = term_key (single_mode mode (l ++ true :: false :: r))
           /\ length (l ++ true :: false :: r) = length bs
           /\ inversions (l ++ true :: false :: r) < inversions bs).
Proof.
  intros Hm. split; [|split; [|split]].
  - destruct (normal_ordering_single_mode mode coeff Hm (S (inversions bs)) bs)
      as (d0 & Hd0 & _); [lia|].
    exists d0. intros depth Hlt. apply Hd0. lia.
  - apply inversions_le_square.
  - apply find_normal_ordered, Hm.
  - intros l r E. pose proof (split_D_app _ _ _ E) as Hbs.
    split; [exact Hbs|].
    destruct (commutation_step mode Hm bs l r E) as (idx & Hf & Hn & H1).
    exists idx. rewrite Hf, Hn, H1. subst bs.
    repeat split.
    + rewrite !length_app. simpl. lia.
    + apply inversions_step_1.
    + rewrite !length_app. reflexivity.
    + apply inversions_step_n.
Qed.

Lemma normal_ordering_terminates_witness :
  isalpha "a" = true
  /\ exists d, forall depth, inversions [false; false; true] < depth ->
       normal_ordering depth "a"%char (lit "a_a_a+") 1%Z = Ok d.
Proof.
  assert (Hm : isalpha "a" = true) by reflexivity.
  split; [exact Hm|].
  exact (proj1 (normal_ordering_terminates "a" [false; false; true] 1%Z Hm)).
Defined.

(** C4 (as stated) fails in its account of the "n" branch: on ["a_a_a+"] the
    leftmost out-of-order pair is at index 2, and the rewritten term
    ["a_a+_a"] has an out-of-order pair at index 0, further left. *)
Lemma n_branch_creates_pair_further_left :
  ~ (forall (bs : list bool) (idx idx' : nat),
       find (term_key (single_mode "a" bs)) (n_dag "a") = Some idx ->
       find (term_with_n "a" (term_key (single_mode "a" bs)) idx) (n_dag "a")
       = Some idx' ->
       idx <= idx').
Proof.
  intros Hclaim.
  specialize (Hclaim [false; false; true] 2 0 eq_refl eq_refl). lia.
Qed.

(** ** Organising and splitting multi-mode terms *)

Lemma In_term_key (c : ascii) (ts : list token) :
  In c (term_key ts) ->
  c = "_"%char \/ c = "+"%char \/ In c (map fst ts).
Proof.
  induction ts as [|t ts IH]; [intros []|].
  rewrite term_key_cons, in_app_iff. intros [Hc | Hc].
  - unfold token_str in Hc. destruct Hc as [<- | Hc]; [simpl; auto|].
    destruct (snd t); [|destruct Hc].
    destruct Hc as [<- | []]. auto.
  - destruct ts as [|t' ts']; [destruct Hc|].
    change (sep_key (t' :: ts')) with ("_"%char :: term_key (t' :: ts')) in Hc.
    destruct Hc as [<- | Hc]; [auto|].
    destruct (IH Hc) as [-> | [-> | Hin]]; auto.
    right; right; right; exact Hin.
Qed.

Lemma letter_In_term_key (c : ascii) (ts : list token) :
  In c (map fst ts) -> In c (term_key ts).
Proof.
  induction ts as [|t ts IH]; [intros []|].
  rewrite term_key_cons, in_app_iff. intros [<- | Hin].
  - left. left. reflexivity.
  - right. destruct ts as [|t' ts']; [destruct Hin|].
    right. apply IH, Hin.
Qed.

Lemma wf_tokens_letters (ts : list token) (c : ascii) :
  wf_tokens ts -> In c (map fst ts) -> isalpha c = true.
Proof.
  intros Hwf Hin. apply in_map_iff in Hin. destruct Hin as (t & <- & Ht).
  unfold wf_tokens in Hwf. rewrite Forall_forall in Hwf. auto.
Qed.

Lemma letters_of_term_key (ts : list token) (c : ascii) :
  wf_tokens ts ->
  (isalpha c = true /\ In c (term_key ts)) <-> In c (map fst ts).
Proof.
  intros Hwf. split.
  - intros [Ha Hin]. destruct (In_term_key _ _ Hin) as [-> | [-> | H]];
      [discriminate Ha | discriminate Ha | exact H].
  - intros Hin. split; [eapply wf_tokens_letters; eauto|].
    apply letter_In_term_key, Hin.
Qed.

Lemma letters_of_joined_keys (a b : list token) (c : ascii) :
  wf_tokens a -> wf_tokens b ->
  (isalpha c = true /\ In c (term_key a ++ lit "_" ++ term_key b))
  <-> In c (map fst (a ++ b)).
Proof.
  intros Ha Hb. rewrite map_app, !in_app_iff.
  rewrite <- (letters_of_term_key a c Ha), <- (letters_of_term_key b c Hb).
  split.
  - intros [Hc [Hin | [Hin | Hin]]]; auto.
    destruct Hin as [<- | []]. discriminate Hc.
  - intros [[Hc Hin] | [Hc Hin]]; auto.
Qed.

(** The modes of a string all of whose letters are the letters of [ts]. *)
Lemma find_modes_letters {C : Type} (s : str) (v : C) (ts : list token) :
  (forall c, (isalpha c = true /\ In c s) <-> In c (map fst ts)) ->
  StronglySorted char_lt (find_modes [(s, v)])
  /\ forall c, In c (find_modes [(s, v)]) <-> In c (map fst ts).
Proof.
  intros Hs. destruct (find_modes_spec [(s, v)]) as [Hsorted Hin].
  split; [exact Hsorted|]. intros c. rewrite Hin, <- Hs. simpl. split.
  - intros [Ha (k & [<- | []] & Hc)]. auto.
  - intros [Ha Hc]. split; [exact Ha|]. exists s. auto.
Qed.

(** [split] on the delimiter ["_"]. *)
Lemma split_go_delimiter (cur s : str) :
  split_go (lit "_") 0 cur ("_"%char :: s)
  = rev cur :: split_go (lit "_") 0 [] s.
Proof. reflexivity. Qed.

Lemma split_go_other (c : ascii) (cur s : str) :
  c <> "_"%char ->
  split_go (lit "_") 0 cur (c :: s) = split_go (lit "_") 0 (c :: cur) s.
Proof.
  intros N. cbn [split_go]. change (lit "_") with ["_"%char].
  rewrite startswith_head_neq by exact N. reflexivity.
Qed.

Lemma split_go_token (t : token) (s : str) :
  isalpha (fst t) = true ->
  split_go (lit "_") 0 [] (token_str t ++ s)
  = split_go (lit "_") 0 (rev (token_str t)) s.
Proof.
  intros Ha. destruct t as [m [|]]; unfold token_str; cbn [fst snd] in *.
  - change ((m :: lit "+") ++ s) with (m :: "+"%char :: s).
    rewrite split_go_other by (apply isalpha_neq_underscore, Ha).
    rewrite split_go_other by discriminate. reflexivity.
  - cbn [app]. rewrite split_go_other by (apply isalpha_neq_underscore, Ha).
    reflexivity.
Qed.

Lemma split_term_key_then (ts : list token) (rest : str) :
  wf_tokens ts -> ts <> [] ->
  split_go (lit "_") 0 [] (term_key ts ++ "_"%char :: rest)
  = map token_str ts ++ split_go (lit "_") 0 [] rest.
Proof.
  induction 1 as [|t ts Ht Hts IH]; intros Hne; [contradiction|].
  rewrite term_key_cons, <- app_assoc, split_go_token by exact Ht.
  destruct ts as [|t' ts'].
  - cbn [sep_key app]. rewrite split_go_delimiter, rev_involutive. reflexivity.
  - change (sep_key (t' :: ts')) with ("_"%char :: term_key (t' :: ts')).
    cbn [app]. rewrite split_go_delimiter, rev_involutive.
    rewrite IH by discriminate. reflexivity.
Qed.

Lemma split_term_key (ts : list token) :
  wf_tokens ts -> ts <> [] ->
  split (term_key ts) (lit "_") = map token_str ts.
Proof.
  unfold split. induction 1 as [|t ts Ht Hts IH]; intros Hne; [contradiction|].
  rewrite term_key_cons, split_go_token by exact Ht.
  destruct ts as [|t' ts'].
  - cbn [sep_key split_go map]. rewrite rev_involutive. reflexivity.
  - change (sep_key (t' :: ts')) with ("_"%char :: term_key (t' :: ts')).
    rewrite split_go_delimiter, rev_involutive.
    rewrite IH by discriminate. reflexivity.
Qed.

Lemma split_joined_keys (a b : list token) :
  wf_tokens a -> wf_tokens b ->
  split (term_key a ++ lit "_" ++ term_key b) (lit "_")
  = operators_of a ++ operators_of b.
Proof.
  intros Ha Hb.
  assert (Hsb : split_go (lit "_") 0 [] (term_key b) = operators_of b).
  { destruct b as [|t b]; [reflexivity|].
    apply (split_term_key (t :: b) Hb). discriminate. }
  unfold split. destruct a as [|t a].
  - change (term_key [] ++ lit "_" ++ term_key b) with ("_"%char :: term_key b).
    rewrite split_go_delimiter, Hsb. reflexivity.
  - change (lit "_" ++ term_key b) with ("_"%char :: term_key b).
    rewrite split_term_key_then by (auto; discriminate).
    rewrite Hsb. reflexivity.
Qed.

Lemma char_in_token_str (m : ascii) (t : token) :
  isalpha m = true -> char_in m (token_str t) = Ascii.eqb (fst t) m.
Proof.
  intros Ha. unfold token_str. cbn [char_in].
  destruct (snd t); cbn [char_in lit String.list_ascii_of_string].
  - replace (Ascii.eqb "+" m) with false; [rewrite !orb_false_r; reflexivity|].
    symmetry. destruct (Ascii.eqb "+" m) eqn:E; [|reflexivity].
    apply Ascii.eqb_eq in E. subst m. discriminate Ha.
  - apply orb_false_r.
Qed.

Lemma concat_tokens_key_sep (ts : list token) :
  concat (map (fun t => token_str t ++ lit "_") ts) = key_sep ts.
Proof.
  induction ts as [|t ts IH]; [reflexivity|].
  cbn [map concat]. rewrite IH. unfold key_sep at 2.
  rewrite term_key_cons, <- !app_assoc. f_equal.
  destruct ts as [|t' ts']; [reflexivity|].
  unfold sep_key, key_sep. rewrite <- app_assoc. reflexivity.
Qed.

Lemma removelast_key_sep (ts : list token) :
  removelast (key_sep ts) = term_key ts.
Proof.
  destruct ts as [|t ts]; [reflexivity|].
  unfold key_sep. change (lit "_") with ["_"%char]. apply removelast_last.
Qed.

Lemma hspace_inner_fold (m : ascii) (ts : list token) (acc : str) :
  isalpha m = true ->
  fold_left
    (fun organized_term operator =>
       if char_in m operator then organized_term ++ operator ++ lit "_"
       else organized_term)
    (operators_of ts) acc
  = acc ++ concat (map (fun t => token_str t ++ lit "_") (mode_group m ts)).
Proof.
  intros Ha. destruct ts as [|t0 ts0]; [simpl; rewrite app_nil_r; reflexivity|].
  unfold operators_of. generalize (t0 :: ts0) as ts. clear t0 ts0.
  intros ts. revert acc. induction ts as [|t ts IH]; intros acc.
  - simpl. rewrite app_nil_r. reflexivity.
  - cbn [map fold_left mode_group filter].
    rewrite char_in_token_str by exact Ha.
    destruct (Ascii.eqb (fst t) m).
    + rewrite IH. cbn [map concat]. rewrite <- !app_assoc. reflexivity.
    + apply IH.
Qed.

Lemma mode_group_app (m : ascii) (a b : list token) :
  mode_group m (a ++ b) = mode_group m a ++ mode_group m b.
Proof. apply filter_app. Qed.

Section Organizer.

Context {C : Type} `{Number C}.

Lemma hspace_organize_joined (a b : list token) :
  wf_tokens a -> wf_tokens b ->
  hspace_organize (term_key a ++ lit "_" ++ term_key b)
  = term_key
      (organize (find_modes [(term_key a ++ lit "_" ++ term_key b, num_one)])
         (a ++ b)).
Proof.
  intros Ha Hb. unfold hspace_organize.
  rewrite split_joined_keys by assumption.
  set (ms := find_modes _).
  assert (Hms : forall m, In m ms -> isalpha m = true).
  { intros m Hm. subst ms.
    destruct (find_modes_letters _ num_one (a ++ b)
                (fun c => letters_of_joined_keys a b c Ha Hb)) as [_ Hin].
    apply Hin in Hm. eapply wf_tokens_letters; [|exact Hm].
    apply wf_tokens_app. split; assumption. }
  assert (G : forall acc,
    fold_left
      (fun organized_term mode =>
         fold_left
           (fun organized_term operator =>
              if char_in mode operator
              then organized_term ++ operator ++ lit "_"
              else organized_term)
           (operators_of a ++ operators_of b) organized_term)
      ms acc
    = acc ++ key_sep (organize ms (a ++ b))).
  { clear -Hms. induction ms as [|m ms IH]; intros acc.
    - simpl. rewrite app_nil_r. reflexivity.
    - cbn [fold_left]. rewrite IH by (intros; apply Hms; right; assumption).
      rewrite fold_left_app, !hspace_inner_fold
        by (apply Hms; left; reflexivity).
      rewrite <- !concat_tokens_key_sep. unfold organize. cbn [flat_map].
      rewrite mode_group_app, !map_app, !concat_app, <- !app_assoc.
      reflexivity. }
  rewrite G. apply removelast_key_sep.
Qed.

End Organizer.

(** ** The mode splitter *)

Lemma last_cons {A : Type} (x : A) (l : list A) (d : A) :
  last (x :: l) d = last l x.
Proof.
  revert x d; induction l as [|y l IH]; intros x d; [reflexivity|].
  change (last (x :: y :: l) d) with (last (y :: l) d).
  rewrite IH. symmetry. apply IH.
Qed.

Lemma find_from_char (m : ascii) (a b : str) (i : nat) :
  ~ In m a -> find_from (a ++ m :: b) [m] i = Some (i + length a).
Proof.
  revert i; induction a as [|x a IH]; intros i Hn.
  - cbn [app length]. rewrite find_from_cons.
    change (m :: b) with ([m] ++ b). rewrite startswith_app. f_equal. lia.
  - cbn [app]. rewrite find_from_skip by (intros E; apply Hn; left; exact E).
    rewrite IH by (intros E; apply Hn; right; exact E).
    f_equal. simpl. lia.
Qed.

Lemma In_key_sep (c : ascii) (ts : list token) :
  In c (key_sep ts) -> c = "_"%char \/ c = "+"%char \/ In c (map fst ts).
Proof.
  destruct ts as [|t ts]; [intros []|].
  unfold key_sep. rewrite in_app_iff. intros [Hc | [<- | []]]; [|auto].
  apply In_term_key, Hc.
Qed.

Lemma is_group_wf (m : ascii) (g : list token) :
  isalpha m = true -> is_group m g -> wf_tokens g.
Proof.
  intros Ha [_ Hg]. unfold wf_tokens. eapply Forall_impl; [|exact Hg].
  intros t <-. exact Ha.
Qed.

Lemma is_group_letters (m c : ascii) (g : list token) :
  is_group m g -> In c (map fst g) -> c = m.
Proof.
  intros [_ Hg] Hin. apply in_map_iff in Hin. destruct Hin as (t & <- & Ht).
  rewrite Forall_forall in Hg. auto.
Qed.

Lemma is_group_head (m : ascii) (g rest : list token) :
  is_group m g -> exists s, term_key (g ++ rest) = m :: s.
Proof.
  intros [Hne Hg]. destruct g as [|t g]; [contradiction|].
  inversion Hg; subst. apply (term_key_head t (g ++ rest)).
Qed.

Lemma groups_wf (ms : list ascii) (gs : list (list token)) :
  Forall2 is_group ms gs -> (forall m, In m ms -> isalpha m = true) ->
  wf_tokens (concat gs).
Proof.
  induction 1 as [|m g ms gs Hg Hgs IH]; intros Ha; [constructor|].
  cbn [concat]. apply wf_tokens_app. split.
  - eapply is_group_wf; [|exact Hg]. apply Ha. left; reflexivity.
  - apply IH. intros m' Hm'. apply Ha. right; exact Hm'.
Qed.

Section Splitter.

Context {C : Type} `{Number C}.

Lemma split_modes_steps (ms : list ascii) (gs : list (list token)) :
  Forall2 is_group ms gs ->
  NoDup ms ->
  (forall m, In m ms -> isalpha m = true) ->
  forall (prev : list token) (out : list str),
    wf_tokens prev ->
    (forall m, In m ms -> ~ In m (map fst prev)) ->
    for_each split_modes_step ms (term_key (prev ++ concat gs), out)
    = Ok (term_key (last gs prev),
          out ++ map term_key (removelast (prev :: gs))).
Proof.
  induction 1 as [|m g ms gs Hg Hgs IH]; intros Hnd Ha prev out Hprev Hfresh.
  - simpl. rewrite !app_nil_r. reflexivity.
  - inversion Hnd as [|? ? Hnin Hnd']; subst.
    assert (Hm : isalpha m = true) by (apply Ha; left; reflexivity).
    assert (Hwg : wf_tokens g) by (eapply is_group_wf; eauto).
    assert (Hwrest : wf_tokens (g ++ concat gs)).
    { apply wf_tokens_app. split; [exact Hwg|].
      eapply groups_wf; [exact Hgs|]. intros; apply Ha; right; assumption. }
    cbn [for_each concat]. unfold split_modes_step at 1.
    assert (Hkey : term_key (prev ++ g ++ concat gs)
                   = key_sep prev ++ term_key (g ++ concat gs)).
    { apply term_key_app_r. destruct Hg as [Hne _].
      destruct g; [contradiction | discriminate]. }
    destruct (is_group_head m g (concat gs) Hg) as [s Hs].
    assert (Hfind : find (term_key (prev ++ g ++ concat gs)) [m]
                    = Some (length (key_sep prev))).
    { unfold find. rewrite Hkey, Hs. apply find_from_char.
      intros Hin. destruct (In_key_sep _ _ Hin) as [E | [E | Hl]].
      - apply (isalpha_neq_underscore m Hm E).
      - apply (isalpha_neq_plus m Hm E).
      - apply (Hfresh m); [left; reflexivity | exact Hl]. }
    rewrite Hfind. cbn [bind].
    rewrite Hkey at 1 2. rewrite firstn_length_app.
    replace (length (key_sep prev)) with (length (key_sep prev) + 0) by lia.
    rewrite skipn_length_app. cbn [skipn].
    rewrite clean_string_key_sep' by exact Hprev.
    rewrite clean_string_term_key by exact Hwrest.
    rewrite IH; auto.
    + rewrite (last_cons g gs prev).
      change (removelast (prev :: g :: gs)) with (prev :: removelast (g :: gs)).
      cbn [map]. rewrite <- app_assoc. reflexivity.
    + intros; apply Ha; right; assumption.
    + intros m' Hm' Hin. apply (is_group_letters _ _ _ Hg) in Hin.
      subst m'. contradiction.
Qed.

Lemma split_modes_groups (ms : list ascii) (gs : list (list token)) :
  Forall2 is_group ms gs ->
  NoDup ms ->
  (forall m, In m ms -> isalpha m = true) ->
  find_modes [(term_key (concat gs), num_one)] = ms ->
  split_modes (term_key (concat gs)) = Ok (map term_key gs).
Proof.
  intros Hgs Hnd Ha Hmodes. unfold split_modes. rewrite Hmodes.
  pose proof (split_modes_steps ms gs Hgs Hnd Ha [] [] (Forall_nil _)
                (fun _ _ Hin => Hin)) as E.
  cbn [app] in E. rewrite E. cbn [bind].
  assert (Hl : wf_tokens (last gs [])).
  { clear -Hgs Ha. induction Hgs as [|m g ms gs Hg Hgs IH]; [constructor|].
    destruct gs as [|g' gs'].
    - eapply is_group_wf; [|exact Hg]. apply Ha; left; reflexivity.
    - apply IH. intros; apply Ha; right; assumption. }
  rewrite clean_string_term_key by exact Hl.
  change [term_key (last gs [])] with (map term_key [last gs []]).
  rewrite <- map_app.
  rewrite <- (last_cons [] gs []).
  assert (Hne : @nil token :: gs <> []) by discriminate.
  rewrite <- (app_removelast_last [] Hne).
  simpl. reflexivity.
Qed.

End Splitter.

(** ** Computations that return from some depth on *)

Lemma returns_ret {A : Type} (a : A) (P : A -> Prop) :
  P a -> returns_eventually (fun _ => Ok a) P.
Proof. intros Ha. exists a, 0. split; [exact Ha | reflexivity]. Qed.

Lemma returns_bind {A B : Type} (f : nat -> result A) (g : nat -> A -> result B)
    (P : A -> Prop) (Q : B -> Prop) :
  returns_eventually f P ->
  (forall a, P a -> returns_eventually (fun depth => g depth a) Q) ->
  returns_eventually (fun depth => x <- f depth ;; g depth x) Q.
Proof.
  intros (a & N1 & Ha & Hf) Hg.
  destruct (Hg a Ha) as (b & N2 & Hb & Hgb).
  exists b, (Nat.max N1 N2). split; [exact Hb|].
  intros depth Hle. rewrite Hf by lia. cbn [bind]. apply Hgb. lia.
Qed.

Lemma returns_for_each {A S : Type} (body : nat -> S -> A -> result S)
    (l : list A) (Inv : S -> Prop) :
  (forall s x, Inv s -> In x l ->
     returns_eventually (fun depth => body depth s x) Inv) ->
  forall s, Inv s ->
    returns_eventually (fun depth => for_each (body depth) l s) Inv.
Proof.
  induction l as [|x l IH]; intros Hbody s Hs.
  - apply returns_ret, Hs.
  - cbn [for_each].
    apply (returns_bind (fun depth => body depth s x)
             (fun depth s' => for_each (body depth) l s') Inv Inv).
    + apply Hbody; [exact Hs | left; reflexivity].
    + intros s' Hs'. apply IH; [|exact Hs'].
      intros s0 x0 H0 Hin. apply Hbody; [exact H0 | right; exact Hin].
Qed.

Lemma returns_ext {A : Type} (f g : nat -> result A) (P : A -> Prop) :
  (forall depth, f depth = g depth) ->
  returns_eventually f P -> returns_eventually g P.
Proof.
  intros E (a & N & Ha & Hf). exists a, N. split; [exact Ha|].
  intros depth Hle. rewrite <- E. apply Hf, Hle.
Qed.

Lemma returns_weaken {A : Type} (f : nat -> result A) (P Q : A -> Prop) :
  (forall a, P a -> Q a) ->
  returns_eventually f P -> returns_eventually f Q.
Proof.
  intros HPQ (a & N & Ha & Hf). exists a, N. split; [apply HPQ, Ha | exact Hf].
Qed.

(** ** The groups of an organised term *)

Lemma mode_group_is_group (m : ascii) (ts : list token) :
  In m (map fst ts) -> is_group m (mode_group m ts).
Proof.
  intros Hin. apply in_map_iff in Hin. destruct Hin as (t & Ht & Hin).
  split.
  - intros E.
    assert (Hf : In t (mode_group m ts)).
    { apply filter_In. split; [exact Hin|]. apply Ascii.eqb_eq, Ht. }
    rewrite E in Hf. destruct Hf.
  - apply Forall_forall. intros t' Ht'. apply filter_In in Ht'.
    apply Ascii.eqb_eq, Ht'.
Qed.

Lemma organize_is_concat (ms : list ascii) (ts : list token) :
  organize ms ts = concat (map (fun m => mode_group m ts) ms).
Proof. apply flat_map_concat_map. Qed.

Lemma organize_groups (ms : list ascii) (ts : list token) :
  (forall m, In m ms -> In m (map fst ts)) ->
  Forall2 is_group ms (map (fun m => mode_group m ts) ms).
Proof.
  induction ms as [|m ms IH]; intros Hin; [constructor|].
  cbn [map]. constructor.
  - apply mode_group_is_group, Hin. left; reflexivity.
  - apply IH. intros; apply Hin; right; assumption.
Qed.

Lemma organize_letters (ms : list ascii) (ts : list token) (c : ascii) :
  In c (map fst (organize ms ts)) <-> In c ms /\ In c (map fst ts).
Proof.
  unfold organize. rewrite in_map_iff. split.
  - intros (t & <- & Ht). apply in_flat_map in Ht.
    destruct Ht as (m & Hm & Ht). apply filter_In in Ht.
    destruct Ht as [Ht E]. apply Ascii.eqb_eq in E. subst m.
    split; [exact Hm | apply in_map, Ht].
  - intros [Hc Hin]. apply in_map_iff in Hin. destruct Hin as (t & <- & Ht).
    exists t. split; [reflexivity|]. apply in_flat_map.
    exists (fst t). split; [exact Hc|]. apply filter_In.
    split; [exact Ht | apply Ascii.eqb_eq; reflexivity].
Qed.

Lemma organize_wf (ms : list ascii) (ts : list token) :
  wf_tokens ts -> wf_tokens (organize ms ts).
Proof.
  intros Hwf. unfold wf_tokens in *. rewrite Forall_forall in *.
  intros t Ht. unfold organize in Ht. apply in_flat_map in Ht.
  destruct Ht as (m & _ & Ht). apply filter_In in Ht. apply Hwf, Ht.
Qed.

Section OrganizedSplit.

Context {C : Type} `{Number C}.

(** Splitting the organised product of two keys gives one key per mode,
    in ascending order of the modes: neither the assertion nor the removal
    of the empty string fails. *)
Lemma split_modes_hspace_organize (a b : list token) :
  wf_tokens a -> wf_tokens b ->
  exists ms,
    StronglySorted char_lt ms
    /\ (forall c, In c ms <-> In c (map fst (a ++ b)))
    /\ split_modes (hspace_organize (term_key a ++ lit "_" ++ term_key b))
       = Ok (map (fun m => term_key (mode_group m (a ++ b))) ms).
Proof.
  intros Ha Hb.
  assert (Hab : wf_tokens (a ++ b)) by (apply wf_tokens_app; split; assumption).
  rewrite hspace_organize_joined by assumption.
  set (ms := find_modes [(term_key a ++ lit "_" ++ term_key b, num_one)]).
  destruct (find_modes_letters _ num_one (a ++ b)
              (fun c => letters_of_joined_keys a b c Ha Hb)) as [Hsorted Hin].
  fold ms in Hsorted, Hin.
  exists ms. split; [exact Hsorted | split; [exact Hin|]].
  rewrite organize_is_concat.
  rewrite split_modes_groups with (ms := ms).
  - rewrite map_map. reflexivity.
  - apply organize_groups. intros m Hm. apply Hin, Hm.
  - apply StronglySorted_lt_NoDup, Hsorted.
  - intros m Hm. eapply wf_tokens_letters; [exact Hab | apply Hin, Hm].
  - rewrite <- organize_is_concat.
    destruct (find_modes_letters (term_key (organize ms (a ++ b))) num_one
                (organize ms (a ++ b))
                (fun c => letters_of_term_key _ c (organize_wf ms _ Hab)))
      as [Hsorted' Hin'].
    apply StronglySorted_lt_unique; [exact Hsorted' | exact Hsorted|].
    intros c. rewrite Hin', organize_letters, <- Hin. tauto.
Qed.

End OrganizedSplit.

(** ** Well-formed keys are preserved by the term algebra *)

Lemma wf_key_empty : wf_key [].
Proof. exists []. split; [constructor | reflexivity]. Qed.

Lemma wf_key_join (k1 k2 : str) :
  wf_key k1 -> wf_key k2 -> wf_key (clean_string (k1 ++ lit "_" ++ k2)).
Proof.
  intros (a & Ha & ->) (b & Hb & ->). exists (a ++ b).
  split; [apply wf_tokens_app; split; assumption|].
  apply clean_string_join; assumption.
Qed.

Section Algebra.

Context {C : Type} `{Number C}.

Lemma wf_dict_set (d : dict C) (k : str) (v : C) :
  wf_dict d -> wf_key k -> wf_dict (dict_set d k v).
Proof.
  unfold wf_dict. rewrite !Forall_forall. intros Hd Hk x Hx.
  apply keys_dict_set in Hx. destruct Hx as [-> | Hx]; auto.
Qed.

Lemma wf_dict_add_expr_dicts (d1 d2 : dict C) :
  wf_dict d1 -> wf_dict d2 -> wf_dict (add_expr_dicts d1 d2).
Proof.
  unfold wf_dict. rewrite !Forall_forall. intros H1 H2 x Hx.
  apply keys_add_expr_dicts in Hx. destruct Hx; auto.
Qed.

Lemma wf_dict_In (d : dict C) (k : str) (v : C) :
  wf_dict d -> In (k, v) d -> wf_key k.
Proof.
  unfold wf_dict. rewrite Forall_forall. intros Hd Hin.
  apply Hd. unfold keys. apply (in_map fst) in Hin. exact Hin.
Qed.

Lemma wf_dict_multiply_dicts (d1 d2 : dict C) :
  wf_dict d1 -> wf_dict d2 ->
  wf_dict (multiply_normal_ordered_single_mode_dicts d1 d2).
Proof.
  intros H1 H2. unfold multiply_normal_ordered_single_mode_dicts.
  assert (G : forall l acc, wf_dict acc -> (forall kv, In kv l -> In kv d1) ->
    wf_dict
      (fold_left
         (fun result '(key1, value1) =>
            fold_left
              (fun result '(key2, value2) =>
                 let new_key := clean_string (key1 ++ lit "_" ++ key2) in
                 match dict_get result new_key with
                 | Some old =>
                     dict_set result new_key (num_add old (num_mul value1 value2))
                 | None => dict_set result new_key (num_mul value1 value2)
                 end)
              d2 result)
         l acc)).
  { induction l as [|[k1 v1] l IH]; intros acc Hacc Hl; [exact Hacc|].
    cbn [fold_left]. apply IH; [|intros; apply Hl; right; assumption].
    assert (Hk1 : wf_key k1)
      by (eapply wf_dict_In; [exact H1 | apply Hl; left; reflexivity]).
    clear IH Hl.
    assert (G2 : forall l2 acc2, wf_dict acc2 ->
      (forall kv, In kv l2 -> In kv d2) ->
      wf_dict
        (fold_left
           (fun result '(key2, value2) =>
              let new_key := clean_string (k1 ++ lit "_" ++ key2) in
              match dict_get result new_key with
              | Some old =>
                  dict_set result new_key (num_add old (num_mul v1 value2))
              | None => dict_set result new_key (num_mul v1 value2)
              end)
           l2 acc2)).
    { induction l2 as [|[k2 v2] l2 IH2]; intros acc2 Hacc2 Hl2; [exact Hacc2|].
      cbn [fold_left]. apply IH2; [|intros; apply Hl2; right; assumption].
      assert (Hk2 : wf_key k2)
        by (eapply wf_dict_In; [exact H2 | apply Hl2; left; reflexivity]).
      cbv zeta. destruct (dict_get acc2 _);
        apply wf_dict_set; auto; apply wf_key_join; assumption. }
    apply G2; auto. }
  apply G; [constructor | auto].
Qed.

Lemma wf_dict_scale (temp : dict C) (overall_coeff : C) :
  wf_dict temp ->
  wf_dict
    (fold_left
       (fun temp' '(key, value) => dict_set temp' key (num_mul value overall_coeff))
       temp temp).
Proof.
  intros Ht.
  assert (G : forall l acc, wf_dict acc -> (forall kv, In kv l -> In kv temp) ->
    wf_dict
      (fold_left
         (fun temp' '(key, value) =>
            dict_set temp' key (num_mul value overall_coeff)) l acc)).
  { induction l as [|[k v] l IH]; intros acc Hacc Hl; [exact Hacc|].
    cbn [fold_left]. apply IH; [|intros; apply Hl; right; assumption].
    apply wf_dict_set; [exact Hacc|].
    eapply wf_dict_In; [exact Ht | apply Hl; left; reflexivity]. }
  apply G; auto.
Qed.

Lemma group_as_single_mode (m : ascii) (g : list token) :
  is_group m g -> g = single_mode m (map snd g).
Proof.
  intros [_ Hg]. induction Hg as [|[m' b] g Ht Hg IH]; [reflexivity|].
  simpl in Ht. subst m'. simpl. f_equal. exact IH.
Qed.

Lemma wf_dict_normal_ordered (mode : ascii) (d : dict C) :
  isalpha mode = true ->
  (forall k, In k (keys d) -> exists bs', k = term_key (single_mode mode bs')) ->
  wf_dict d.
Proof.
  intros Hm Hk. unfold wf_dict. apply Forall_forall. intros k Hin.
  destruct (Hk k Hin) as (bs' & ->).
  exists (single_mode mode bs'). split; [apply wf_single_mode, Hm | reflexivity].
Qed.

(** The reduction of one single-mode piece inside [multiply]. *)
Lemma reduce_piece_returns (m : ascii) (g : list token) (temp : dict C) :
  isalpha m = true -> is_group m g -> wf_dict temp ->
  returns_eventually
    (fun depth =>
       match term_key g with
       | [] => Raise IndexError
       | mode :: _ =>
           normal_ordered_single_mode_dict <-
             normal_ordering depth mode (term_key g) num_one ;;
           match temp with
           | [] => Ok normal_ordered_single_mode_dict
           | _ :: _ =>
               Ok (multiply_normal_ordered_single_mode_dicts
                     temp normal_ordered_single_mode_dict)
           end
       end)
    wf_dict.
Proof.
  intros Hm Hg Htemp.
  destruct (is_group_head m g [] Hg) as [s Hs]. rewrite app_nil_r in Hs.
  rewrite Hs. rewrite <- Hs.
  apply (returns_bind
           (fun depth => normal_ordering depth m (term_key g) num_one)
           (fun _ nd => match temp with
                        | [] => Ok nd
                        | _ :: _ =>
                            Ok (multiply_normal_ordered_single_mode_dicts temp nd)
                        end)
           wf_dict wf_dict).
  - rewrite (group_as_single_mode m g Hg).
    destruct (normal_ordering_single_mode m num_one Hm
                (S (inversions (map snd g))) (map snd g))
      as (d & Hd & _ & Hk); [lia|].
    exists d, (S (inversions (map snd g))). split; [|exact Hd].
    apply (wf_dict_normal_ordered m); [exact Hm|].
    intros k Hin. destruct (Hk k Hin) as (bs' & E & _). eauto.
  - intros nd Hnd. destruct temp as [|kv temp'].
    + apply returns_ret, Hnd.
    + apply returns_ret. apply wf_dict_multiply_dicts; assumption.
Qed.

Lemma multiply_terms_returns (acc : dict C) (t1 t2 : str * C) :
  wf_dict acc -> wf_key (fst t1) -> wf_key (fst t2) ->
  returns_eventually (fun depth => multiply_terms depth acc t1 t2) wf_dict.
Proof.
  destruct t1 as [term1 coeff1], t2 as [term2 coeff2]. cbn [fst].
  intros Hacc (a & Ha & ->) (b & Hb & ->). unfold multiply_terms.
  destruct (str_eqb (term_key a) [] && str_eqb (term_key b) []).
  - apply returns_ret. apply wf_dict_add_expr_dicts; [exact Hacc|].
    constructor; [apply wf_key_empty | constructor].
  - destruct (split_modes_hspace_organize a b Ha Hb) as (ms & Hs & Hin & E).
    rewrite E. cbn [bind].
    assert (Hab : wf_tokens (a ++ b))
      by (apply wf_tokens_app; split; assumption).
    apply (returns_bind
             (fun depth =>
                for_each
                  (fun temp single_mode_term =>
                     match single_mode_term with
                     | [] => Raise IndexError
                     | mode :: _ =>
                         normal_ordered_single_mode_dict <-
                           normal_ordering depth mode single_mode_term num_one ;;
                         match temp with
                         | [] => Ok normal_ordered_single_mode_dict
                         | _ :: _ =>
                             Ok (multiply_normal_ordered_single_mode_dicts
                                   temp normal_ordered_single_mode_dict)
                         end
                     end)
                  (map (fun m => term_key (mode_group m (a ++ b))) ms) [])
             (fun _ temp =>
                Ok (add_expr_dicts acc
                      (fold_left
                         (fun temp' '(key, value) =>
                            dict_set temp' key
                              (num_mul value (num_mul coeff1 coeff2)))
                         temp temp)))
             wf_dict wf_dict).
    + apply (returns_for_each
               (fun depth temp single_mode_term =>
                  match single_mode_term with
                  | [] => Raise IndexError
                  | mode :: _ =>
                      normal_ordered_single_mode_dict <-
                        normal_ordering depth mode single_mode_term num_one ;;
                      match temp with
                      | [] => Ok normal_ordered_single_mode_dict
                      | _ :: _ =>
                          Ok (multiply_normal_ordered_single_mode_dicts
                                temp normal_ordered_single_mode_dict)
                      end
                  end)); [|constructor].
      intros temp x Htemp Hx. apply in_map_iff in Hx.
      destruct Hx as (m & <- & Hm).
      apply (reduce_piece_returns m).
      * eapply wf_tokens_letters; [exact Hab | apply Hin, Hm].
      * apply mode_group_is_group, Hin, Hm.
      * exact Htemp.
    + intros temp Htemp. apply returns_ret.
      apply wf_dict_add_expr_dicts; [exact Hacc|].
      apply wf_dict_scale, Htemp.
Qed.

Lemma multiply_returns (A B : Expression C) :
  wf_expr A -> wf_expr B ->
  returns_eventually (fun depth => multiply depth A B) wf_expr.
Proof.
  intros HA HB. unfold multiply.
  apply (returns_bind
           (fun depth =>
              for_each
                (fun result_dict t1 =>
                   for_each
                     (fun result_dict t2 => multiply_terms depth result_dict t1 t2)
                     (expr_dict B) result_dict)
                (expr_dict A) (expr_dict Expression_empty))
           (fun _ d =>
              Ok (mkExpression d (sorted (set_of (modes A ++ modes B)))))
           (@wf_dict C) (@wf_expr C)).
  - apply (returns_for_each
             (fun depth result_dict t1 =>
                for_each
                  (fun result_dict t2 => multiply_terms depth result_dict t1 t2)
                  (expr_dict B) result_dict)); [|constructor].
    intros acc t1 Hacc Ht1.
    apply (returns_for_each
             (fun depth result_dict t2 => multiply_terms depth result_dict t1 t2));
      [|exact Hacc].
    intros acc' t2 Hacc' Ht2.
    apply multiply_terms_returns; [exact Hacc' | |].
    + destruct t1 as [k1 v1]. eapply wf_dict_In; [exact HA | exact Ht1].
    + destruct t2 as [k2 v2]. eapply wf_dict_In; [exact HB | exact Ht2].
  - intros d Hd. apply returns_ret. exact Hd.
Qed.

Lemma power_loop_returns (expr : Expression C) (count : nat) :
  wf_expr expr ->
  forall res, wf_expr res ->
    returns_eventually (fun depth => power_loop depth res expr count) wf_expr.
Proof.
  intros He. induction count as [|count IH]; intros res Hres.
  - apply returns_ret, Hres.
  - cbn [power_loop].
    apply (returns_bind (fun depth => multiply depth res expr)
             (fun depth res' => power_loop depth res' expr count)
             wf_expr wf_expr).
    + apply multiply_returns; assumption.
    + intros res' Hres'. apply IH, Hres'.
Qed.

Lemma wf_expr_add (A B : Expression C) :
  wf_expr A -> wf_expr B -> wf_expr (add A B).
Proof.
  intros HA HB. unfold add, wf_expr. cbn [expr_dict].
  assert (G1 : forall (l acc : dict C), wf_dict acc ->
    (forall kv, In kv l -> wf_key (fst kv)) ->
    wf_dict (fold_left (fun d '(term, coeff) => dict_set d term coeff) l acc)).
  { induction l as [|[k v] l IH]; intros acc Hacc Hl; [exact Hacc|].
    cbn [fold_left]. apply IH; [|intros; apply Hl; right; assumption].
    apply wf_dict_set; [exact Hacc|]. apply (Hl (k, v)). left; reflexivity. }
  assert (G2 : forall (l acc : dict C), wf_dict acc ->
    (forall kv, In kv l -> wf_key (fst kv)) ->
    wf_dict
      (fold_left
         (fun d '(term, coeff) =>
            if dict_in term d
            then match dict_get d term with
                 | Some old => dict_set d term (num_add old coeff)
                 | None => d
                 end
            else dict_set d term coeff) l acc)).
  { induction l as [|[k v] l IH]; intros acc Hacc Hl; [exact Hacc|].
    cbn [fold_left]. apply IH; [|intros; apply Hl; right; assumption].
    assert (Hk : wf_key k) by (apply (Hl (k, v)); left; reflexivity).
    destruct (dict_in k acc); [destruct (dict_get acc k)|];
      try apply wf_dict_set; auto. }
  apply G2; [apply G1; [constructor|]|].
  - intros [k v] Hin. eapply wf_dict_In; [exact HA | exact Hin].
  - intros [k v] Hin. eapply wf_dict_In; [exact HB | exact Hin].
Qed.

Lemma wf_expr_scalar_multiply (A : Expression C) (scalar : C) :
  wf_expr A -> wf_expr (scalar_multiply A scalar).
Proof.
  intros HA. unfold scalar_multiply, wf_expr. cbn [expr_dict].
  assert (G : forall (l acc : dict C), wf_dict acc ->
    (forall kv, In kv l -> wf_key (fst kv)) ->
    wf_dict
      (fold_left (fun d '(term, coeff) => dict_set d term (num_mul coeff scalar))
         l acc)).
  { induction l as [|[k v] l IH]; intros acc Hacc Hl; [exact Hacc|].
    cbn [fold_left]. apply IH; [|intros; apply Hl; right; assumption].
    apply wf_dict_set; [exact Hacc|]. apply (Hl (k, v)). left; reflexivity. }
  apply G; [constructor|].
  intros [k v] Hin. eapply wf_dict_In; [exact HA | exact Hin].
Qed.

End Algebra.

(** C8.  On well-formed Expressions (every key is the key of a token
    sequence) the algebra never raises.  [add] and [scalar_multiply] contain
    no operation that can raise (they are total functions here) and keep
    the keys well-formed.  [multiply] and [power] (for every exponent, in
    particular [n >= 1]) return a well-formed Expression at every recursion
    depth from some depth on.  Inside [multiply], for every pair of keys,
    [split_modes] on the organised product returns: its assertion holds,
    the removal of the empty string finds it, and no piece is empty, so the
    mode letter [single_mode_term[0]] exists. *)
Theorem algebra_never_raises {C : Type} `{Number C}
    (A B : Expression C) (scalar : C) (exponent : Z) :
  wf_expr A -> wf_expr B ->
  wf_expr (add A B)
  /\ wf_expr (scalar_multiply A scalar)
  /\ returns_eventually (fun depth => multiply depth A B) wf_expr
  /\ returns_eventually (fun depth => power depth A exponent) wf_expr
  /\ forall term1 term2,
       In term1 (keys (expr_dict A)) -> In term2 (keys (expr_dict B)) ->
       exists pieces,
         split_modes (hspace_organize (term1 ++ lit "_" ++ term2)) = Ok pieces
         /\ Forall (fun piece => piece <> []) pieces.
Proof.
  intros HA HB. split; [|split; [|split; [|split]]].
  - apply wf_expr_add; assumption.
  - apply wf_expr_scalar_multiply; assumption.
  - apply multiply_returns; assumption.
  - unfold power. apply power_loop_returns; assumption.
  - intros term1 term2 H1 H2.
    unfold wf_expr, wf_dict in HA, HB. rewrite Forall_forall in HA, HB.
    destruct (HA _ H1) as (a & Ha & ->). destruct (HB _ H2) as (b & Hb & ->).
    destruct (split_modes_hspace_organize a b Ha Hb) as (ms & Hs & Hin & E).
    eexists. split; [exact E|].
    apply Forall_forall. intros piece Hp. apply in_map_iff in Hp.
    destruct Hp as (m & <- & Hm).
    destruct (is_group_head m (mode_group m (a ++ b)) []
                (mode_group_is_group m _ (proj1 (Hin m) Hm))) as [s Hs'].
    rewrite app_nil_r in Hs'. rewrite Hs'. discriminate.
Qed.

Lemma algebra_never_raises_witness :
  wf_expr (mkExpression [(lit "b_a+", 1%Z); (lit "", 3%Z)] (lit "ab"))
  /\ wf_expr (mkExpression [(lit "a_b+", 2%Z)] (lit "ab"))
  /\ returns_eventually
       (fun depth =>
          multiply depth
            (mkExpression [(lit "b_a+", 1%Z); (lit "", 3%Z)] (lit "ab"))
            (mkExpression [(lit "a_b+", 2%Z)] (lit "ab")))
       wf_expr.
Proof.
  assert (HA : wf_expr (mkExpression [(lit "b_a+", 1%Z); (lit "", 3%Z)] (lit "ab"))).
  { repeat constructor.
    - exists [("b"%char, false); ("a"%char, true)].
      split; [repeat constructor | reflexivity].
    - apply wf_key_empty. }
  assert (HB : wf_expr (mkExpression [(lit "a_b+", 2%Z)] (lit "ab"))).
  { repeat constructor.
    exists [("a"%char, false); ("b"%char, true)].
    split; [repeat constructor | reflexivity]. }
  split; [exact HA | split; [exact HB|]].
  exact (proj1 (proj2 (proj2 (algebra_never_raises _ _ 1%Z 2%Z HA HB)))).
Defined.

(** * Further properties of the program *)

(** ** The parser, term by term *)

Lemma find_first_alphabet_index_loop_spec (t : str) (off : nat) :
  (exists k c,
      find_first_alphabet_index_loop t off = off + k
      /\ nth_error t k = Some c /\ isalpha c = true /\ c <> "j"%char
      /\ forall k' c', k' < k -> nth_error t k' = Some c' ->
           isalpha c' && negb (Ascii.eqb c' "j") = false)
  \/ (find_first_alphabet_index_loop t off = 0
      /\ forall c, In c t -> isalpha c && negb (Ascii.eqb c "j") = false).
Proof.
  revert off; induction t as [|x t IH]; intros off.
  - right. split; [reflexivity | intros c []].
  - cbn [find_first_alphabet_index_loop].
    destruct (isalpha x && negb (Ascii.eqb x "j")) eqn:E.
    + left. exists 0, x. apply andb_true_iff in E. destruct E as [Ea Ej].
      repeat split; auto; try lia.
      intros ->. discriminate Ej.
    + destruct (IH (S off)) as [(k & c & Hl & Hn & Ha & Hj & Hb) | [Hl Hno]].
      * left. exists (S k), c. repeat split; auto; try lia.
        intros [|k'] c' Hlt Hn'; simpl in Hn'.
        -- inversion Hn'; subst. exact E.
        -- apply (Hb k'); [lia | exact Hn'].
      * right. split; [exact Hl|]. intros c [<- | Hc]; auto.
Qed.

(** X1.  [find_first_alphabet_index] returns the least index of a letter
    other than ['j']; when the term has no such letter it returns 0, the
    same value as for a term that starts with one. *)
Theorem find_first_alphabet_index_least (term : str) :
  (exists c,
      nth_error term (find_first_alphabet_index term) = Some c
      /\ isalpha c = true /\ c <> "j"%char
      /\ forall k c', k < find_first_alphabet_index term ->
           nth_error term k = Some c' ->
           isalpha c' && negb (Ascii.eqb c' "j") = false)
  \/ (find_first_alphabet_index term = 0
      /\ forall c, In c term -> isalpha c && negb (Ascii.eqb c "j") = false).
Proof.
  unfold find_first_alphabet_index.
  destruct (find_first_alphabet_index_loop_spec term 0)
    as [(k & c & Hl & Hn & Ha & Hj & Hb) | Hno]; [|right; exact Hno].
  left. exists c. rewrite Hl. simpl. repeat split; auto.
Qed.

Section ParserTerms.

Context {C : Type} `{Number C}.

Variable complex : str -> option C.

Lemma parse_term_parts (d : dict C) (t : str) :
  parse_term complex d t
  = match term_coefficient complex t with
    | Some c => Ok (dict_set d (term_operators t) c)
    | None => Raise ValueError
    end.
Proof.
  unfold parse_term, term_coefficient, term_operators.
  destruct (find_first_alphabet_index t =? 0); reflexivity.
Qed.

Lemma for_each_app {A S : Type} (body : S -> A -> result S) (l1 l2 : list A)
    (s : S) :
  for_each body (l1 ++ l2) s = (s' <- for_each body l1 s ;; for_each body l2 s').
Proof.
  revert s; induction l1 as [|a l1 IH]; intros s; [reflexivity|].
  cbn [app for_each]. destruct (body s a); cbn [bind]; [apply IH | reflexivity].
Qed.

Lemma NoDup_keys_dict_set (d : dict C) (k : str) (v : C) :
  NoDup (keys d) -> NoDup (keys (dict_set d k v)).
Proof.
  unfold keys. induction d as [|[k0 v0] d IH]; intros Hnd.
  - repeat constructor. intros [].
  - simpl. destruct (str_eqb k0 k) eqn:E; [exact Hnd|].
    inversion Hnd as [|? ? Hnin Hnd']; subst. simpl. constructor.
    + intros Hin. apply (keys_dict_set d k v k0) in Hin.
      destruct Hin as [-> | Hin]; [|contradiction].
      rewrite str_eqb_refl in E. discriminate.
    + apply IH, Hnd'.
Qed.

Lemma for_each_parse_term_accepts (terms : list str) (d0 : dict C) :
  (forall t, In t terms -> term_coefficient complex t <> None) ->
  NoDup (keys d0) ->
  exists d,
    for_each (parse_term complex) terms d0 = Ok d
    /\ NoDup (keys d)
    /\ forall k, In k (keys d) <->
         In k (keys d0) \/ exists t, In t terms /\ k = term_operators t.
Proof.
  revert d0; induction terms as [|t terms IH]; intros d0 Hok Hnd.
  - exists d0. split; [reflexivity | split; [exact Hnd|]].
    intros k. split; [auto | intros [Hk | (t & [] & _)]; exact Hk].
  - cbn [for_each]. rewrite parse_term_parts.
    destruct (term_coefficient complex t) as [c|] eqn:Ec;
      [|exfalso; apply (Hok t); [left; reflexivity | exact Ec]].
    cbn [bind].
    destruct (IH (dict_set d0 (term_operators t) c)) as (d & Hd & Hn & Hk).
    + intros t' Ht'. apply Hok. right; exact Ht'.
    + apply NoDup_keys_dict_set, Hnd.
    + exists d. split; [exact Hd | split; [exact Hn|]].
      intros k. rewrite Hk, keys_dict_set. split.
      * intros [[-> | Hin] | (t' & Ht' & ->)]; eauto.
        -- right. exists t. split; [left|]; reflexivity.
        -- right. exists t'. split; [right; exact Ht' | reflexivity].
      * intros [Hin | (t' & [<- | Ht'] & ->)]; eauto.
Qed.

Lemma for_each_parse_term_last (l2 : list str) (key : str) (v : C) (d0 d : dict C) :
  (forall t', In t' l2 -> term_operators t' <> key) ->
  dict_get d0 key = Some v ->
  for_each (parse_term complex) l2 d0 = Ok d ->
  dict_get d key = Some v.
Proof.
  revert d0; induction l2 as [|t' l2 IH]; intros d0 Hne Hg; cbn [for_each].
  - intros E; inversion E; subst. exact Hg.
  - rewrite parse_term_parts.
    destruct (term_coefficient complex t') as [c|]; [|discriminate].
    cbn [bind]. apply IH.
    + intros t'' Ht''. apply Hne. right; exact Ht''.
    + rewrite dict_get_set_other; [exact Hg|]. apply Hne. left; reflexivity.
Qed.

End ParserTerms.

(** X2.  The parser fails only on a rejected coefficient: when the input is
    not empty and the coefficient of every term is accepted, parsing
    returns a dictionary with distinct keys, and its keys are exactly the
    operator parts of the terms. *)
Theorem parser_accepts_valid_coefficients {C : Type} `{Number C}
    (complex : str -> option C) (expr_string : str) :
  expr_string <> [] ->
  (forall t, In t (split expr_string (lit "(+)")) ->
     term_coefficient complex t <> None) ->
  exists d,
    parse_expr_string complex expr_string = Ok d
    /\ NoDup (keys d)
    /\ forall k, In k (keys d) <->
         exists t, In t (split expr_string (lit "(+)")) /\ k = term_operators t.
Proof.
  intros Hne Hok. unfold parse_expr_string.
  apply str_eqb_neq in Hne. rewrite Hne.
  destruct (for_each_parse_term_accepts complex _ [] Hok (NoDup_nil _))
    as (d & Hd & Hn & Hk).
  exists d. split; [exact Hd | split; [exact Hn|]].
  intros k. rewrite Hk. split; [intros [[] | Ht]; exact Ht | auto].
Qed.

Lemma parser_accepts_valid_coefficients_witness :
  exists d,
    parse_expr_string decimal_literal (lit "2a+_a(+)b(+)7") = Ok d
    /\ NoDup (keys d)
    /\ forall k, In k (keys d) <->
         exists t, In t (split (lit "2a+_a(+)b(+)7") (lit "(+)"))
                   /\ k = term_operators t.
Proof.
  apply (parser_accepts_valid_coefficients decimal_literal (lit "2a+_a(+)b(+)7")).
  - discriminate.
  - intros t Ht. simpl in Ht.
    destruct Ht as [<- | [<- | [<- | []]]]; discriminate.
Defined.

(** X3.  A repeated term overwrites: after a successful parse, the
    coefficient stored under the operators of a term is the coefficient of
    that term whenever no later term has the same operators (earlier ones
    are not added to it). *)
Theorem parser_last_term_wins {C : Type} `{Number C}
    (complex : str -> option C) (expr_string : str)
    (before : list str) (term : str) (after : list str) (d : dict C) :
  expr_string <> [] ->
  split expr_string (lit "(+)") = before ++ term :: after ->
  (forall t', In t' after -> term_operators t' <> term_operators term) ->
  parse_expr_string complex expr_string = Ok d ->
  dict_get d (term_operators term) = term_coefficient complex term.
Proof.
  intros Hne Hsplit Hlater. unfold parse_expr_string.
  apply str_eqb_neq in Hne. rewrite Hne, Hsplit, for_each_app.
  destruct (for_each (parse_term complex) before []) as [d1|]; [|discriminate].
  cbn [bind for_each]. rewrite parse_term_parts.
  destruct (term_coefficient complex term) as [c|]; [|discriminate].
  cbn [bind]. apply for_each_parse_term_last; [exact Hlater|].
  apply dict_get_set_same.
Qed.

Lemma parser_last_term_wins_witness :
  parse_expr_string decimal_literal (lit "2a(+)b(+)a") = Ok [(lit "a", 1%Z); (lit "b", 1%Z)]
  /\ dict_get [(lit "a", 1%Z); (lit "b", 1%Z)] (term_operators (lit "a"))
     = term_coefficient decimal_literal (lit "a").
Proof.
  assert (E : parse_expr_string decimal_literal (lit "2a(+)b(+)a")
              = Ok [(lit "a", 1%Z); (lit "b", 1%Z)]) by reflexivity.
  split; [exact E|].
  refine (parser_last_term_wins decimal_literal (lit "2a(+)b(+)a")
            [lit "2a"; lit "b"] (lit "a") [] _ _ eq_refl _ E).
  - discriminate.
  - intros t' [].
Defined.

(** ** Addition and merging of dictionaries *)

Section Addition.

Context {C : Type} `{Number C}.

Lemma merge_coefficients_none_r (a : option C) : merge_coefficients a None = a.
Proof. destruct a; reflexivity. Qed.

Lemma dict_get_not_in (d : dict C) (k : str) :
  ~ In k (keys d) -> dict_get d k = None.
Proof.
  intros Hn. destruct (dict_get d k) eqn:E; [|reflexivity].
  exfalso. apply Hn, dict_get_In_keys. rewrite E. discriminate.
Qed.

Lemma add_expr_dicts_cons (d1 d2 : dict C) (k : str) (v : C) :
  add_expr_dicts d1 ((k, v) :: d2)
  = add_expr_dicts
      (match dict_get d1 k with
       | Some old => dict_set d1 k (num_add old v)
       | None => dict_set d1 k v
       end) d2.
Proof. reflexivity. Qed.

Lemma add_expr_dicts_get (d2 d1 : dict C) (k : str) :
  NoDup (keys d2) ->
  dict_get (add_expr_dicts d1 d2) k
  = merge_coefficients (dict_get d1 k) (dict_get d2 k).
Proof.
  revert d1; induction d2 as [|[k2 v2] d2 IH]; intros d1 Hnd.
  - simpl. rewrite merge_coefficients_none_r. reflexivity.
  - inversion Hnd as [|? ? Hnin Hnd']; subst.
    rewrite add_expr_dicts_cons, IH by exact Hnd'.
    cbn [dict_get]. destruct (str_eqb k2 k) eqn:E.
    + apply str_eqb_eq in E. subst k2.
      rewrite (dict_get_not_in d2 k Hnin), merge_coefficients_none_r.
      destruct (dict_get d1 k); rewrite dict_get_set_same; reflexivity.
    + apply str_eqb_neq in E.
      destruct (dict_get d1 k2); rewrite dict_get_set_other by exact E;
        reflexivity.
Qed.

Lemma add_expr_dicts_get_absent (d2 d1 : dict C) (k : str) :
  ~ In k (keys d2) -> dict_get (add_expr_dicts d1 d2) k = dict_get d1 k.
Proof.
  revert d1; induction d2 as [|[k2 v2] d2 IH]; intros d1 Hn; [reflexivity|].
  rewrite add_expr_dicts_cons, IH by (intros Hin; apply Hn; right; exact Hin).
  assert (E : k2 <> k) by (intros ->; apply Hn; left; reflexivity).
  destruct (dict_get d1 k2); apply dict_get_set_other, E.
Qed.

Lemma add_expr_dicts_NoDup (d2 d1 : dict C) :
  NoDup (keys d1) -> NoDup (keys (add_expr_dicts d1 d2)).
Proof.
  revert d1; induction d2 as [|[k2 v2] d2 IH]; intros d1 Hnd; [exact Hnd|].
  rewrite add_expr_dicts_cons. apply IH.
  destruct (dict_get d1 k2); apply NoDup_keys_dict_set, Hnd.
Qed.

Lemma add_expr_dicts_fresh (d2 d1 : dict C) :
  NoDup (keys d1 ++ keys d2) -> add_expr_dicts d1 d2 = d1 ++ d2.
Proof.
  revert d1; induction d2 as [|[k2 v2] d2 IH]; intros d1 Hnd.
  - simpl. rewrite app_nil_r. reflexivity.
  - rewrite add_expr_dicts_cons.
    assert (Hk : ~ In k2 (keys d1)).
    { intros Hin. cbn [keys map fst] in Hnd.
      apply NoDup_remove_2 in Hnd. apply Hnd, in_or_app. left; exact Hin. }
    rewrite (dict_get_not_in d1 k2 Hk), dict_set_fresh by exact Hk.
    rewrite IH.
    + rewrite <- app_assoc. reflexivity.
    + unfold keys in *. rewrite map_app, <- app_assoc. exact Hnd.
Qed.

Lemma copy_dict (l acc : dict C) :
  NoDup (keys acc ++ keys l) ->
  fold_left (fun d '(term, coeff) => dict_set d term coeff) l acc = acc ++ l.
Proof.
  revert acc; induction l as [|[k v] l IH]; intros acc Hnd.
  - simpl. rewrite app_nil_r. reflexivity.
  - cbn [fold_left].
    assert (Hk : ~ In k (keys acc)).
    { intros Hin. cbn [keys map fst] in Hnd.
      apply NoDup_remove_2 in Hnd. apply Hnd, in_or_app. left; exact Hin. }
    rewrite dict_set_fresh by exact Hk. rewrite IH.
    + rewrite <- app_assoc. reflexivity.
    + unfold keys in *. rewrite map_app, <- app_assoc. exact Hnd.
Qed.

Lemma keys_copy_dict (l acc : dict C) (k : str) :
  In k (keys (fold_left (fun d '(term, coeff) => dict_set d term coeff) l acc))
  <-> In k (keys acc) \/ In k (keys l).
Proof.
  revert acc; induction l as [|[k0 v0] l IH]; intros acc; cbn [fold_left].
  - simpl. tauto.
  - rewrite IH, keys_dict_set. simpl. intuition (subst; auto).
Qed.

(** The dictionary built by [add]: a copy of the first operand, merged with
    the second as [add_expr_dicts] does. *)
Lemma add_dict (A B : Expression C) :
  expr_dict (add A B)
  = add_expr_dicts
      (fold_left (fun d '(term, coeff) => dict_set d term coeff) (expr_dict A) [])
      (expr_dict B).
Proof.
  unfold add, add_expr_dicts. cbn [expr_dict Expression_empty].
  generalize (fold_left (fun d '(term, coeff) => dict_set d term coeff)
                (expr_dict A) []).
  induction (expr_dict B) as [|[k v] l IH]; intros d; [reflexivity|].
  cbn [fold_left]. rewrite IH. f_equal.
  unfold dict_in. destruct (dict_get d k); reflexivity.
Qed.

Lemma keys_add (A B : Expression C) (k : str) :
  In k (keys (expr_dict (add A B)))
  <-> In k (keys (expr_dict A)) \/ In k (keys (expr_dict B)).
Proof.
  rewrite add_dict, keys_add_expr_dicts, keys_copy_dict.
  split; [intros [[[] | Hk] | Hk]; auto | intros [Hk | Hk]; auto].
Qed.

Lemma add_get (A B : Expression C) (k : str) :
  NoDup (keys (expr_dict A)) -> NoDup (keys (expr_dict B)) ->
  dict_get (expr_dict (add A B)) k
  = merge_coefficients (dict_get (expr_dict A) k) (dict_get (expr_dict B) k).
Proof.
  intros HA HB. rewrite add_dict, add_expr_dicts_get by exact HB.
  rewrite copy_dict by exact HA. reflexivity.
Qed.

Lemma add_NoDup (A B : Expression C) :
  NoDup (keys (expr_dict A)) -> NoDup (keys (expr_dict (add A B))).
Proof.
  intros HA. rewrite add_dict. apply add_expr_dicts_NoDup.
  rewrite copy_dict by exact HA. exact HA.
Qed.

Lemma find_modes_same_keys (d1 d2 : dict C) :
  (forall k, In k (keys d1) <-> In k (keys d2)) ->
  find_modes d1 = find_modes d2.
Proof.
  intros Hk.
  destruct (find_modes_spec d1) as [Hs1 Hin1].
  destruct (find_modes_spec d2) as [Hs2 Hin2].
  apply StronglySorted_lt_unique; [exact Hs1 | exact Hs2|].
  intros c. rewrite Hin1, Hin2. split; intros [Ha (k & Hin & Hc)];
    (split; [exact Ha | exists k; split; [apply Hk, Hin | exact Hc]]).
Qed.

End Addition.

(** X4.  [add] on Expressions with distinct keys: the coefficient of a key
    in the sum is the sum of the two coefficients when both operands have
    the key, the operand's own coefficient when only one has it, and the key
    is absent when neither has it; a zero sum is kept as an entry. *)
Theorem add_sums_coefficients {C : Type} `{Number C}
    (A B : Expression C) (key : str) :
  NoDup (keys (expr_dict A)) -> NoDup (keys (expr_dict B)) ->
  dict_get (expr_dict (add A B)) key
  = merge_coefficients (dict_get (expr_dict A) key) (dict_get (expr_dict B) key)
  /\ NoDup (keys (expr_dict (add A B))).
Proof.
  intros HA HB. split; [apply add_get; assumption | apply add_NoDup, HA].
Qed.

Lemma add_sums_coefficients_witness :
  dict_get
    (expr_dict (add (mkExpression [(lit "a", 2%Z); (lit "", 1%Z)] (lit "a"))
                    (mkExpression [(lit "b", 5%Z); (lit "a", (-2)%Z)] (lit "ab"))))
    (lit "a")
  = Some 0%Z.
Proof.
  refine (proj1 (add_sums_coefficients
                   (mkExpression [(lit "a", 2%Z); (lit "", 1%Z)] (lit "a"))
                   (mkExpression [(lit "b", 5%Z); (lit "a", (-2)%Z)] (lit "ab"))
                   (lit "a") _ _)).
  - repeat constructor; simpl; intuition discriminate.
  - repeat constructor; simpl; intuition discriminate.
Defined.

(** X5.  [add] is commutative when the coefficient addition is: the two
    sums have the same coefficient at every key (the insertion order may
    differ) and the same mode set. *)
Theorem add_commutative {C : Type} `{Number C} (A B : Expression C) :
  (forall x y : C, num_add x y = num_add y x) ->
  NoDup (keys (expr_dict A)) -> NoDup (keys (expr_dict B)) ->
  dict_equal (expr_dict (add A B)) (expr_dict (add B A))
  /\ modes (add A B) = modes (add B A).
Proof.
  intros Hcomm HA HB. split.
  - intros k. rewrite !add_get by assumption.
    destruct (dict_get (expr_dict A) k), (dict_get (expr_dict B) k);
      simpl; try reflexivity.
    rewrite Hcomm. reflexivity.
  - change (modes (add A B)) with (find_modes (expr_dict (add A B))).
    change (modes (add B A)) with (find_modes (expr_dict (add B A))).
    apply find_modes_same_keys. intros k. rewrite !keys_add. tauto.
Qed.

Lemma add_commutative_witness :
  dict_equal
    (expr_dict (add (mkExpression [(lit "a", 2%Z)] (lit "a"))
                    (mkExpression [(lit "b", 5%Z); (lit "a", 1%Z)] (lit "ab"))))
    (expr_dict (add (mkExpression [(lit "b", 5%Z); (lit "a", 1%Z)] (lit "ab"))
                    (mkExpression [(lit "a", 2%Z)] (lit "a")))).
Proof.
  refine (proj1 (add_commutative
                   (mkExpression [(lit "a", 2%Z)] (lit "a"))
                   (mkExpression [(lit "b", 5%Z); (lit "a", 1%Z)] (lit "ab"))
                   Z.add_comm _ _)).
  - repeat constructor; simpl; intuition discriminate.
  - repeat constructor; simpl; intuition discriminate.
Defined.

(** X6.  Adding the zero Expression [Expression("")] on either side returns
    a copy: the same entries in the same order, with the mode set computed
    afresh from the keys. *)
Theorem add_zero_is_copy {C : Type} `{Number C} (A : Expression C) :
  NoDup (keys (expr_dict A)) ->
  add A Expression_empty = mkExpression (expr_dict A) (find_modes (expr_dict A))
  /\ add Expression_empty A = mkExpression (expr_dict A) (find_modes (expr_dict A)).
Proof.
  intros HA.
  assert (E1 : expr_dict (add A Expression_empty) = expr_dict A).
  { rewrite add_dict. cbn [expr_dict Expression_empty add_expr_dicts fold_left].
    apply (copy_dict (expr_dict A) []). exact HA. }
  assert (E2 : expr_dict (add Expression_empty A) = expr_dict A).
  { rewrite add_dict. cbn [expr_dict Expression_empty fold_left].
    apply (add_expr_dicts_fresh (expr_dict A) []). exact HA. }
  split.
  - change (add A Expression_empty)
      with (mkExpression (expr_dict (add A Expression_empty))
              (find_modes (expr_dict (add A Expression_empty)))).
    rewrite E1. reflexivity.
  - change (add Expression_empty A)
      with (mkExpression (expr_dict (add Expression_empty A))
              (find_modes (expr_dict (add Expression_empty A)))).
    rewrite E2. reflexivity.
Qed.

Lemma add_zero_is_copy_witness :
  add (mkExpression [(lit "b", 5%Z); (lit "a", 1%Z)] []) Expression_empty
  = mkExpression [(lit "b", 5%Z); (lit "a", 1%Z)] (lit "ab").
Proof.
  refine (proj1 (add_zero_is_copy
                   (mkExpression [(lit "b", 5%Z); (lit "a", 1%Z)] []) _)).
  repeat constructor; simpl; intuition discriminate.
Defined.

(** X7.  [add_expr_dicts(dict1, dict2)] returns [dict1] updated: it keeps
    distinct keys, sums the coefficients on the keys the two share, and
    leaves the coefficient of every key that [dict2] lacks as it was. *)
Theorem add_expr_dicts_merges {C : Type} `{Number C} (dict1 dict2 : dict C) :
  NoDup (keys dict1) -> NoDup (keys dict2) ->
  NoDup (keys (add_expr_dicts dict1 dict2))
  /\ (forall key,
        dict_get (add_expr_dicts dict1 dict2) key
        = merge_coefficients (dict_get dict1 key) (dict_get dict2 key))
  /\ (forall key, In key (keys (add_expr_dicts dict1 dict2)) <->
                  In key (keys dict1) \/ In key (keys dict2)).
Proof.
  intros H1 H2. split; [apply add_expr_dicts_NoDup, H1 | split].
  - intros key. apply add_expr_dicts_get, H2.
  - intros key. apply keys_add_expr_dicts.
Qed.

Lemma add_expr_dicts_merges_witness :
  NoDup (keys (add_expr_dicts [(lit "a+_a", 1%Z)] [(lit "", 1%Z); (lit "a+_a", 3%Z)])).
Proof.
  refine (proj1 (add_expr_dicts_merges
                   [(lit "a+_a", 1%Z)] [(lit "", 1%Z); (lit "a+_a", 3%Z)] _ _)).
  - repeat constructor; simpl; intuition discriminate.
  - repeat constructor; simpl; intuition discriminate.
Defined.

(** ** Multiplication: edge cases, mode sets, recursion depth *)

Lemma sorted_set_of_spec (l : list ascii) :
  StronglySorted char_lt (sorted (set_of l))
  /\ forall c, In c (sorted (set_of l)) <-> In c l.
Proof.
  split.
  - apply StronglySorted_le_NoDup_lt; [apply sorted_StronglySorted|].
    eapply Permutation_NoDup; [symmetry; apply sorted_perm|].
    apply NoDup_nodup.
  - intros c. unfold set_of. rewrite <- (nodup_In ascii_dec l c). split.
    + apply Permutation_in, sorted_perm.
    + apply Permutation_in. symmetry. apply sorted_perm.
Qed.

Lemma for_each_mono {A S : Type} (body1 body2 : S -> A -> result S)
    (l : list A) :
  (forall s x r, body1 s x = Ok r -> body2 s x = Ok r) ->
  forall s r, for_each body1 l s = Ok r -> for_each body2 l s = Ok r.
Proof.
  intros Hb. induction l as [|x l IH]; intros s r; cbn [for_each]; [auto|].
  destruct (body1 s x) as [s'|] eqn:E; [|discriminate].
  rewrite (Hb _ _ _ E). cbn [bind]. apply IH.
Qed.

Section MultiplyEdges.

Context {C : Type} `{Number C}.

Lemma multiply_zero_right (depth : nat) (A : Expression C) :
  multiply depth A Expression_empty
  = Ok (mkExpression [] (sorted (set_of (modes A)))).
Proof.
  unfold multiply. cbn [expr_dict modes Expression_empty].
  change (find_modes (@nil (str * C))) with (@nil ascii).
  rewrite app_nil_r.
  assert (E : forall (l : dict C) acc,
    for_each
      (fun result_dict t1 =>
         for_each (fun result_dict t2 => multiply_terms depth result_dict t1 t2)
           [] result_dict) l acc = Ok acc).
  { induction l as [|x l IH]; intros acc; [reflexivity | apply IH]. }
  rewrite E. reflexivity.
Qed.

Lemma multiply_zero_left (depth : nat) (A : Expression C) :
  multiply depth Expression_empty A
  = Ok (mkExpression [] (sorted (set_of (modes A)))).
Proof. reflexivity. Qed.

Lemma find_modes_no_letters (s : str) (v : C) :
  (forall c, In c s -> isalpha c = false) -> find_modes [(s, v)] = [].
Proof.
  intros Hno. destruct (find_modes_spec [(s, v)]) as [_ Hin].
  destruct (find_modes [(s, v)]) as [|c l]; [reflexivity|].
  exfalso. destruct (proj1 (Hin c) (or_introl eq_refl)) as [Ha (k & Hk & Hc)].
  destruct Hk as [<- | []]. simpl in Hc. rewrite (Hno c Hc) in Ha. discriminate.
Qed.

Lemma hspace_organize_no_letters (s : str) :
  (forall c, In c s -> isalpha c = false) -> hspace_organize s = [].
Proof.
  intros Hno. unfold hspace_organize.
  rewrite (find_modes_no_letters s num_one Hno). reflexivity.
Qed.

Lemma multiply_terms_deeper (depth depth' : nat) (acc : dict C)
    (t1 t2 : str * C) (r : dict C) :
  depth <= depth' ->
  multiply_terms depth acc t1 t2 = Ok r ->
  multiply_terms depth' acc t1 t2 = Ok r.
Proof.
  intros Hle. destruct t1 as [term1 coeff1], t2 as [term2 coeff2].
  unfold multiply_terms.
  destruct (str_eqb term1 [] && str_eqb term2 []); [auto|].
  destruct (split_modes _) as [pieces|]; [|discriminate]. cbn [bind].
  match goal with
  | |- bind (for_each ?b1 pieces []) _ = _ ->
       bind (for_each ?b2 pieces []) _ = _ =>
      destruct (for_each b1 pieces []) as [temp|] eqn:E; [|discriminate];
      rewrite (for_each_mono b1 b2 pieces) with (r := temp); [auto | | exact E]
  end.
  intros temp' piece r'. destruct piece as [|mode rest]; [discriminate|].
  destruct (normal_ordering depth mode (mode :: rest) num_one) as [nd|] eqn:En;
    [|discriminate].
  rewrite (normal_ordering_deeper_le depth depth' _ _ _ _ Hle En). auto.
Qed.

Lemma multiply_deeper (depth depth' : nat) (A B R : Expression C) :
  depth <= depth' ->
  multiply depth A B = Ok R -> multiply depth' A B = Ok R.
Proof.
  intros Hle. unfold multiply.
  match goal with
  | |- bind (for_each ?b1 ?l ?s) _ = _ -> bind (for_each ?b2 ?l ?s) _ = _ =>
      destruct (for_each b1 l s) as [d|] eqn:E; [|discriminate];
      rewrite (for_each_mono b1 b2 l) with (r := d); [auto | | exact E]
  end.
  intros acc t1 r. apply for_each_mono.
  intros acc' t2 r'. apply multiply_terms_deeper, Hle.
Qed.

Lemma power_loop_deeper (depth depth' : nat) (expr : Expression C) (count : nat) :
  depth <= depth' ->
  forall res R,
    power_loop depth res expr count = Ok R ->
    power_loop depth' res expr count = Ok R.
Proof.
  intros Hle. induction count as [|count IH]; intros res R; cbn [power_loop]; [auto|].
  destruct (multiply depth res expr) as [res'|] eqn:E; [|discriminate].
  rewrite (multiply_deeper _ _ _ _ _ Hle E). cbn [bind]. apply IH.
Qed.

Lemma power_loop_last (depth : nat) (expr : Expression C) (count : nat) :
  forall res,
    power_loop depth res expr (S count)
    = (r <- power_loop depth res expr count ;; multiply depth r expr).
Proof.
  induction count as [|count IH]; intros res.
  - cbn [power_loop bind]. destruct (multiply depth res expr); reflexivity.
  - change (power_loop depth res expr (S (S count)))
      with (res' <- multiply depth res expr ;; power_loop depth res' expr (S count)).
    change (power_loop depth res expr (S count))
      with (res' <- multiply depth res expr ;; power_loop depth res' expr count).
    destruct (multiply depth res expr) as [res'|]; cbn [bind]; [apply IH | reflexivity].
Qed.

End MultiplyEdges.

(** X8.  Multiplying by the zero Expression [Expression("")], on either
    side, returns the zero dictionary at every recursion depth (the reducer
    is never called), and the result still carries the sorted mode set of
    the other operand. *)
Theorem multiply_by_zero {C : Type} `{Number C} (depth : nat) (A : Expression C) :
  multiply depth A Expression_empty
  = Ok (mkExpression [] (sorted (set_of (modes A))))
  /\ multiply depth Expression_empty A
     = Ok (mkExpression [] (sorted (set_of (modes A)))).
Proof. split; [apply multiply_zero_right | apply multiply_zero_left]. Qed.

(** X9.  A pair of terms whose keys contain no letter, and are not both the
    empty key, contributes nothing to a product: the result dictionary is
    left as it was, whatever the coefficients.  (Two empty keys multiply
    their coefficients; a key such as ["1"] is not the empty key.) *)
Theorem letterless_terms_vanish {C : Type} `{Number C} (depth : nat)
    (result_dict : dict C) (term1 term2 : str) (coeff1 coeff2 : C) :
  (forall c, In c term1 -> isalpha c = false) ->
  (forall c, In c term2 -> isalpha c = false) ->
  term1 <> [] \/ term2 <> [] ->
  multiply_terms depth result_dict (term1, coeff1) (term2, coeff2)
  = Ok result_dict.
Proof.
  intros H1 H2 Hne. unfold multiply_terms. cbv zeta.
  replace (str_eqb term1 [] && str_eqb term2 []) with false.
  - rewrite hspace_organize_no_letters; [reflexivity|].
    intros c Hc.
    apply in_app_or in Hc. destruct Hc as [Hc | [<- | Hc]]; auto.
  - symmetry. apply andb_false_iff.
    destruct Hne as [Hne | Hne]; [left | right]; apply str_eqb_neq; exact Hne.
Qed.

Lemma letterless_terms_vanish_witness :
  (one <- Expression_init decimal_literal (lit "1") ;; multiply 0 one one)
  = Ok (mkExpression [] [])
  /\ multiply_terms 0 [] (lit "1", 1%Z) (lit "1", 1%Z) = Ok [].
Proof.
  split; [reflexivity|].
  apply (letterless_terms_vanish 0 [] (lit "1") (lit "1") 1%Z 1%Z).
  - intros c [<- | []]. reflexivity.
  - intros c [<- | []]. reflexivity.
  - left. discriminate.
Defined.

(** X10.  The mode set of a product is the strictly ascending list of the
    modes of the two operands, taken from their [modes] attributes and not
    from the keys of the product. *)
Theorem multiply_modes {C : Type} `{Number C} (depth : nat)
    (A B R : Expression C) :
  multiply depth A B = Ok R ->
  modes R = sorted (set_of (modes A ++ modes B))
  /\ StronglySorted char_lt (modes R)
  /\ forall c, In c (modes R) <-> In c (modes A) \/ In c (modes B).
Proof.
  unfold multiply. destruct (for_each _ _ _) as [d|]; [|discriminate].
  cbn [bind]. intros E. inversion E; subst; clear E. cbn [modes].
  destruct (sorted_set_of_spec (modes A ++ modes B)) as [Hs Hin].
  split; [reflexivity | split; [exact Hs|]].
  intros c. rewrite Hin. apply in_app_iff.
Qed.

Lemma multiply_modes_witness :
  multiply 1
    (mkExpression [(lit "b", 1%Z)] (lit "b"))
    (mkExpression [(lit "a+", 1%Z)] (lit "a"))
  = Ok (mkExpression [(lit "a+_b", 1%Z)] (lit "ab"))
  /\ StronglySorted char_lt (lit "ab").
Proof.
  assert (E : multiply 1
                (mkExpression [(lit "b", 1%Z)] (lit "b"))
                (mkExpression [(lit "a+", 1%Z)] (lit "a"))
              = Ok (mkExpression [(lit "a+_b", 1%Z)] (lit "ab"))) by reflexivity.
  split; [exact E|].
  exact (proj1 (proj2 (multiply_modes 1 _ _ _ E))).
Defined.

(** X11.  When the mode sets of the operands are the ones derived from their
    keys, the sum and the product of two Expressions have the same mode
    set. *)
Theorem add_and_multiply_modes_agree {C : Type} `{Number C} (depth : nat)
    (A B R : Expression C) :
  modes A = find_modes (expr_dict A) ->
  modes B = find_modes (expr_dict B) ->
  multiply depth A B = Ok R ->
  modes (add A B) = modes R.
Proof.
  intros HA HB E. unfold multiply in E.
  destruct (for_each _ _ _) as [d|]; [|discriminate].
  cbn [bind] in E. inversion E; subst; clear E. cbn [modes].
  destruct (sorted_set_of_spec (modes A ++ modes B)) as [Hs Hin].
  change (modes (add A B)) with (find_modes (expr_dict (add A B))).
  destruct (find_modes_spec (expr_dict (add A B))) as [Hs' Hin'].
  apply StronglySorted_lt_unique; [exact Hs' | exact Hs|].
  intros c. rewrite Hin, Hin', in_app_iff, HA, HB.
  destruct (find_modes_spec (expr_dict A)) as [_ HinA].
  destruct (find_modes_spec (expr_dict B)) as [_ HinB].
  rewrite HinA, HinB. split.
  - intros [Ha (k & Hk & Hc)]. apply keys_add in Hk.
    destruct Hk as [Hk | Hk]; [left | right]; eauto.
  - intros [[Ha (k & Hk & Hc)] | [Ha (k & Hk & Hc)]];
      (split; [exact Ha | exists k; split; [apply keys_add; auto | exact Hc]]).
Qed.

Lemma add_and_multiply_modes_agree_witness :
  modes (add (mkExpression [(lit "b", 1%Z)] (lit "b"))
             (mkExpression [(lit "a+", 1%Z)] (lit "a")))
  = lit "ab".
Proof.
  exact (add_and_multiply_modes_agree 1
           (mkExpression [(lit "b", 1%Z)] (lit "b"))
           (mkExpression [(lit "a+", 1%Z)] (lit "a"))
           (mkExpression [(lit "a+_b", 1%Z)] (lit "ab"))
           eq_refl eq_refl eq_refl).
Defined.

(** X12.  The recursion depth only decides whether [multiply] and [power]
    return: once they return at some depth, they return the same Expression
    at every greater depth. *)
Theorem result_independent_of_depth {C : Type} `{Number C} (depth depth' : nat)
    (A B R : Expression C) (exponent : Z) (P : Expression C) :
  depth <= depth' ->
  (multiply depth A B = Ok R -> multiply depth' A B = Ok R)
  /\ (power depth A exponent = Ok P -> power depth' A exponent = Ok P).
Proof.
  intros Hle. split.
  - apply multiply_deeper, Hle.
  - unfold power. apply power_loop_deeper, Hle.
Qed.

Lemma result_independent_of_depth_witness :
  multiply 7
    (mkExpression [(lit "a", 1%Z)] (lit "a"))
    (mkExpression [(lit "a+", 1%Z)] (lit "a"))
  = Ok (mkExpression [(lit "a+_a", 1%Z); (lit "", 1%Z)] (lit "a")).
Proof.
  refine (proj1 (result_independent_of_depth 2 7
                   (mkExpression [(lit "a", 1%Z)] (lit "a"))
                   (mkExpression [(lit "a+", 1%Z)] (lit "a"))
                   _ 1%Z (mkExpression [(lit "a", 1%Z)] (lit "a")) _) eq_refl).
  lia.
Defined.

(** X13.  [power]: an exponent of 1 or less (0 and negative exponents
    included) returns the Expression itself, not the constant 1; each
    further unit of the exponent multiplies once more on the right. *)
Theorem power_unrolls {C : Type} `{Number C} (depth : nat) (A : Expression C)
    (exponent : Z) :
  ((exponent <= 1)%Z -> power depth A exponent = Ok A)
  /\ ((1 <= exponent)%Z ->
      power depth A (exponent + 1)
      = (r <- power depth A exponent ;; multiply depth r A)).
Proof.
  unfold power. split; intros He.
  - replace (Z.to_nat (exponent - 1)) with 0 by lia. reflexivity.
  - replace (Z.to_nat (exponent + 1 - 1)) with (S (Z.to_nat (exponent - 1)))
      by lia.
    apply power_loop_last.
Qed.

Lemma power_unrolls_witness :
  power 0 (mkExpression [(lit "a", 2%Z)] (lit "a")) 0
  = Ok (mkExpression [(lit "a", 2%Z)] (lit "a"))
  /\ power 3 (mkExpression [(lit "a", 2%Z)] (lit "a")) (2 + 1)
     = (r <- power 3 (mkExpression [(lit "a", 2%Z)] (lit "a")) 2 ;;
        multiply 3 r (mkExpression [(lit "a", 2%Z)] (lit "a"))).
Proof.
  split.
  - apply (proj1 (power_unrolls 0 (mkExpression [(lit "a", 2%Z)] (lit "a")) 0)).
    lia.
  - apply (proj2 (power_unrolls 3 (mkExpression [(lit "a", 2%Z)] (lit "a")) 2)).
    lia.
Defined.

(** ** Scalar multiplication and addition *)

Section Scalar.

Context {C : Type} `{Number C}.

Lemma dict_get_map_values (g : C -> C) (d : dict C) (k : str) :
  dict_get (map (fun kv => (fst kv, g (snd kv))) d) k
  = option_map g (dict_get d k).
Proof.
  induction d as [|[k0 v0] d IH]; [reflexivity|].
  simpl. destruct (str_eqb k0 k); [reflexivity | exact IH].
Qed.

Lemma keys_map_values (g : C -> C) (d : dict C) :
  keys (map (fun kv => (fst kv, g (snd kv))) d) = keys d.
Proof. unfold keys. rewrite map_map. reflexivity. Qed.

Lemma scalar_multiply_get (e : Expression C) (scalar : C) (k : str) :
  NoDup (keys (expr_dict e)) ->
  dict_get (expr_dict (scalar_multiply e scalar)) k
  = option_map (fun v => num_mul v scalar) (dict_get (expr_dict e) k).
Proof.
  intros Hnd. rewrite scalar_multiply_dict by exact Hnd.
  apply (dict_get_map_values (fun v => num_mul v scalar)).
Qed.

Lemma scalar_multiply_NoDup (e : Expression C) (scalar : C) :
  NoDup (keys (expr_dict e)) ->
  NoDup (keys (expr_dict (scalar_multiply e scalar))).
Proof.
  intros Hnd. rewrite scalar_multiply_dict by exact Hnd.
  rewrite (keys_map_values (fun v => num_mul v scalar)). exact Hnd.
Qed.

End Scalar.

(** X14.  Scalar multiplication distributes over addition when the
    coefficient arithmetic does: scaling a sum and summing the scaled
    operands give the same coefficient at every key. *)
Theorem scalar_multiply_distributes {C : Type} `{Number C}
    (A B : Expression C) (scalar : C) :
  (forall x y s : C, num_mul (num_add x y) s = num_add (num_mul x s) (num_mul y s)) ->
  NoDup (keys (expr_dict A)) -> NoDup (keys (expr_dict B)) ->
  dict_equal (expr_dict (scalar_multiply (add A B) scalar))
             (expr_dict (add (scalar_multiply A scalar) (scalar_multiply B scalar))).
Proof.
  intros Hdist HA HB k.
  rewrite scalar_multiply_get by (apply add_NoDup, HA).
  rewrite !add_get by (auto using scalar_multiply_NoDup).
  rewrite !scalar_multiply_get by assumption.
  destruct (dict_get (expr_dict A) k), (dict_get (expr_dict B) k);
    simpl; try reflexivity.
  rewrite Hdist. reflexivity.
Qed.

Lemma scalar_multiply_distributes_witness :
  dict_equal
    (expr_dict (scalar_multiply
                  (add (mkExpression [(lit "a", 2%Z)] (lit "a"))
                       (mkExpression [(lit "b", 5%Z); (lit "a", 1%Z)] (lit "ab")))
                  3%Z))
    (expr_dict (add (scalar_multiply (mkExpression [(lit "a", 2%Z)] (lit "a")) 3%Z)
                    (scalar_multiply
                       (mkExpression [(lit "b", 5%Z); (lit "a", 1%Z)] (lit "ab"))
                       3%Z))).
Proof.
  refine (scalar_multiply_distributes
            (mkExpression [(lit "a", 2%Z)] (lit "a"))
            (mkExpression [(lit "b", 5%Z); (lit "a", 1%Z)] (lit "ab"))
            3%Z Z.mul_add_distr_r _ _).
  - repeat constructor; simpl; intuition discriminate.
  - repeat constructor; simpl; intuition discriminate.
Defined.

(** ** Keys determine token sequences *)

Lemma sep_key_inj_step (r1 r2 : list token) :
  (term_key r1 = term_key r2 -> r1 = r2) ->
  sep_key r1 = sep_key r2 -> r1 = r2.
Proof.
  intros IH E. destruct r1 as [|t1 r1], r2 as [|t2 r2];
    [reflexivity | discriminate E | discriminate E |].
  apply IH.
  change (sep_key (t1 :: r1)) with ("_"%char :: term_key (t1 :: r1)) in E.
  change (sep_key (t2 :: r2)) with ("_"%char :: term_key (t2 :: r2)) in E.
  injection E as E. exact E.
Qed.

Lemma term_key_injective (ts1 ts2 : list token) :
  wf_tokens ts1 -> wf_tokens ts2 -> term_key ts1 = term_key ts2 -> ts1 = ts2.
Proof.
  revert ts2. induction ts1 as [|t1 r1 IH]; intros ts2 H1 H2 E.
  - destruct ts2 as [|t2 r2]; [reflexivity|].
    destruct (term_key_head t2 r2) as [s Hs]. rewrite Hs in E. discriminate E.
  - destruct ts2 as [|t2 r2].
    + destruct (term_key_head t1 r1) as [s Hs]. rewrite Hs in E. discriminate E.
    + assert (Hr2 : wf_tokens r2) by (inversion H2; assumption).
      assert (Hr1 : wf_tokens r1) by (inversion H1; assumption).
      rewrite !term_key_cons in E.
      destruct t1 as [m1 b1], t2 as [m2 b2]. unfold token_str in E.
      cbn [fst snd] in E. inversion E as [[Em E']]. subst m2.
      assert (Hsep : forall r : list token,
                sep_key r = [] \/ exists s, sep_key r = "_"%char :: s).
      { intros [|t r]; [left; reflexivity | right; eexists; reflexivity]. }
      destruct b1, b2; cbn [app lit String.list_ascii_of_string] in E'.
      * inversion E' as [E'']. f_equal.
        apply sep_key_inj_step; [apply IH; assumption | exact E''].
      * exfalso. destruct (Hsep r2) as [E2 | [s E2]]; rewrite E2 in E';
          discriminate E'.
      * exfalso. destruct (Hsep r1) as [E1 | [s E1]]; rewrite E1 in E';
          discriminate E'.
      * f_equal. apply sep_key_inj_step; [apply IH; assumption | exact E'].
Qed.

(** ** The shape of a normal-ordered result *)

Lemma creations_shape (p q : nat) :
  creations (repeat true p ++ repeat false q) = p.
Proof.
  rewrite creations_app. unfold creations.
  rewrite count_occ_repeat_eq by reflexivity.
  rewrite count_occ_repeat_neq by discriminate. lia.
Qed.

Lemma annihilations_app (a b : list bool) :
  annihilations (a ++ b) = annihilations a + annihilations b.
Proof. apply count_occ_app. Qed.

Lemma annihilations_shape (p q : nat) :
  annihilations (repeat true p ++ repeat false q) = q.
Proof.
  rewrite annihilations_app. unfold annihilations.
  rewrite count_occ_repeat_neq by discriminate.
  rewrite count_occ_repeat_eq by reflexivity. lia.
Qed.

Lemma single_mode_injective (m : ascii) (bs1 bs2 : list bool) :
  single_mode m bs1 = single_mode m bs2 -> bs1 = bs2.
Proof.
  revert bs2; induction bs1 as [|b bs1 IH]; intros [|b2 bs2] E;
    try discriminate E; [reflexivity|].
  simpl in E. inversion E. f_equal. apply IH. assumption.
Qed.

Section Shape.

Context {C : Type} `{Number C}.

Variable mode : ascii.
Hypothesis Hmode : isalpha mode = true.

Lemma shape_key_injective (p q p' q' : nat) :
  shape_key mode p q = shape_key mode p' q' -> p + q = p' + q'.
Proof.
  intros E. apply term_key_injective in E; try apply wf_single_mode, Hmode.
  apply single_mode_injective in E.
  apply (f_equal (@length bool)) in E.
  rewrite !length_app, !repeat_length in E. exact E.
Qed.

Lemma normal_ordering_shape (c : C) :
  forall (n : nat) (bs : list bool),
    inversions bs < n ->
    exists d,
      (forall depth, n <= depth ->
         normal_ordering depth mode (term_key (single_mode mode bs)) c = Ok d)
      /\ (forall k, In k (keys d) ->
            exists j, j <= creations bs /\ j <= annihilations bs
                      /\ k = shape_key mode (creations bs - j) (annihilations bs - j))
      /\ dict_get d (shape_key mode (creations bs) (annihilations bs)) = Some c.
Proof.
  induction n as [|n IH]; intros bs Hlt; [lia|].
  destruct (split_D bs) as [[l r]|] eqn:E.
  - destruct (commutation_step mode Hmode bs l r E) as (idx & Hf & Hn & H1).
    pose proof (split_D_app _ _ _ E) as Hbs.
    pose proof (inversions_step_n l r) as Hin.
    pose proof (inversions_step_1 l r) as Hi1.
    rewrite <- Hbs in Hin, Hi1.
    destruct (IH (l ++ true :: false :: r)) as (d1 & Hd1 & Hk1 & Hg1); [lia|].
    destruct (IH (l ++ r)) as (d2 & Hd2 & Hk2 & Hg2); [lia|].
    assert (Hc1 : creations (l ++ true :: false :: r) = creations bs)
      by (rewrite Hbs, !creations_app; reflexivity).
    assert (Ha1 : annihilations (l ++ true :: false :: r) = annihilations bs)
      by (rewrite Hbs, !annihilations_app; reflexivity).
    assert (Hc2 : S (creations (l ++ r)) = creations bs)
      by (rewrite Hbs, !creations_app;
          change (creations (false :: true :: r)) with (S (creations r)); lia).
    assert (Ha2 : S (annihilations (l ++ r)) = annihilations bs)
      by (rewrite Hbs, !annihilations_app;
          change (annihilations (false :: true :: r)) with (S (annihilations r));
          lia).
    rewrite Hc1, Ha1 in Hk1, Hg1.
    exists (add_expr_dicts d1 d2). split; [|split].
    + intros [|depth] Hle; [lia|]. cbn [normal_ordering].
      rewrite Hf, Hn, H1, Hd1, Hd2 by lia. reflexivity.
    + intros k Hk. apply keys_add_expr_dicts in Hk. destruct Hk as [Hk | Hk].
      * apply Hk1, Hk.
      * destruct (Hk2 k Hk) as (j & Hj1 & Hj2 & ->).
        exists (S j). split; [lia | split; [lia|]].
        f_equal; lia.
    + rewrite add_expr_dicts_get_absent; [exact Hg1|].
      intros Hin'. destruct (Hk2 _ Hin') as (j & Hj1 & Hj2 & Ej).
      apply shape_key_injective in Ej. lia.
  - pose proof (split_D_none bs E) as (p & q & Ebs).
    assert (Hc : creations bs = p) by (rewrite Ebs; apply creations_shape).
    assert (Ha : annihilations bs = q) by (rewrite Ebs; apply annihilations_shape).
    exists [(term_key (single_mode mode bs), c)]. split; [|split].
    + intros [|depth] Hle; [lia|]. cbn [normal_ordering].
      rewrite (find_normal_ordered mode Hmode bs E). reflexivity.
    + intros k [<- | []]. exists 0. split; [lia | split; [lia|]].
      rewrite !Nat.sub_0_r, Hc, Ha. unfold shape_key. rewrite <- Ebs. reflexivity.
    + rewrite Hc, Ha. unfold shape_key. rewrite <- Ebs.
      cbn [dict_get]. rewrite str_eqb_refl. reflexivity.
Qed.

Lemma normal_ordering_shape_result (c : C) (bs : list bool) (depth : nat)
    (d : dict C) :
  normal_ordering depth mode (term_key (single_mode mode bs)) c = Ok d ->
  (forall k, In k (keys d) ->
     exists j, j <= creations bs /\ j <= annihilations bs
               /\ k = shape_key mode (creations bs - j) (annihilations bs - j))
  /\ dict_get d (shape_key mode (creations bs) (annihilations bs)) = Some c.
Proof.
  intros Hd.
  destruct (normal_ordering_shape c (S (inversions bs)) bs) as (d0 & Hd0 & Hk & Hg);
    [lia|].
  assert (d = d0).
  { pose proof (normal_ordering_deeper_le depth (depth + S (inversions bs))
                  mode _ c d ltac:(lia) Hd) as E1.
    rewrite Hd0 in E1 by lia. congruence. }
  subst d. split; assumption.
Qed.

End Shape.

(** X15.  Normal ordering conserves the excess of creation over annihilation
    tokens: every key of the result of [normal_ordering] on a single-mode
    term with [p] creation and [q] annihilation tokens is the fully ordered
    key with [p - j] creation tokens followed by [q - j] annihilation
    tokens, for some [j] at most [min p q]. *)
Theorem normal_ordering_conserves_excess {C : Type} `{Number C}
    (mode : ascii) (bs : list bool) (coeff : C) (depth : nat) (d : dict C)
    (key : str) :
  isalpha mode = true ->
  normal_ordering depth mode (term_key (single_mode mode bs)) coeff = Ok d ->
  In key (keys d) ->
  exists j,
    j <= creations bs /\ j <= annihilations bs
    /\ key = term_key (single_mode mode
                         (repeat true (creations bs - j)
                          ++ repeat false (annihilations bs - j))).
Proof.
  intros Hm Hd Hin.
  exact (proj1 (normal_ordering_shape_result mode Hm coeff bs depth d Hd) key Hin).
Qed.

Lemma normal_ordering_conserves_excess_witness :
  exists j,
    j <= creations [false; false; true] /\ j <= annihilations [false; false; true]
    /\ lit "a"
       = term_key (single_mode "a"
                     (repeat true (creations [false; false; true] - j)
                      ++ repeat false (annihilations [false; false; true] - j))).
Proof.
  refine (normal_ordering_conserves_excess "a" [false; false; true] 1%Z 3
            [(lit "a+_a_a", 1%Z); (lit "a", 2%Z)] (lit "a") eq_refl eq_refl _).
  right; left; reflexivity.
Defined.

(** X16.  The leading term keeps its coefficient: the result of
    [normal_ordering] always contains the fully ordered key with all the
    tokens of the input (creations first), and its coefficient is exactly
    the coefficient passed in. *)
Theorem normal_ordering_leading_term {C : Type} `{Number C}
    (mode : ascii) (bs : list bool) (coeff : C) (depth : nat) (d : dict C) :
  isalpha mode = true ->
  normal_ordering depth mode (term_key (single_mode mode bs)) coeff = Ok d ->
  dict_get d (term_key (single_mode mode
                          (repeat true (creations bs)
                           ++ repeat false (annihilations bs))))
  = Some coeff.
Proof.
  intros Hm Hd.
  exact (proj2 (normal_ordering_shape_result mode Hm coeff bs depth d Hd)).
Qed.

Lemma normal_ordering_leading_term_witness :
  dict_get [(lit "a+_a_a", 5%Z); (lit "a", 10%Z)] (lit "a+_a_a") = Some 5%Z.
Proof.
  exact (normal_ordering_leading_term "a" [false; false; true] 5%Z 3
           [(lit "a+_a_a", 5%Z); (lit "a", 10%Z)] eq_refl eq_refl).
Defined.

(** X17.  [normal_ordering] is idempotent on its results: applied again to
    any key it has returned, with any coefficient and any positive depth,
    it returns that key alone with that coefficient. *)
Theorem normal_ordering_idempotent {C : Type} `{Number C}
    (mode : ascii) (bs : list bool) (coeff coeff' : C) (depth depth' : nat)
    (d : dict C) (key : str) :
  isalpha mode = true ->
  normal_ordering depth mode (term_key (single_mode mode bs)) coeff = Ok d ->
  In key (keys d) ->
  normal_ordering (S depth') mode key coeff' = Ok [(key, coeff')].
Proof.
  intros Hm Hd Hin.
  destruct (normal_ordering_single_mode mode coeff Hm (S (inversions bs)) bs)
    as (d0 & Hd0 & _ & Hk0); [lia|].
  assert (d = d0).
  { pose proof (normal_ordering_deeper_le depth (depth + S (inversions bs))
                  mode _ coeff d ltac:(lia) Hd) as E1.
    rewrite Hd0 in E1 by lia. congruence. }
  subst d. destruct (Hk0 key Hin) as (bs' & -> & Hno & _).
  cbn [normal_ordering].
  rewrite (find_normal_ordered mode Hm bs' (normal_ordered_split_D bs' Hno)).
  reflexivity.
Qed.

Lemma normal_ordering_idempotent_witness :
  normal_ordering 1 "a"%char (lit "a+_a_a") 7%Z = Ok [(lit "a+_a_a", 7%Z)].
Proof.
  refine (normal_ordering_idempotent "a" [false; false; true] 1%Z 7%Z 3 0
            [(lit "a+_a_a", 1%Z); (lit "a", 2%Z)] (lit "a+_a_a")
            eq_refl eq_refl _).
  left; reflexivity.
Defined.

(** ** The Hilbert-space organiser as a stable regrouping *)

Lemma StronglySorted_app {A : Type} (R : A -> A -> Prop) (a b : list A) :
  StronglySorted R a -> StronglySorted R b ->
  (forall x y, In x a -> In y b -> R x y) ->
  StronglySorted R (a ++ b).
Proof.
  induction 1 as [|x a Ha IH Hx]; intros Hb Hab; [exact Hb|].
  cbn [app]. constructor.
  - apply IH; [exact Hb|]. intros; apply Hab; [right|]; assumption.
  - apply Forall_app. split; [exact Hx|].
    apply Forall_forall. intros y Hy. apply Hab; [left; reflexivity | exact Hy].
Qed.

Lemma mode_group_letters (m : ascii) (ts : list token) (t : token) :
  In t (mode_group m ts) -> fst t = m /\ In t ts.
Proof.
  intros Hin. apply filter_In in Hin. destruct Hin as [Hin E].
  apply Ascii.eqb_eq in E. auto.
Qed.

Lemma mode_group_other (m m' : ascii) (ts : list token) :
  m <> m' -> mode_group m (mode_group m' ts) = [].
Proof.
  intros N. induction ts as [|t ts IH]; [reflexivity|].
  unfold mode_group in *. cbn [filter].
  destruct (Ascii.eqb (fst t) m') eqn:E; [|exact IH].
  cbn [filter]. apply Ascii.eqb_eq in E.
  destruct (Ascii.eqb (fst t) m) eqn:E'; [|exact IH].
  apply Ascii.eqb_eq in E'. congruence.
Qed.

Lemma mode_group_same (m : ascii) (ts : list token) :
  mode_group m (mode_group m ts) = mode_group m ts.
Proof.
  induction ts as [|t ts IH]; [reflexivity|].
  unfold mode_group in *. cbn [filter].
  destruct (Ascii.eqb (fst t) m) eqn:E; [|exact IH].
  cbn [filter]. rewrite E, IH. reflexivity.
Qed.

Lemma mode_group_absent (m : ascii) (ts : list token) :
  ~ In m (map fst ts) -> mode_group m ts = [].
Proof.
  intros Hn. induction ts as [|t ts IH]; [reflexivity|].
  unfold mode_group in *. cbn [filter].
  destruct (Ascii.eqb (fst t) m) eqn:E.
  - exfalso. apply Hn. left. apply Ascii.eqb_eq, E.
  - apply IH. intros Hin. apply Hn. right; exact Hin.
Qed.

Lemma mode_group_organize (ms : list ascii) (ts : list token) (m : ascii) :
  NoDup ms -> (forall c, In c (map fst ts) -> In c ms) ->
  mode_group m (organize ms ts) = mode_group m ts.
Proof.
  intros Hnd Hcover.
  destruct (in_dec ascii_dec m ms) as [Hin | Hnin].
  - clear Hcover. induction Hnd as [|m' ms Hnin' Hnd IH]; [destruct Hin|].
    unfold organize. cbn [flat_map]. rewrite mode_group_app.
    fold (organize ms ts). destruct Hin as [-> | Hin].
    + rewrite mode_group_same.
      replace (mode_group m (organize ms ts)) with (@nil token);
        [apply app_nil_r|].
      symmetry. apply mode_group_absent. intros Hl.
      apply organize_letters in Hl. destruct Hl as [Hl _]. contradiction.
    + rewrite mode_group_other by (intros ->; contradiction).
      apply IH, Hin.
  - rewrite (mode_group_absent m ts) by (intros Hl; apply Hnin, Hcover, Hl).
    apply mode_group_absent. intros Hl.
    apply organize_letters in Hl. destruct Hl as [Hl _]. contradiction.
Qed.

Lemma organize_cons_perm (ms : list ascii) (t : token) (ts : list token) :
  NoDup ms -> In (fst t) ms ->
  Permutation (organize ms (t :: ts)) (t :: organize ms ts).
Proof.
  induction 1 as [|m ms Hnin Hnd IH]; intros Hin; [destruct Hin|].
  unfold organize. cbn [flat_map]. fold (organize ms (t :: ts)) (organize ms ts).
  unfold mode_group at 1. cbn [filter]. fold (mode_group m ts).
  destruct (Ascii.eqb (fst t) m) eqn:E.
  - apply Ascii.eqb_eq in E. cbn [app]. constructor.
    apply Permutation_app_head.
    assert (Hsame : organize ms (t :: ts) = organize ms ts).
    { unfold organize. clear IH Hnd Hin. induction ms as [|m' ms IHms]; [reflexivity|].
      cbn [flat_map]. rewrite IHms by (intros Hx; apply Hnin; right; exact Hx).
      unfold mode_group at 1. cbn [filter].
      destruct (Ascii.eqb (fst t) m') eqn:E'; [|reflexivity].
      apply Ascii.eqb_eq in E'. exfalso. apply Hnin. left. congruence. }
    rewrite Hsame. reflexivity.
  - destruct Hin as [Hin | Hin].
    + subst m. rewrite (proj2 (Ascii.eqb_eq (fst t) (fst t)) eq_refl) in E.
      discriminate.
    + rewrite (IH Hin). symmetry. apply Permutation_middle.
Qed.

Lemma organize_perm (ms : list ascii) (ts : list token) :
  NoDup ms -> (forall c, In c (map fst ts) -> In c ms) ->
  Permutation (organize ms ts) ts.
Proof.
  intros Hnd. induction ts as [|t ts IH]; intros Hcover.
  - unfold organize. clear Hnd Hcover. induction ms as [|m ms IHms]; [reflexivity|].
    cbn [flat_map]. exact IHms.
  - rewrite organize_cons_perm; [|exact Hnd | apply Hcover; left; reflexivity].
    constructor. apply IH. intros c Hc. apply Hcover. right; exact Hc.
Qed.

Lemma mode_group_sorted (m : ascii) (ts : list token) :
  StronglySorted char_le (map fst (mode_group m ts)).
Proof.
  induction ts as [|t ts IHts]; [constructor|].
  unfold mode_group in *. cbn [filter].
  destruct (Ascii.eqb (fst t) m) eqn:E; [|exact IHts].
  cbn [map]. constructor; [exact IHts|].
  apply Forall_forall. intros y Hy. apply in_map_iff in Hy.
  destruct Hy as (t' & <- & Ht'). apply mode_group_letters in Ht'.
  apply Ascii.eqb_eq in E. destruct Ht' as [-> _]. rewrite E.
  unfold char_le. lia.
Qed.

Lemma organize_sorted (ms : list ascii) (ts : list token) :
  StronglySorted char_lt ms ->
  StronglySorted char_le (map fst (organize ms ts)).
Proof.
  induction 1 as [|m ms Hs IH Hm]; [constructor|].
  unfold organize. cbn [flat_map]. rewrite map_app. fold (organize ms ts).
  apply StronglySorted_app; [apply mode_group_sorted | exact IH|].
  intros x y Hx Hy. apply in_map_iff in Hx. destruct Hx as (t & <- & Ht).
    apply mode_group_letters in Ht. destruct Ht as [-> _].
    apply organize_letters in Hy. destruct Hy as [Hy _].
    rewrite Forall_forall in Hm. specialize (Hm y Hy).
    unfold char_lt in Hm. unfold char_le. lia.
Qed.

Section OrganizerKey.

Context {C : Type} `{Number C}.

Lemma split_key (ts : list token) :
  wf_tokens ts -> split (term_key ts) (lit "_") = operators_of ts.
Proof.
  intros Hwf. destruct ts as [|t ts]; [reflexivity|].
  apply split_term_key; [exact Hwf | discriminate].
Qed.

Lemma hspace_organize_key (ts : list token) :
  wf_tokens ts ->
  hspace_organize (term_key ts)
  = term_key (organize (find_modes [(term_key ts, num_one)]) ts).
Proof.
  intros Hwf. unfold hspace_organize. rewrite split_key by exact Hwf.
  set (ms := find_modes _).
  assert (Hms : forall m, In m ms -> isalpha m = true).
  { intros m Hm. subst ms.
    destruct (find_modes_letters _ num_one ts
                (fun c => letters_of_term_key ts c Hwf)) as [_ Hin].
    apply Hin in Hm. eapply wf_tokens_letters; eauto. }
  assert (G : forall acc,
    fold_left
      (fun organized_term mode =>
         fold_left
           (fun organized_term operator =>
              if char_in mode operator
              then organized_term ++ operator ++ lit "_"
              else organized_term)
           (operators_of ts) organized_term)
      ms acc
    = acc ++ key_sep (organize ms ts)).
  { clear -Hms. induction ms as [|m ms IH]; intros acc.
    - simpl. rewrite app_nil_r. reflexivity.
    - cbn [fold_left]. rewrite IH by (intros; apply Hms; right; assumption).
      rewrite hspace_inner_fold by (apply Hms; left; reflexivity).
      rewrite <- !concat_tokens_key_sep. unfold organize. cbn [flat_map].
      rewrite !map_app, !concat_app, <- !app_assoc. reflexivity. }
  rewrite G. apply removelast_key_sep.
Qed.

Lemma find_modes_key (ts : list token) :
  wf_tokens ts ->
  StronglySorted char_lt (find_modes [(term_key ts, num_one)])
  /\ forall c, In c (find_modes [(term_key ts, num_one)]) <-> In c (map fst ts).
Proof.
  intros Hwf.
  apply (find_modes_letters _ num_one ts (fun c => letters_of_term_key ts c Hwf)).
Qed.

Lemma find_modes_organized (ms : list ascii) (ts : list token) :
  wf_tokens ts -> StronglySorted char_lt ms ->
  (forall c, In c ms <-> In c (map fst ts)) ->
  find_modes [(term_key (organize ms ts), num_one)] = ms.
Proof.
  intros Hwf Hs Hin.
  destruct (find_modes_key (organize ms ts) (organize_wf ms ts Hwf)) as [Hs' Hin'].
  apply StronglySorted_lt_unique; [exact Hs' | exact Hs|].
  intros c. rewrite Hin', organize_letters, <- Hin. tauto.
Qed.

End OrganizerKey.

(** X18.  [hspace_organize] on the key of a token sequence is a stable
    regrouping: the result is the key of a permutation of the tokens in
    which the modes are in ascending order and the tokens of each mode keep
    their relative order; organising an organised key changes nothing. *)
Theorem hspace_organize_stable_regrouping {C : Type} `{Number C}
    (ts : list token) :
  wf_tokens ts ->
  exists ts',
    @hspace_organize C _ (term_key ts) = term_key ts'
    /\ Permutation ts' ts
    /\ StronglySorted char_le (map fst ts')
    /\ (forall m, mode_group m ts' = mode_group m ts)
    /\ @hspace_organize C _ (term_key ts') = term_key ts'.
Proof.
  intros Hwf.
  destruct (@find_modes_key C _ ts Hwf) as [Hs Hin].
  set (ms := find_modes [(term_key ts, num_one)]) in *.
  assert (Hnd : NoDup ms) by (apply StronglySorted_lt_NoDup, Hs).
  assert (Hcover : forall c, In c (map fst ts) -> In c ms)
    by (intros c; apply Hin).
  exists (organize ms ts). split; [|split; [|split; [|split]]].
  - subst ms. apply hspace_organize_key, Hwf.
  - apply organize_perm; assumption.
  - apply organize_sorted, Hs.
  - intros m. apply mode_group_organize; assumption.
  - rewrite hspace_organize_key by (apply organize_wf, Hwf).
    rewrite (find_modes_organized ms ts Hwf Hs Hin). f_equal.
    unfold organize at 1. unfold organize at 2.
    rewrite !flat_map_concat_map. f_equal.
    apply map_ext_in. intros m Hm. apply mode_group_organize; assumption.
Qed.

Lemma hspace_organize_stable_regrouping_witness :
  exists ts',
    @hspace_organize Z _ (lit "a_b+_a+_b") = term_key ts'
    /\ Permutation ts'
         [("a"%char, false); ("b"%char, true); ("a"%char, true); ("b"%char, false)]
    /\ StronglySorted char_le (map fst ts')
    /\ (forall m,
          mode_group m ts'
          = mode_group m
              [("a"%char, false); ("b"%char, true); ("a"%char, true);
               ("b"%char, false)])
    /\ @hspace_organize Z _ (term_key ts') = term_key ts'.
Proof.
  apply (@hspace_organize_stable_regrouping Z _
           [("a"%char, false); ("b"%char, true); ("a"%char, true);
            ("b"%char, false)]).
  repeat constructor.
Defined.

(** ** Splitting by mode and joining back *)

Lemma join_pieces (gs : list (list token)) (prev : list token) :
  wf_tokens prev -> Forall wf_tokens gs ->
  fold_left (fun acc piece => clean_string (acc ++ lit "_" ++ piece))
    (map term_key gs) (term_key prev)
  = term_key (prev ++ concat gs).
Proof.
  intros Hp Hgs. revert prev Hp.
  induction Hgs as [|g gs Hg Hgs IH]; intros prev Hp.
  - simpl. rewrite app_nil_r. reflexivity.
  - cbn [map fold_left concat]. rewrite clean_string_join by assumption.
    rewrite IH by (apply wf_tokens_app; split; assumption).
    rewrite <- app_assoc. reflexivity.
Qed.

Lemma mode_group_wf (m : ascii) (ts : list token) :
  wf_tokens ts -> wf_tokens (mode_group m ts).
Proof.
  intros Hwf. unfold wf_tokens in *. rewrite Forall_forall in *.
  intros t Ht. apply mode_group_letters in Ht. apply Hwf, Ht.
Qed.

(** X19.  Inside [multiply], [split_modes] cuts the organised product of two
    keys into one piece per mode, in ascending order of the modes, each
    piece being the key of the tokens of that mode in their order; joining
    the pieces with ["_"] through [clean_string] gives the organised string
    back. *)
Theorem split_modes_round_trip {C : Type} `{Number C} (a b : list token) :
  wf_tokens a -> wf_tokens b ->
  exists ms,
    StronglySorted char_lt ms
    /\ (forall c, In c ms <-> In c (map fst (a ++ b)))
    /\ split_modes (hspace_organize (term_key a ++ lit "_" ++ term_key b))
       = Ok (map (fun m => term_key (mode_group m (a ++ b))) ms)
    /\ fold_left (fun acc piece => clean_string (acc ++ lit "_" ++ piece))
         (map (fun m => term_key (mode_group m (a ++ b))) ms) []
       = hspace_organize (term_key a ++ lit "_" ++ term_key b).
Proof.
  intros Ha Hb.
  assert (Hab : wf_tokens (a ++ b)) by (apply wf_tokens_app; split; assumption).
  destruct (split_modes_hspace_organize a b Ha Hb) as (ms & Hs & Hin & E).
  exists ms. split; [exact Hs | split; [exact Hin | split; [exact E|]]].
  rewrite hspace_organize_joined by assumption.
  destruct (find_modes_letters _ num_one (a ++ b)
              (fun c => letters_of_joined_keys a b c Ha Hb)) as [Hs' Hin'].
  assert (Hms : find_modes [(term_key a ++ lit "_" ++ term_key b, num_one)] = ms).
  { apply StronglySorted_lt_unique; [exact Hs' | exact Hs|].
    intros c. rewrite Hin, Hin'. tauto. }
  rewrite Hms, organize_is_concat.
  rewrite <- (map_map (fun m => mode_group m (a ++ b)) term_key).
  change (@nil ascii) with (term_key []).
  rewrite join_pieces; [reflexivity | constructor|].
  apply Forall_forall. intros g Hg. apply in_map_iff in Hg.
  destruct Hg as (m & <- & _). apply mode_group_wf, Hab.
Qed.

Lemma split_modes_round_trip_witness :
  exists ms,
    StronglySorted char_lt ms
    /\ (forall c, In c ms <->
          In c (map fst ([("b"%char, true); ("a"%char, false)]
                         ++ [("a"%char, true); ("b"%char, false)])))
    /\ @split_modes Z _ (hspace_organize (lit "b+_a" ++ lit "_" ++ lit "a+_b"))
       = Ok (map (fun m =>
                    term_key (mode_group m
                                ([("b"%char, true); ("a"%char, false)]
                                 ++ [("a"%char, true); ("b"%char, false)]))) ms)
    /\ fold_left (fun acc piece => clean_string (acc ++ lit "_" ++ piece))
         (map (fun m =>
                 term_key (mode_group m
                             ([("b"%char, true); ("a"%char, false)]
                              ++ [("a"%char, true); ("b"%char, false)]))) ms) []
       = @hspace_organize Z _ (lit "b+_a" ++ lit "_" ++ lit "a+_b").
Proof.
  apply (@split_modes_round_trip Z _
           [("b"%char, true); ("a"%char, false)]
           [("a"%char, true); ("b"%char, false)]); repeat constructor.
Defined.

(** ** Products that need no reordering *)

Section Commuting.

Context {C : Type} `{Number C}.

Hypothesis one_one : num_mul num_one num_one = num_one.

Lemma normal_ordering_group (depth : nat) (m : ascii) (g : list token) (c : C) :
  isalpha m = true -> is_group m g -> normal_ordered (map snd g) ->
  normal_ordering (S depth) m (term_key g) c = Ok [(term_key g, c)].
Proof.
  intros Hm Hg Hord. rewrite (group_as_single_mode m g Hg).
  cbn [normal_ordering].
  rewrite (find_normal_ordered m Hm _ (normal_ordered_split_D _ Hord)).
  reflexivity.
Qed.

Lemma reduce_ordered_pieces (depth : nat) (ts : list token) (ms : list ascii) :
  (forall m, In m ms -> isalpha m = true /\ In m (map fst ts)) ->
  (forall m, normal_ordered (map snd (mode_group m ts))) ->
  forall prev,
    wf_tokens prev ->
    for_each
      (fun temp single_mode_term =>
         match single_mode_term with
         | [] => Raise IndexError
         | mode :: _ =>
             normal_ordered_single_mode_dict <-
               normal_ordering (S depth) mode single_mode_term num_one ;;
             match temp with
             | [] => Ok normal_ordered_single_mode_dict
             | _ :: _ =>
                 Ok (multiply_normal_ordered_single_mode_dicts
                       temp normal_ordered_single_mode_dict)
             end
         end)
      (map (fun m => term_key (mode_group m ts)) ms)
      [(term_key prev, num_one)]
    = Ok [(term_key (prev ++ organize ms ts), num_one)].
Proof.
  intros Hms Hord. induction ms as [|m ms IH]; intros prev Hprev.
  - simpl. rewrite app_nil_r. reflexivity.
  - destruct (Hms m (or_introl eq_refl)) as [Hm Hin].
    pose proof (mode_group_is_group m ts Hin) as Hg.
    destruct (is_group_head m (mode_group m ts) [] Hg) as [s Hs].
    rewrite app_nil_r in Hs.
    cbn [map for_each]. rewrite Hs. rewrite <- Hs.
    rewrite (normal_ordering_group depth m _ num_one Hm Hg (Hord m)).
    cbn [bind]. unfold multiply_normal_ordered_single_mode_dicts.
    cbn [fold_left dict_get dict_set].
    rewrite one_one.
    rewrite clean_string_join; [|exact Hprev | eapply is_group_wf; eauto].
    rewrite IH.
    + unfold organize. cbn [flat_map]. rewrite <- app_assoc. reflexivity.
    + intros m' Hm'. apply Hms. right; exact Hm'.
    + apply wf_tokens_app. split; [exact Hprev | eapply is_group_wf; eauto].
Qed.

Lemma reduce_ordered_pieces_first (depth : nat) (ts : list token)
    (ms : list ascii) :
  ms <> [] ->
  (forall m, In m ms -> isalpha m = true /\ In m (map fst ts)) ->
  (forall m, normal_ordered (map snd (mode_group m ts))) ->
  for_each
    (fun temp single_mode_term =>
       match single_mode_term with
       | [] => Raise IndexError
       | mode :: _ =>
           normal_ordered_single_mode_dict <-
             normal_ordering (S depth) mode single_mode_term num_one ;;
           match temp with
           | [] => Ok normal_ordered_single_mode_dict
           | _ :: _ =>
               Ok (multiply_normal_ordered_single_mode_dicts
                     temp normal_ordered_single_mode_dict)
           end
       end)
    (map (fun m => term_key (mode_group m ts)) ms) []
  = Ok [(term_key (organize ms ts), num_one)].
Proof.
  intros Hne Hms Hord. destruct ms as [|m ms]; [contradiction|].
  destruct (Hms m (or_introl eq_refl)) as [Hm Hin].
  pose proof (mode_group_is_group m ts Hin) as Hg.
  destruct (is_group_head m (mode_group m ts) [] Hg) as [s Hs].
  rewrite app_nil_r in Hs.
  cbn [map for_each]. rewrite Hs. rewrite <- Hs.
  rewrite (normal_ordering_group depth m _ num_one Hm Hg (Hord m)).
  cbn [bind].
  rewrite reduce_ordered_pieces.
  - reflexivity.
  - intros m' Hm'. apply Hms. right; exact Hm'.
  - exact Hord.
  - eapply is_group_wf; eauto.
Qed.

Lemma multiply_terms_no_reordering (depth : nat) (acc : dict C)
    (a b : list token) (coeff1 coeff2 : C) :
  wf_tokens a -> wf_tokens b -> a ++ b <> [] ->
  (forall m, normal_ordered (map snd (mode_group m (a ++ b)))) ->
  multiply_terms (S depth) acc (term_key a, coeff1) (term_key b, coeff2)
  = Ok (add_expr_dicts acc
          [(hspace_organize (term_key a ++ lit "_" ++ term_key b),
            num_mul num_one (num_mul coeff1 coeff2))]).
Proof.
  intros Ha Hb Hne Hord.
  assert (Hab : wf_tokens (a ++ b)) by (apply wf_tokens_app; split; assumption).
  unfold multiply_terms. cbv zeta.
  replace (str_eqb (term_key a) [] && str_eqb (term_key b) []) with false.
  - destruct (split_modes_hspace_organize a b Ha Hb) as (ms & Hs & Hin & E).
    rewrite E. cbn [bind].
    rewrite reduce_ordered_pieces_first.
    + cbn [bind fold_left dict_set]. rewrite str_eqb_refl.
      rewrite hspace_organize_joined by assumption.
      destruct (find_modes_letters _ num_one (a ++ b)
                  (fun c => letters_of_joined_keys a b c Ha Hb)) as [Hs' Hin'].
      replace (find_modes [(term_key a ++ lit "_" ++ term_key b, num_one)])
        with ms; [reflexivity|].
      apply StronglySorted_lt_unique; [exact Hs | exact Hs'|].
      intros c. rewrite Hin, Hin'. tauto.
    + destruct ms as [|m ms]; [|discriminate].
      exfalso. destruct (a ++ b) as [|t r]; [apply Hne; reflexivity|].
      apply (proj2 (Hin (fst t))). left; reflexivity.
    + intros m Hm. split; [|apply Hin, Hm].
      eapply wf_tokens_letters; [exact Hab | apply Hin, Hm].
    + exact Hord.
  - symmetry. apply andb_false_iff.
    destruct a as [|t a]; [destruct b as [|t b]; [contradiction|]|].
    + right. destruct (term_key_head t b) as [s ->]. reflexivity.
    + left. destruct (term_key_head t a) as [s ->]. reflexivity.
Qed.

End Commuting.

(** X20.  A product of two terms in which no mode has an annihilation token
    before a creation token (in particular, terms on different modes that
    are each in order) is the single organised term: no commutator term
    appears, and the coefficient is the product of the coefficients (times
    the literal [1] the reducer starts from). *)
Theorem multiply_without_reordering {C : Type} `{Number C} (depth : nat)
    (a b : list token) (coeff1 coeff2 : C) (modes1 modes2 : list ascii) :
  num_mul num_one num_one = num_one ->
  wf_tokens a -> wf_tokens b -> a ++ b <> [] ->
  (forall m, normal_ordered (map snd (mode_group m (a ++ b)))) ->
  multiply (S depth)
    (mkExpression [(term_key a, coeff1)] modes1)
    (mkExpression [(term_key b, coeff2)] modes2)
  = Ok (mkExpression
          [(hspace_organize (term_key a ++ lit "_" ++ term_key b),
            num_mul num_one (num_mul coeff1 coeff2))]
          (sorted (set_of (modes1 ++ modes2)))).
Proof.
  intros Hone Ha Hb Hne Hord. unfold multiply.
  cbn [expr_dict modes for_each Expression_empty].
  rewrite (multiply_terms_no_reordering Hone depth [] a b coeff1 coeff2 Ha Hb Hne Hord).
  reflexivity.
Qed.

Lemma multiply_without_reordering_witness :
  multiply 1
    (mkExpression [(lit "a+_a", 2%Z)] (lit "a"))
    (mkExpression [(lit "b+_b", 3%Z)] (lit "b"))
  = Ok (mkExpression [(lit "a+_a_b+_b", 6%Z)] (lit "ab")).
Proof.
  refine (multiply_without_reordering 0
            [("a"%char, true); ("a"%char, false)]
            [("b"%char, true); ("b"%char, false)]
            2%Z 3%Z (lit "a") (lit "b") eq_refl _ _ _ _).
  - repeat constructor.
  - repeat constructor.
  - discriminate.
  - intros m. unfold mode_group. cbn [app filter fst].
    destruct (Ascii.eqb "a" m) eqn:Ea, (Ascii.eqb "b" m) eqn:Eb; cbn [map snd].
    + apply Ascii.eqb_eq in Ea, Eb. subst m. discriminate Eb.
    + exists 1, 1. reflexivity.
    + exists 1, 1. reflexivity.
    + exists 0, 0. reflexivity.
Defined.

(** ** The keys of a product are in canonical form *)

Lemma canonical_blocks_wf (blocks : list (ascii * list bool)) :
  canonical_blocks blocks -> wf_tokens (block_tokens blocks).
Proof.
  intros [_ Hb]. unfold block_tokens.
  induction Hb as [|b blocks [Ha _] Hb IH]; [constructor|].
  cbn [flat_map]. apply wf_tokens_app. split; [apply wf_single_mode, Ha | exact IH].
Qed.

Lemma canonical_key_below_nil (k : str) :
  canonical_key_below [] k <-> canonical_key k.
Proof.
  split.
  - intros (B & HB & -> & _). exists B. auto.
  - intros (B & HB & ->). exists B. split; [exact HB | split; [reflexivity|]].
    apply Forall_forall. intros b _. constructor.
Qed.

Lemma canonical_key_empty : canonical_key [].
Proof.
  exists []. split; [split; constructor | reflexivity].
Qed.

Lemma canonical_single_block (m : ascii) (ms : list ascii) (bs : list bool) :
  isalpha m = true -> normal_ordered bs -> Forall (char_lt m) ms ->
  canonical_key_below ms (term_key (single_mode m bs)).
Proof.
  intros Ha Hno Hm. exists [(m, bs)]. split; [|split].
  - split; [repeat constructor | repeat constructor; assumption].
  - unfold block_tokens. cbn [flat_map fst snd]. rewrite app_nil_r. reflexivity.
  - repeat constructor. exact Hm.
Qed.

Lemma canonical_append_block (m : ascii) (ms : list ascii) (bs : list bool)
    (k : str) :
  isalpha m = true -> normal_ordered bs -> Forall (char_lt m) ms ->
  canonical_key_below (m :: ms) k ->
  canonical_key_below ms
    (clean_string (k ++ lit "_" ++ term_key (single_mode m bs))).
Proof.
  intros Ha Hno Hm (B & HB & -> & Hbelow).
  exists (B ++ [(m, bs)]). split; [|split].
  - destruct HB as [Hs Hf]. split.
    + rewrite map_app. apply StronglySorted_app; [exact Hs | repeat constructor|].
      intros x y Hx [<- | []]. apply in_map_iff in Hx.
      destruct Hx as (b & <- & Hb). rewrite Forall_forall in Hbelow.
      specialize (Hbelow b Hb). inversion Hbelow; assumption.
    + apply Forall_app. split; [exact Hf | repeat constructor; assumption].
  - rewrite clean_string_join;
      [|apply canonical_blocks_wf, HB | apply wf_single_mode, Ha].
    unfold block_tokens. rewrite flat_map_app. cbn [flat_map fst snd].
    rewrite app_nil_r. reflexivity.
  - apply Forall_app. split.
    + eapply Forall_impl; [|exact Hbelow]. intros b Hb. inversion Hb; assumption.
    + repeat constructor. exact Hm.
Qed.

Section KeyInvariant.

Context {C : Type} `{Number C}.

Variable P : str -> Prop.

Lemma keys_dict_set_inv (d : dict C) (k : str) (v : C) :
  Forall P (keys d) -> P k -> Forall P (keys (dict_set d k v)).
Proof.
  rewrite !Forall_forall. intros Hd Hk x Hx.
  apply keys_dict_set in Hx. destruct Hx as [-> | Hx]; auto.
Qed.

Lemma keys_add_expr_dicts_inv (d1 d2 : dict C) :
  Forall P (keys d1) -> Forall P (keys d2) ->
  Forall P (keys (add_expr_dicts d1 d2)).
Proof.
  rewrite !Forall_forall. intros H1 H2 x Hx.
  apply keys_add_expr_dicts in Hx. destruct Hx; auto.
Qed.

Lemma keys_In_inv (d : dict C) (k : str) (v : C) :
  Forall P (keys d) -> In (k, v) d -> P k.
Proof.
  rewrite Forall_forall. intros Hd Hin. apply Hd.
  apply (in_map fst) in Hin. exact Hin.
Qed.

Lemma keys_scale_inv (temp : dict C) (overall_coeff : C) :
  Forall P (keys temp) ->
  Forall P
    (keys (fold_left
             (fun temp' '(key, value) =>
                dict_set temp' key (num_mul value overall_coeff))
             temp temp)).
Proof.
  intros Ht.
  assert (G : forall (l acc : dict C), Forall P (keys acc) ->
    (forall kv, In kv l -> In kv temp) ->
    Forall P
      (keys (fold_left
               (fun temp' '(key, value) =>
                  dict_set temp' key (num_mul value overall_coeff)) l acc))).
  { induction l as [|[k v] l IH]; intros acc Hacc Hl; [exact Hacc|].
    cbn [fold_left]. apply IH; [|intros; apply Hl; right; assumption].
    apply keys_dict_set_inv; [exact Hacc|].
    eapply keys_In_inv; [exact Ht | apply Hl; left; reflexivity]. }
  apply G; auto.
Qed.

Lemma keys_multiply_dicts_inv (Q1 Q2 : str -> Prop) (d1 d2 : dict C) :
  (forall k1 k2, Q1 k1 -> Q2 k2 -> P (clean_string (k1 ++ lit "_" ++ k2))) ->
  Forall Q1 (keys d1) -> Forall Q2 (keys d2) ->
  Forall P (keys (multiply_normal_ordered_single_mode_dicts d1 d2)).
Proof.
  intros HP H1 H2. unfold multiply_normal_ordered_single_mode_dicts.
  rewrite Forall_forall in H1, H2.
  assert (G2 : forall k1 v1, Q1 k1 -> forall (l2 acc2 : dict C),
    Forall P (keys acc2) -> (forall kv, In kv l2 -> In kv d2) ->
    Forall P
      (keys (fold_left
               (fun result '(key2, value2) =>
                  let new_key := clean_string (k1 ++ lit "_" ++ key2) in
                  match dict_get result new_key with
                  | Some old =>
                      dict_set result new_key (num_add old (num_mul v1 value2))
                  | None => dict_set result new_key (num_mul v1 value2)
                  end)
               l2 acc2))).
  { intros k1 v1 Hk1. induction l2 as [|[k2 v2] l2 IH2]; intros acc2 Hacc2 Hl2;
      [exact Hacc2|].
    cbn [fold_left]. apply IH2; [|intros; apply Hl2; right; assumption].
    assert (Hk2 : Q2 k2).
    { apply H2. apply (in_map fst) with (x := (k2, v2)).
      apply Hl2. left; reflexivity. }
    cbv zeta. destruct (dict_get acc2 _); apply keys_dict_set_inv; auto. }
  assert (G : forall (l acc : dict C), Forall P (keys acc) ->
    (forall kv, In kv l -> In kv d1) ->
    Forall P
      (keys (fold_left
               (fun result '(key1, value1) =>
                  fold_left
                    (fun result '(key2, value2) =>
                       let new_key := clean_string (key1 ++ lit "_" ++ key2) in
                       match dict_get result new_key with
                       | Some old =>
                           dict_set result new_key
                             (num_add old (num_mul value1 value2))
                       | None => dict_set result new_key (num_mul value1 value2)
                       end)
                    d2 result)
               l acc))).
  { induction l as [|[k1 v1] l IH]; intros acc Hacc Hl; [exact Hacc|].
    cbn [fold_left]. apply IH; [|intros; apply Hl; right; assumption].
    apply G2; auto.
    apply H1. apply (in_map fst) with (x := (k1, v1)). apply Hl. left; reflexivity. }
  apply G; [constructor | auto].
Qed.

End KeyInvariant.

Section CanonicalProduct.

Context {C : Type} `{Number C}.

Lemma reduce_pieces_canonical (ts : list token) (ms : list ascii) :
  StronglySorted char_lt ms ->
  (forall m, In m ms -> isalpha m = true /\ In m (map fst ts)) ->
  forall temp : dict C,
    Forall (canonical_key_below ms) (keys temp) ->
    returns_eventually
      (fun depth =>
         for_each
           (fun temp single_mode_term =>
              match single_mode_term with
              | [] => Raise IndexError
              | mode :: _ =>
                  normal_ordered_single_mode_dict <-
                    normal_ordering depth mode single_mode_term num_one ;;
                  match temp with
                  | [] => Ok normal_ordered_single_mode_dict
                  | _ :: _ =>
                      Ok (multiply_normal_ordered_single_mode_dicts
                            temp normal_ordered_single_mode_dict)
                  end
              end)
           (map (fun m => term_key (mode_group m ts)) ms) temp)
      (fun temp' => Forall canonical_key (keys temp')).
Proof.
  induction 1 as [|m ms Hs IH Hm]; intros Hms temp Htemp.
  - apply returns_ret. eapply Forall_impl; [|exact Htemp].
    intros k. apply canonical_key_below_nil.
  - destruct (Hms m (or_introl eq_refl)) as [Ha Hin].
    pose proof (mode_group_is_group m ts Hin) as Hg.
    destruct (is_group_head m (mode_group m ts) [] Hg) as [s Hs'].
    rewrite app_nil_r in Hs'.
    cbn [map for_each].
    apply (returns_bind
             (fun depth =>
                match term_key (mode_group m ts) with
                | [] => Raise IndexError
                | mode :: _ =>
                    normal_ordered_single_mode_dict <-
                      normal_ordering depth mode (term_key (mode_group m ts))
                        num_one ;;
                    match temp with
                    | [] => Ok normal_ordered_single_mode_dict
                    | _ :: _ =>
                        Ok (multiply_normal_ordered_single_mode_dicts
                              temp normal_ordered_single_mode_dict)
                    end
                end)
             (fun depth temp1 =>
                for_each
                  (fun temp single_mode_term =>
                     match single_mode_term with
                     | [] => Raise IndexError
                     | mode :: _ =>
                         normal_ordered_single_mode_dict <-
                           normal_ordering depth mode single_mode_term num_one ;;
                         match temp with
                         | [] => Ok normal_ordered_single_mode_dict
                         | _ :: _ =>
                             Ok (multiply_normal_ordered_single_mode_dicts
                                   temp normal_ordered_single_mode_dict)
                         end
                     end)
                  (map (fun m => term_key (mode_group m ts)) ms) temp1)
             (fun temp1 : dict C => Forall (canonical_key_below ms) (keys temp1))
             (fun temp' : dict C => Forall canonical_key (keys temp'))).
    + rewrite Hs'. rewrite <- Hs'.
      apply (returns_bind
               (fun depth =>
                  normal_ordering depth m (term_key (mode_group m ts)) num_one)
               (fun _ nd =>
                  match temp with
                  | [] => Ok nd
                  | _ :: _ =>
                      Ok (multiply_normal_ordered_single_mode_dicts temp nd)
                  end)
               (fun nd : dict C =>
                  Forall (fun k => exists bs', k = term_key (single_mode m bs')
                                               /\ normal_ordered bs') (keys nd))
               (fun temp1 : dict C =>
                  Forall (canonical_key_below ms) (keys temp1))).
      * rewrite (group_as_single_mode m _ Hg).
        destruct (normal_ordering_single_mode m num_one Ha
                    (S (inversions (map snd (mode_group m ts))))
                    (map snd (mode_group m ts)))
          as (d & Hd & _ & Hk); [lia|].
        exists d, (S (inversions (map snd (mode_group m ts)))).
        split; [|exact Hd].
        apply Forall_forall. intros k Hk'.
        destruct (Hk k Hk') as (bs' & E & Hno & _). eauto.
      * intros nd Hnd. destruct temp as [|kv temp'].
        -- apply returns_ret. eapply Forall_impl; [|exact Hnd].
           intros k (bs' & -> & Hno). apply canonical_single_block; assumption.
        -- apply returns_ret.
           apply (keys_multiply_dicts_inv _ (canonical_key_below (m :: ms))
                    (fun k => exists bs', k = term_key (single_mode m bs')
                                          /\ normal_ordered bs'));
             [|exact Htemp | exact Hnd].
           intros k1 k2 Hk1 (bs' & -> & Hno).
           apply canonical_append_block; assumption.
    + intros temp1 Htemp1. apply IH; [|exact Htemp1].
      intros m' Hm'. apply Hms. right; exact Hm'.
Qed.

Lemma multiply_terms_canonical (acc : dict C) (t1 t2 : str * C) :
  Forall canonical_key (keys acc) -> wf_key (fst t1) -> wf_key (fst t2) ->
  returns_eventually (fun depth => multiply_terms depth acc t1 t2)
    (fun r => Forall canonical_key (keys r)).
Proof.
  destruct t1 as [term1 coeff1], t2 as [term2 coeff2]. cbn [fst].
  intros Hacc (a & Ha & ->) (b & Hb & ->). unfold multiply_terms.
  destruct (str_eqb (term_key a) [] && str_eqb (term_key b) []).
  - apply returns_ret. apply keys_add_expr_dicts_inv; [exact Hacc|].
    constructor; [apply canonical_key_empty | constructor].
  - destruct (split_modes_hspace_organize a b Ha Hb) as (ms & Hs & Hin & E).
    rewrite E. cbn [bind].
    assert (Hab : wf_tokens (a ++ b))
      by (apply wf_tokens_app; split; assumption).
    apply (returns_bind
             (fun depth =>
                for_each
                  (fun temp single_mode_term =>
                     match single_mode_term with
                     | [] => Raise IndexError
                     | mode :: _ =>
                         normal_ordered_single_mode_dict <-
                           normal_ordering depth mode single_mode_term num_one ;;
                         match temp with
                         | [] => Ok normal_ordered_single_mode_dict
                         | _ :: _ =>
                             Ok (multiply_normal_ordered_single_mode_dicts
                                   temp normal_ordered_single_mode_dict)
                         end
                     end)
                  (map (fun m => term_key (mode_group m (a ++ b))) ms) [])
             (fun _ temp =>
                Ok (add_expr_dicts acc
                      (fold_left
                         (fun temp' '(key, value) =>
                            dict_set temp' key
                              (num_mul value (num_mul coeff1 coeff2)))
                         temp temp)))
             (fun temp : dict C => Forall canonical_key (keys temp))
             (fun r : dict C => Forall canonical_key (keys r))).
    + apply reduce_pieces_canonical; [exact Hs | | constructor].
      intros m Hm. split; [|apply Hin, Hm].
      eapply wf_tokens_letters; [exact Hab | apply Hin, Hm].
    + intros temp Htemp. apply returns_ret.
      apply keys_add_expr_dicts_inv; [exact Hacc|].
      apply keys_scale_inv, Htemp.
Qed.

Lemma multiply_canonical (A B : Expression C) :
  wf_expr A -> wf_expr B ->
  returns_eventually (fun depth => multiply depth A B)
    (fun R => Forall canonical_key (keys (expr_dict R))).
Proof.
  intros HA HB. unfold multiply.
  apply (returns_bind
           (fun depth =>
              for_each
                (fun result_dict t1 =>
                   for_each
                     (fun result_dict t2 => multiply_terms depth result_dict t1 t2)
                     (expr_dict B) result_dict)
                (expr_dict A) (expr_dict Expression_empty))
           (fun _ d =>
              Ok (mkExpression d (sorted (set_of (modes A ++ modes B)))))
           (fun d : dict C => Forall canonical_key (keys d))
           (fun R : Expression C => Forall canonical_key (keys (expr_dict R)))).
  - apply (returns_for_each
             (fun depth result_dict t1 =>
                for_each
                  (fun result_dict t2 => multiply_terms depth result_dict t1 t2)
                  (expr_dict B) result_dict)
             (expr_dict A) (fun d : dict C => Forall canonical_key (keys d)));
      [|constructor].
    intros acc t1 Hacc Ht1.
    apply (returns_for_each
             (fun depth result_dict t2 => multiply_terms depth result_dict t1 t2)
             (expr_dict B) (fun d : dict C => Forall canonical_key (keys d)));
      [|exact Hacc].
    intros acc' t2 Hacc' Ht2.
    apply multiply_terms_canonical; [exact Hacc' | |].
    + destruct t1 as [k1 v1]. eapply wf_dict_In; [exact HA | exact Ht1].
    + destruct t2 as [k2 v2]. eapply wf_dict_In; [exact HB | exact Ht2].
  - intros d Hd. apply returns_ret. exact Hd.
Qed.

End CanonicalProduct.

(** X21.  Every key of a product of well-formed Expressions is in canonical
    form: its tokens are grouped by mode, the modes strictly ascending, and
    within each mode all creation tokens come before all annihilation
    tokens.  The same holds for [power] with an exponent of at least 2. *)
Theorem product_keys_canonical {C : Type} `{Number C} (depth : nat)
    (A B R : Expression C) (exponent : Z) (P : Expression C) :
  wf_expr A -> wf_expr B ->
  (multiply depth A B = Ok R -> Forall canonical_key (keys (expr_dict R)))
  /\ ((2 <= exponent)%Z -> power depth A exponent = Ok P ->
      Forall canonical_key (keys (expr_dict P))).
Proof.
  intros HA HB.
  assert (Hmul : forall X Y Z0 : Expression C, wf_expr X -> wf_expr Y ->
            multiply depth X Y = Ok Z0 ->
            Forall canonical_key (keys (expr_dict Z0))).
  { intros X Y Z0 HX HY E.
    destruct (multiply_canonical X Y HX HY) as (R0 & N & HR0 & Hret).
    pose proof (multiply_deeper depth (depth + N) X Y Z0 ltac:(lia) E) as E'.
    rewrite Hret in E' by lia. inversion E'; subst. exact HR0. }
  split; [apply Hmul; assumption|].
  intros He. unfold power.
  replace (Z.to_nat (exponent - 1)) with (S (Z.to_nat (exponent - 2))) by lia.
  rewrite power_loop_last.
  destruct (power_loop depth A A (Z.to_nat (exponent - 2))) as [r|] eqn:Er;
    [|discriminate].
  cbn [bind]. apply Hmul; [|exact HA].
  destruct (power_loop_returns A (Z.to_nat (exponent - 2)) HA A HA)
    as (r0 & N & Hr0 & Hret).
  pose proof (power_loop_deeper depth (depth + N) A (Z.to_nat (exponent - 2))
                ltac:(lia) A r Er) as E'.
  rewrite Hret in E' by lia. inversion E'; subst. exact Hr0.
Qed.

Lemma product_keys_canonical_witness :
  Forall canonical_key
    (keys [(lit "a+_a_b+_b", 1%Z); (lit "a+_a", 1%Z); (lit "b+_b", 1%Z);
           (lit "", 1%Z)]).
Proof.
  assert (E : multiply 2
                (mkExpression [(lit "b_a", 1%Z)] (lit "ab"))
                (mkExpression [(lit "a+_b+", 1%Z)] (lit "ab"))
              = Ok (mkExpression
                      [(lit "a+_a_b+_b", 1%Z); (lit "a+_a", 1%Z);
                       (lit "b+_b", 1%Z); (lit "", 1%Z)] (lit "ab")))
    by (vm_compute; reflexivity).
  refine (proj1 (product_keys_canonical 2 _ _ _ 2%Z
                   (mkExpression [(lit "b_a", 1%Z)] (lit "ab")) _ _) E).
  - constructor; [|constructor].
    exists [("b"%char, false); ("a"%char, false)].
    split; [repeat constructor | reflexivity].
  - constructor; [|constructor].
    exists [("a"%char, true); ("b"%char, true)].
    split; [repeat constructor | reflexivity].
Defined.

(** ** Counting the operators of a mode *)

Lemma count_char (m : ascii) (s : str) :
  count s [m] = count_occ ascii_dec s m.
Proof.
  unfold count. induction s as [|c s IH]; [reflexivity|].
  cbn [count_go length Nat.sub startswith count_occ].
  rewrite andb_true_r, IH.
  destruct (ascii_dec c m) as [-> | N].
  - rewrite (proj2 (Ascii.eqb_eq m m) eq_refl). reflexivity.
  - destruct (Ascii.eqb c m) eqn:E; [|reflexivity].
    apply Ascii.eqb_eq in E. contradiction.
Qed.

Lemma count_occ_term_key (m : ascii) (ts : list token) :
  isalpha m = true ->
  count_occ ascii_dec (term_key ts) m = length (mode_group m ts).
Proof.
  intros Ha.
  assert (Hu : "_"%char <> m) by (intros <-; discriminate Ha).
  assert (Hp : "+"%char <> m) by (intros <-; discriminate Ha).
  induction ts as [|t ts IH]; [reflexivity|].
  rewrite term_key_cons, count_occ_app.
  assert (Hsep : count_occ ascii_dec (sep_key ts) m = length (mode_group m ts)).
  { destruct ts as [|t' ts']; [reflexivity|].
    change (sep_key (t' :: ts')) with ("_"%char :: term_key (t' :: ts')).
    rewrite count_occ_cons_neq by exact Hu. exact IH. }
  rewrite Hsep. unfold mode_group at 2. cbn [filter]. fold (mode_group m ts).
  destruct t as [c b]. unfold token_str. cbn [fst snd].
  assert (Htail : count_occ ascii_dec (if b then lit "+" else []) m = 0).
  { destruct b; [|reflexivity].
    change (lit "+") with ["+"%char]. rewrite count_occ_cons_neq by exact Hp.
    reflexivity. }
  destruct (Ascii.eqb c m) eqn:E.
  - apply Ascii.eqb_eq in E. subst c.
    rewrite count_occ_cons_eq by reflexivity. rewrite Htail. reflexivity.
  - rewrite count_occ_cons_neq, Htail; [reflexivity|].
    intros ->. rewrite (proj2 (Ascii.eqb_eq m m) eq_refl) in E. discriminate.
Qed.

(** X22.  [count_order] on the key of a token sequence is the number of
    operators of the mode in the term (creation and annihilation operators
    alike). *)
Theorem count_order_counts_tokens (mode : ascii) (ts : list token) :
  isalpha mode = true ->
  count_order mode (term_key ts) = length (mode_group mode ts).
Proof.
  intros Ha. unfold count_order. rewrite count_char.
  apply count_occ_term_key, Ha.
Qed.

Lemma count_order_counts_tokens_witness :
  count_order "a" (lit "a+_b_a_a+") = 3.
Proof.
  exact (count_order_counts_tokens "a"
           [("a"%char, true); ("b"%char, false); ("a"%char, false);
            ("a"%char, true)] eq_refl).
Defined.

(** ** The comparison of two Expressions *)

Section Compare.

Context {C Tol : Type}.

Variable isclose : C -> C -> Tol -> bool.

Lemma fold_left_const_false {A : Type} (l : list A) (b : bool) :
  fold_left (fun _ _ => false) l b = match l with [] => b | _ :: _ => false end.
Proof.
  destruct l as [|x l]; [reflexivity|]. cbn [fold_left].
  induction l as [|y l IH]; [reflexivity | exact IH].
Qed.

Lemma existsb_str_eqb (k : str) (l : list str) :
  existsb (str_eqb k) l = true <-> In k l.
Proof.
  rewrite existsb_exists. split.
  - intros (x & Hx & E). apply str_eqb_eq in E. subst. exact Hx.
  - intros Hin. exists k. split; [exact Hin | apply str_eqb_refl].
Qed.

Lemma set_difference_nil (keys1 keys2 : list str) :
  set_difference keys1 keys2 = [] <-> forall k, In k keys1 -> In k keys2.
Proof.
  unfold set_difference. split.
  - intros E k Hk. destruct (existsb (str_eqb k) keys2) eqn:Ex.
    + apply existsb_str_eqb, Ex.
    + exfalso.
      assert (Hin : In k (filter (fun key => negb (existsb (str_eqb key) keys2)) keys1))
        by (apply filter_In; split; [exact Hk | rewrite Ex; reflexivity]).
      rewrite E in Hin. destruct Hin.
  - intros Hsub. induction keys1 as [|k keys1 IH]; [reflexivity|].
    cbn [filter]. rewrite (proj2 (existsb_str_eqb k keys2));
      [|apply Hsub; left; reflexivity].
    cbn [negb]. apply IH. intros k' Hk'. apply Hsub. right; exact Hk'.
Qed.

Lemma compare_values_fold (d1 d2 : dict C) (tol : Tol) (l : list str) (b : bool) :
  fold_left
    (fun IS_EQUAL key =>
       match dict_get d1 key, dict_get d2 key with
       | Some value1, Some value2 =>
           if negb (isclose value1 value2 tol) then false else IS_EQUAL
       | _, _ => IS_EQUAL
       end) l b
  = b && forallb
           (fun key =>
              match dict_get d1 key, dict_get d2 key with
              | Some value1, Some value2 => isclose value1 value2 tol
              | _, _ => true
              end) l.
Proof.
  revert b; induction l as [|k l IH]; intros b.
  - simpl. rewrite andb_true_r. reflexivity.
  - cbn [fold_left forallb]. rewrite IH.
    destruct (dict_get d1 k) as [v1|], (dict_get d2 k) as [v2|];
      try (destruct b; reflexivity).
    destruct (isclose v1 v2 tol), b; reflexivity.
Qed.

End Compare.

(** X23.  [compare_expr] returns [True] exactly when the two Expressions have
    the same set of keys and, at every key, coefficients that [isclose]
    accepts for the given tolerance; the order of the entries and the
    [modes] attributes play no part. *)
Theorem compare_expr_true_iff {C Tol : Type} (isclose : C -> C -> Tol -> bool)
    (expr1 expr2 : Expression C) (tolerance : Tol) :
  compare_expr isclose expr1 expr2 tolerance = true
  <-> (forall k, In k (keys (expr_dict expr1)) <-> In k (keys (expr_dict expr2)))
      /\ (forall k v1 v2,
            dict_get (expr_dict expr1) k = Some v1 ->
            dict_get (expr_dict expr2) k = Some v2 ->
            isclose v1 v2 tolerance = true).
Proof.
  unfold compare_expr. cbv zeta.
  rewrite compare_values_fold, !fold_left_const_false.
  set (d1 := expr_dict expr1). set (d2 := expr_dict expr2).
  split.
  - intros E.
    destruct (set_difference (keys d2) (keys d1)) eqn:E21; [|discriminate E].
    destruct (set_difference (keys d1) (keys d2)) eqn:E12; [|discriminate E].
    cbn [andb] in E. rewrite forallb_forall in E.
    pose proof (proj1 (set_difference_nil _ _) E12) as H12.
    pose proof (proj1 (set_difference_nil _ _) E21) as H21.
    split; [intros k; split; auto|].
    intros k v1 v2 H1 H2.
    assert (Hin : In k (set_intersection (keys d1) (keys d2))).
    { apply filter_In. split.
      - apply dict_get_In_keys. rewrite H1. discriminate.
      - apply existsb_str_eqb, dict_get_In_keys. rewrite H2. discriminate. }
    specialize (E k Hin). rewrite H1, H2 in E. exact E.
  - intros [Hk Hv].
    rewrite (proj2 (set_difference_nil (keys d1) (keys d2)))
      by (intros k; apply Hk).
    rewrite (proj2 (set_difference_nil (keys d2) (keys d1)))
      by (intros k; apply Hk).
    cbn [andb]. apply forallb_forall. intros k _.
    destruct (dict_get d1 k) as [v1|] eqn:H1; [|reflexivity].
    destruct (dict_get d2 k) as [v2|] eqn:H2; [|reflexivity].
    apply (Hv k); assumption.
Qed.

(** ** Parsing the text of a term *)

Lemma find_first_alphabet_index_loop_app (prefix : str) (c0 : ascii) (rest : str)
    (off : nat) :
  (forall c, In c prefix -> isalpha c && negb (Ascii.eqb c "j") = false) ->
  isalpha c0 = true -> c0 <> "j"%char ->
  find_first_alphabet_index_loop (prefix ++ c0 :: rest) off = off + length prefix.
Proof.
  intros Hp Ha Hj. revert off. induction prefix as [|x prefix IH]; intros off.
  - cbn [app find_first_alphabet_index_loop length]. rewrite Ha.
    destruct (Ascii.eqb c0 "j") eqn:E; [apply Ascii.eqb_eq in E; contradiction|].
    cbn. lia.
  - cbn [app find_first_alphabet_index_loop length].
    rewrite (Hp x (or_introl eq_refl)).
    rewrite IH by (intros c Hc; apply Hp; right; exact Hc). lia.
Qed.

(** X24.  The parser cuts the text of a term at its first operator: for a
    coefficient text without letters other than ['j'] followed by the key of
    a non-empty token sequence whose first mode is not ['j'], the key stored
    is the key of the token sequence, and the coefficient is [1] when the
    coefficient text is empty and [complex] of that text otherwise. *)
Theorem parse_term_cuts_at_first_operator {C : Type} `{Number C}
    (complex : str -> option C) (d : dict C) (prefix : str)
    (t : token) (ts : list token) :
  (forall c, In c prefix -> isalpha c && negb (Ascii.eqb c "j") = false) ->
  isalpha (fst t) = true -> fst t <> "j"%char ->
  parse_term complex d (prefix ++ term_key (t :: ts))
  = match (match prefix with [] => Some num_one | _ :: _ => complex prefix end) with
    | Some c => Ok (dict_set d (term_key (t :: ts)) c)
    | None => Raise ValueError
    end.
Proof.
  intros Hp Ha Hj. destruct (term_key_head t ts) as [rest Hrest].
  assert (E : find_first_alphabet_index (prefix ++ term_key (t :: ts))
              = length prefix).
  { unfold find_first_alphabet_index. rewrite Hrest.
    apply (find_first_alphabet_index_loop_app prefix (fst t) rest 0 Hp Ha Hj). }
  pose proof (skipn_length_app prefix (term_key (t :: ts)) 0) as Es.
  rewrite Nat.add_0_r in Es. cbn [skipn] in Es.
  unfold parse_term. cbv zeta. rewrite E, Es, firstn_length_app.
  destruct prefix as [|c prefix]; reflexivity.
Qed.

Lemma parse_term_cuts_at_first_operator_witness :
  parse_term decimal_literal [] (lit "12" ++ term_key [("a"%char, true); ("b"%char, false)])
  = Ok [(lit "a+_b", 12%Z)].
Proof.
  refine (parse_term_cuts_at_first_operator decimal_literal [] (lit "12")
            ("a"%char, true) [("b"%char, false)] _ eq_refl _).
  - intros c [<- | [<- | []]]; reflexivity.
  - discriminate.
Defined.

(** ** The size of a normal-ordered result *)

Section ResultSize.

Context {C : Type} `{Number C}.

Lemma normal_ordering_NoDup (depth : nat) (mode : ascii) (s : str) (c : C)
    (d : dict C) :
  normal_ordering depth mode s c = Ok d -> NoDup (keys d).
Proof.
  revert s d; induction depth as [|depth IH]; intros s d; [discriminate|].
  cbn [normal_ordering].
  destruct (find s (n_dag mode)) as [idx|].
  - destruct (normal_ordering depth mode (term_with_n mode s idx) c) as [d1|] eqn:E1;
      [|discriminate].
    destruct (normal_ordering depth mode (term_with_1 mode s idx) c) as [d2|];
      [|discriminate].
    cbn [bind]. intros E; inversion E; subst.
    apply add_expr_dicts_NoDup. eapply IH, E1.
  - intros E; inversion E; subst. repeat constructor. intros [].
Qed.

End ResultSize.

(** X25.  The result of [normal_ordering] on a single-mode term with [p]
    creation and [q] annihilation tokens has distinct keys and at most
    [min p q + 1] entries. *)
Theorem normal_ordering_result_size {C : Type} `{Number C}
    (mode : ascii) (bs : list bool) (coeff : C) (depth : nat) (d : dict C) :
  isalpha mode = true ->
  normal_ordering depth mode (term_key (single_mode mode bs)) coeff = Ok d ->
  NoDup (keys d)
  /\ length d <= S (Nat.min (creations bs) (annihilations bs)).
Proof.
  intros Hm Hd.
  pose proof (normal_ordering_NoDup _ _ _ _ _ Hd) as Hnd.
  split; [exact Hnd|].
  set (p := creations bs). set (q := annihilations bs).
  assert (Hincl : incl (keys d)
                    (map (fun j => shape_key mode (p - j) (q - j))
                       (seq 0 (S (Nat.min p q))))).
  { intros k Hk.
    destruct (proj1 (normal_ordering_shape_result mode Hm coeff bs depth d Hd) k Hk)
      as (j & Hj1 & Hj2 & ->).
    apply in_map_iff. exists j. split; [reflexivity|].
    apply in_seq. fold p q in Hj1, Hj2. lia. }
  pose proof (NoDup_incl_length Hnd Hincl) as Hlen.
  rewrite length_map, length_seq in Hlen.
  unfold keys in Hlen. rewrite length_map in Hlen. exact Hlen.
Qed.

Lemma normal_ordering_result_size_witness :
  NoDup (keys [(lit "a+_a_a", 1%Z); (lit "a", 2%Z)])
  /\ length [(lit "a+_a_a", 1%Z); (lit "a", 2%Z)]
     <= S (Nat.min (creations [false; false; true])
                   (annihilations [false; false; true])).
Proof.
  exact (normal_ordering_result_size "a" [false; false; true] 1%Z 3
           [(lit "a+_a_a", 1%Z); (lit "a", 2%Z)] eq_refl eq_refl).
Defined.

(** ** [split_modes] needs an organised string *)

Lemma find_from_absent (m : ascii) (s : str) (i : nat) :
  ~ In m s -> find_from s [m] i = None.
Proof.
  revert i; induction s as [|c s IH]; intros i Hn; [reflexivity|].
  rewrite find_from_skip by (intros E; apply Hn; left; exact E).
  apply IH. intros Hin. apply Hn. right; exact Hin.
Qed.

(** X26.  [split_modes] relies on its input being organised: on the key of
    two tokens of different modes written in descending order of the modes
    its assertion fails. *)
Theorem split_modes_unorganised_fails {C : Type} `{Number C} (t1 t2 : token) :
  isalpha (fst t1) = true -> isalpha (fst t2) = true ->
  char_lt (fst t2) (fst t1) ->
  @split_modes C _ (term_key [t1; t2]) = Raise AssertionError.
Proof.
  intros H1 H2 Hlt.
  assert (Hwf : wf_tokens [t1; t2]) by (repeat constructor; assumption).
  assert (Hne : fst t1 <> fst t2) by (intros E; unfold char_lt in Hlt; rewrite E in Hlt; lia).
  destruct (@find_modes_key C _ [t1; t2] Hwf) as [Hs Hin].
  assert (Hms : find_modes [(term_key [t1; t2], num_one)] = [fst t2; fst t1]).
  { apply StronglySorted_lt_unique; [exact Hs | |].
    - repeat constructor. exact Hlt.
    - intros c. rewrite Hin. simpl. tauto. }
  unfold split_modes. rewrite Hms. cbn [for_each]. unfold split_modes_step at 1.
  assert (Hkey : term_key [t1; t2] = key_sep [t1] ++ term_key [t2])
    by (apply (term_key_app_r [t1] [t2]); discriminate).
  destruct (term_key_head t2 []) as [s Hs2].
  assert (Hfind : find (term_key [t1; t2]) [fst t2] = Some (length (key_sep [t1]))).
  { unfold find. rewrite Hkey, Hs2. apply find_from_char.
    intros Hc. destruct (In_key_sep _ _ Hc) as [E | [E | [E | []]]].
    - apply (isalpha_neq_underscore _ H2 E).
    - apply (isalpha_neq_plus _ H2 E).
    - apply Hne. exact E. }
  rewrite Hfind. cbn [bind].
  rewrite Hkey at 1. 
  pose proof (skipn_length_app (key_sep [t1]) (term_key [t2]) 0) as Es.
  rewrite Nat.add_0_r in Es. cbn [skipn] in Es. rewrite Es.
  rewrite clean_string_term_key by (repeat constructor; assumption).
  unfold split_modes_step.
  assert (Hnone : find (term_key [t2]) [fst t1] = None).
  { apply find_from_absent. intros Hc.
    destruct (In_term_key _ _ Hc) as [E | [E | [E | []]]].
    - apply (isalpha_neq_underscore _ H1 E).
    - apply (isalpha_neq_plus _ H1 E).
    - apply Hne. symmetry. exact E. }
  rewrite Hnone. reflexivity.
Qed.

Lemma split_modes_unorganised_fails_witness :
  @split_modes Z _ (lit "b_a+") = Raise AssertionError.
Proof.
  refine (@split_modes_unorganised_fails Z _ ("b"%char, false) ("a"%char, true)
            eq_refl eq_refl _).
  unfold char_lt. cbn. lia.
Defined.

(** ** Multiplying by a constant *)

Lemma mode_group_cons (m : ascii) (t : token) (ts : list token) :
  mode_group m (t :: ts)
  = if Ascii.eqb (fst t) m then t :: mode_group m ts else mode_group m ts.
Proof. reflexivity. Qed.

Lemma ascii_eqb_refl (c : ascii) : Ascii.eqb c c = true.
Proof. apply Ascii.eqb_eq. reflexivity. Qed.

Lemma sorted_groups_unique (a b : list token) :
  StronglySorted char_le (map fst a) ->
  StronglySorted char_le (map fst b) ->
  (forall m, mode_group m a = mode_group m b) ->
  a = b.
Proof.
  revert b; induction a as [|t a IH]; intros b Ha Hb Hg.
  - destruct b as [|t' b]; [reflexivity|].
    specialize (Hg (fst t')). rewrite mode_group_cons, ascii_eqb_refl in Hg.
    discriminate Hg.
  - destruct b as [|t' b].
    + specialize (Hg (fst t)). rewrite mode_group_cons, ascii_eqb_refl in Hg.
      discriminate Hg.
    + cbn [map] in Ha, Hb.
      inversion Ha as [|? ? Ha' Hta]; subst.
      inversion Hb as [|? ? Hb' Htb]; subst.
      rewrite Forall_forall in Hta, Htb.
      assert (Et : t' = t).
      { pose proof (Hg (fst t)) as Hm.
        rewrite !mode_group_cons, ascii_eqb_refl in Hm.
        destruct (Ascii.eqb (fst t') (fst t)) eqn:E; [congruence|].
        exfalso.
        assert (Hin1 : In t (mode_group (fst t) b))
          by (rewrite <- Hm; left; reflexivity).
        apply mode_group_letters in Hin1. destruct Hin1 as [_ Hin1].
        pose proof (Htb (fst t) (in_map fst _ _ Hin1)) as Hle1.
        pose proof (Hg (fst t')) as Hm'.
        rewrite !mode_group_cons, ascii_eqb_refl in Hm'.
        destruct (Ascii.eqb (fst t) (fst t')) eqn:E'.
        { apply Ascii.eqb_eq in E'. rewrite E', ascii_eqb_refl in E. discriminate. }
        assert (Hin2 : In t' (mode_group (fst t') a))
          by (rewrite Hm'; left; reflexivity).
        apply mode_group_letters in Hin2. destruct Hin2 as [_ Hin2].
        pose proof (Hta (fst t') (in_map fst _ _ Hin2)) as Hle2.
        unfold char_le in Hle1, Hle2.
        assert (Heq : fst t' = fst t) by (apply nat_of_ascii_inj; lia).
        rewrite Heq, ascii_eqb_refl in E. discriminate. }
      subst t'. f_equal. apply IH; [exact Ha' | exact Hb'|].
      intros m. specialize (Hg m). rewrite !mode_group_cons in Hg.
      destruct (Ascii.eqb (fst t) m); [congruence | exact Hg].
Qed.

Lemma organize_sorted_identity (ms : list ascii) (ts : list token) :
  StronglySorted char_le (map fst ts) ->
  StronglySorted char_lt ms ->
  (forall c, In c ms <-> In c (map fst ts)) ->
  organize ms ts = ts.
Proof.
  intros Hts Hms Hin. apply sorted_groups_unique.
  - apply organize_sorted, Hms.
  - exact Hts.
  - intros m. apply mode_group_organize.
    + apply StronglySorted_lt_NoDup, Hms.
    + intros c. apply Hin.
Qed.

Lemma block_tokens_letters (blocks : list (ascii * list bool)) (c : ascii) :
  In c (map fst (block_tokens blocks)) -> In c (map fst blocks).
Proof.
  unfold block_tokens. induction blocks as [|b blocks IH]; [intros []|].
  cbn [flat_map]. rewrite map_app, in_app_iff. intros [Hc | Hc].
  - left. unfold single_mode in Hc. rewrite map_map in Hc.
    apply in_map_iff in Hc. destruct Hc as (x & <- & _). reflexivity.
  - right. apply IH, Hc.
Qed.

Lemma single_mode_sorted (m : ascii) (bs : list bool) :
  StronglySorted char_le (map fst (single_mode m bs)).
Proof.
  induction bs as [|b bs IH]; [constructor|].
  cbn [single_mode map fst]. constructor; [exact IH|].
  apply Forall_forall. intros y Hy. unfold single_mode in Hy.
  rewrite map_map in Hy. apply in_map_iff in Hy. destruct Hy as (x & <- & _).
  unfold char_le. cbn. lia.
Qed.

Lemma mode_group_single_same (m : ascii) (bs : list bool) :
  mode_group m (single_mode m bs) = single_mode m bs.
Proof.
  induction bs as [|b bs IH]; [reflexivity|].
  cbn [single_mode map]. rewrite mode_group_cons. cbn [fst].
  rewrite ascii_eqb_refl. f_equal. exact IH.
Qed.

Lemma mode_group_single_other (m m' : ascii) (bs : list bool) :
  m' <> m -> mode_group m (single_mode m' bs) = [].
Proof.
  intros N. apply mode_group_absent. intros Hin.
  unfold single_mode in Hin. rewrite map_map in Hin.
  apply in_map_iff in Hin. destruct Hin as (x & E & _). cbn in E. congruence.
Qed.

Lemma map_snd_single_mode (m : ascii) (bs : list bool) :
  map snd (single_mode m bs) = bs.
Proof.
  unfold single_mode. rewrite map_map. cbn. apply map_id.
Qed.

Lemma canonical_blocks_ordered (blocks : list (ascii * list bool)) :
  canonical_blocks blocks ->
  StronglySorted char_le (map fst (block_tokens blocks))
  /\ forall m, normal_ordered (map snd (mode_group m (block_tokens blocks))).
Proof.
  intros [Hs Hf]. induction blocks as [|b blocks IH].
  - split; [constructor|]. intros m. exists 0, 0. reflexivity.
  - cbn [map] in Hs. inversion Hs as [|? ? Hs' Hlt]; subst.
    inversion Hf as [|? ? [Ha Hno] Hf']; subst.
    destruct (IH Hs' Hf') as [IHs IHg].
    unfold block_tokens in *. cbn [flat_map]. split.
    + rewrite map_app. apply StronglySorted_app;
        [apply single_mode_sorted | exact IHs|].
      intros x y Hx Hy. unfold single_mode in Hx. rewrite map_map in Hx.
      apply in_map_iff in Hx. destruct Hx as (x0 & <- & _). cbn [fst].
      apply block_tokens_letters in Hy. rewrite Forall_forall in Hlt.
      specialize (Hlt y Hy). unfold char_lt in Hlt. unfold char_le. lia.
    + intros m. rewrite mode_group_app.
      destruct (ascii_dec (fst b) m) as [E | N].
      * subst m. rewrite mode_group_single_same.
        rewrite (mode_group_absent (fst b)).
        -- rewrite app_nil_r, map_snd_single_mode. exact Hno.
        -- intros Hin. apply block_tokens_letters in Hin.
           rewrite Forall_forall in Hlt. specialize (Hlt _ Hin).
           unfold char_lt in Hlt. lia.
      * rewrite mode_group_single_other by exact N. apply IHg.
Qed.

Section ConstantFactor.

Context {C : Type} `{Number C}.

Hypothesis one_left : forall x : C, num_mul num_one x = x.

Lemma multiply_terms_constant (depth : nat) (acc : dict C) (k : str)
    (v scalar : C) :
  canonical_key k ->
  multiply_terms (S depth) acc (k, v) ([], scalar)
  = Ok (add_expr_dicts acc [(k, num_mul v scalar)]).
Proof.
  intros (B & HB & ->).
  pose proof (canonical_blocks_wf B HB) as Hwf.
  destruct (canonical_blocks_ordered B HB) as [Hsorted Hord].
  assert (Hcase : block_tokens B = [] \/ block_tokens B <> [])
    by (destruct (block_tokens B); [left; reflexivity | right; discriminate]).
  destruct Hcase as [Ets | Ets].
  - rewrite Ets. reflexivity.
  - change (multiply_terms (S depth) acc (term_key (block_tokens B), v)
              (term_key [], scalar)
            = Ok (add_expr_dicts acc
                    [(term_key (block_tokens B), num_mul v scalar)])).
    rewrite (multiply_terms_no_reordering (one_left num_one) depth acc
               (block_tokens B) [] v scalar Hwf (Forall_nil _)).
    + rewrite one_left. rewrite hspace_organize_joined by (auto; constructor).
      destruct (find_modes_letters _ num_one (block_tokens B ++ [])
                  (fun c => letters_of_joined_keys (block_tokens B) [] c Hwf
                              (Forall_nil _))) as [Hs Hin].
      rewrite (app_nil_r (block_tokens B)) in *.
      rewrite organize_sorted_identity; [reflexivity | exact Hsorted | exact Hs|].
      exact Hin.
    + rewrite app_nil_r. exact Ets.
    + rewrite app_nil_r. exact Hord.
Qed.

Lemma multiply_constant_fold (depth : nat) (scalar : C) (l acc : dict C) :
  Forall canonical_key (keys l) ->
  NoDup (keys acc ++ keys l) ->
  for_each
    (fun result_dict t1 =>
       for_each
         (fun result_dict t2 => multiply_terms (S depth) result_dict t1 t2)
         [([], scalar)] result_dict)
    l acc
  = Ok (acc ++ map (fun kv => (fst kv, num_mul (snd kv) scalar)) l).
Proof.
  revert acc; induction l as [|[k v] l IH]; intros acc Hc Hnd.
  - simpl. rewrite app_nil_r. reflexivity.
  - cbn [keys map fst] in Hc. inversion Hc as [|? ? Hk Hc']; subst.
    cbn [for_each]. rewrite multiply_terms_constant by exact Hk.
    cbn [bind].
    assert (Hfresh : ~ In k (keys acc)).
    { intros Hin. cbn [keys map fst] in Hnd.
      apply NoDup_remove_2 in Hnd. apply Hnd, in_or_app. left; exact Hin. }
    rewrite (add_expr_dicts_fresh [(k, num_mul v scalar)] acc).
    + rewrite IH.
      * cbn [map fst snd]. rewrite <- app_assoc. reflexivity.
      * exact Hc'.
      * unfold keys in *. rewrite map_app, <- app_assoc. exact Hnd.
    + cbn [keys map fst]. apply NoDup_app.
      * apply NoDup_app_remove_r in Hnd. exact Hnd.
      * repeat constructor. intros [].
      * intros x Hx [<- | []]. contradiction.
Qed.

End ConstantFactor.

(** X27.  Multiplying on the right by a constant Expression [{"": s}] does
    what [scalar_multiply] does to the dictionary, when the keys of the
    other operand are distinct and in canonical form (and [1 * x = x] for
    coefficients): same keys in the same order, each coefficient multiplied
    by [s]. *)
Theorem multiply_by_constant_is_scaling {C : Type} `{Number C} (depth : nat)
    (A : Expression C) (scalar : C) (modesB : list ascii) :
  (forall x : C, num_mul num_one x = x) ->
  Forall canonical_key (keys (expr_dict A)) ->
  NoDup (keys (expr_dict A)) ->
  multiply (S depth) A (mkExpression [([], scalar)] modesB)
  = Ok (mkExpression (expr_dict (scalar_multiply A scalar))
          (sorted (set_of (modes A ++ modesB)))).
Proof.
  intros Hone Hc Hnd. unfold multiply. cbn [expr_dict modes Expression_empty].
  rewrite (multiply_constant_fold Hone depth scalar (expr_dict A) [] Hc Hnd).
  cbn [bind app]. rewrite scalar_multiply_dict by exact Hnd. reflexivity.
Qed.

Lemma multiply_by_constant_is_scaling_witness :
  multiply 1
    (mkExpression [(lit "a+_a_b", 2%Z); (lit "", 5%Z)] (lit "ab"))
    (mkExpression [([], 3%Z)] [])
  = Ok (mkExpression [(lit "a+_a_b", 6%Z); (lit "", 15%Z)] (lit "ab")).
Proof.
  refine (multiply_by_constant_is_scaling 0
            (mkExpression [(lit "a+_a_b", 2%Z); (lit "", 5%Z)] (lit "ab"))
            3%Z [] Z.mul_1_l _ _).
  - constructor; [|constructor; [apply canonical_key_empty | constructor]].
    exists [("a"%char, [true; false]); ("b"%char, [false])].
    split; [|reflexivity]. split.
    + repeat constructor; unfold char_lt; cbn; lia.
    + repeat constructor.
      * exists 1, 1. reflexivity.
      * exists 0, 1. reflexivity.
  - repeat constructor; simpl; intuition discriminate.
Defined.
